(** * Security and abuse-prevention core of prof-profiler

    A shallow embedding of the request throttle (the rate limiting
    middleware), the local storage utility, the photo upload route and
    the login route, with the properties the specification states about
    them.

    Conventions of the embedding.
    - JavaScript numbers that hold counts and millisecond timestamps are
      integers in the exactly representable range; they are modelled by [Z].
    - Strings are sequences of 8-bit code units ([string]); header values
      are byte strings in the Fetch API, so nothing is lost there.
    - A call that may throw, and an awaited promise that may reject, yields
      a [Completion].
    - Readings of the clock ([Date.now()]) and of the random source
      ([Math.random()], [crypto.randomBytes]) are inputs of the function
      that reads them.
    - The middleware awaits the route handler; the handler is an opaque
      collaborator that does not re-enter the throttle, so one middleware
      invocation is one transition of the store.
    - The store of the throttle is keyed, as in the code, by the string
      made of the request path, a colon and the client id. *)

From Stdlib Require Import ZArith Lia Ascii.
From stdpp Require Import gmap strings pretty list fin_maps.

Open Scope Z_scope.

(** ** JavaScript helpers *)

Inductive Completion (A : Type) : Type :=
  | Returns (a : A)
  | Throws.
Arguments Returns {A} a.
Arguments Throws {A}.

Module JS.

(** Truthiness of a string: only the empty string is falsy. *)
Definition truthy (s : string) : bool :=
  match s with
  | EmptyString => false
  | String _ _ => true
  end.

(** [a || b] where [a] is a string, [undefined] or [null]. *)
Definition or_else (a : option string) (b : string) : string :=
  match a with
  | Some s => if truthy s then s else b
  | None => b
  end.

(** [String(n)] for an integer [n]. *)
Definition String_ (n : Z) : string := pretty n.

(** [Math.ceil(x / d)] for integers [x] and a positive integer [d]. *)
Definition Math_ceil_div (x d : Z) : Z := - ((- x) / d).

Definition is_comma (c : Ascii.ascii) : bool := bool_decide (c = ","%char).

(** [s.split(',')]: never empty, ["".split(',')] is [[""]]. *)
Fixpoint split_comma (s : string) : list string :=
  match s with
  | EmptyString => [EmptyString]
  | String c s' =>
      if is_comma c then EmptyString :: split_comma s'
      else match split_comma s' with
           | [] => [String c EmptyString]
           | w :: ws => String c w :: ws
           end
  end.

(** White space and line terminators among the 8-bit code units:
    TAB, LF, VT, FF, CR, SP and NBSP. *)
Definition is_space (c : Ascii.ascii) : bool :=
  let n := Ascii.N_of_ascii c in
  ((9 <=? n) && (n <=? 13) || (n =? 32) || (n =? 160))%N.

Fixpoint trimStart (s : string) : string :=
  match s with
  | EmptyString => EmptyString
  | String c s' => if is_space c then trimStart s' else s
  end.

(** [trimEnd] keeps a character when it is not white space or when
    something remains after it. *)
Fixpoint trimEnd (s : string) : string :=
  match s with
  | EmptyString => EmptyString
  | String c s' =>
      match trimEnd s' with
      | EmptyString => if is_space c then EmptyString else String c EmptyString
      | t => String c t
      end
  end.

Definition trim (s : string) : string := trimEnd (trimStart s).

Definition lower_ascii (c : Ascii.ascii) : Ascii.ascii :=
  let n := Ascii.N_of_ascii c in
  if ((65 <=? n) && (n <=? 90))%N then Ascii.ascii_of_N (n + 32) else c.

Fixpoint toLowerCase (s : string) : string :=
  match s with
  | EmptyString => EmptyString
  | String c s' => String (lower_ascii c) (toLowerCase s')
  end.

End JS.

(** ** The HTTP objects of the framework *)

(** [Headers]: names are case-insensitive, [set] replaces. The map is keyed
    by the lower-cased name. *)
Module Headers.

Abbreviation t := (gmap string string).

Definition get (h : t) (name : string) : option string :=
  h !! JS.toLowerCase name.

Definition set (h : t) (name value : string) : t :=
  <[JS.toLowerCase name := value]> h.

End Headers.

#[warnings="-register-all"]
Inductive Json : Type :=
  | JNull
  | JBool (b : bool)
  | JNumber (n : Z)
  | JString (s : string)
  | JArray (items : list Json)
  | JObject (fields : list (string * Json)).

Record File : Type := mkFile {
  file_name : string;
  file_type : string;
  file_bytes : list Byte.byte
}.

(** [file.size] is the length of the content. *)
Definition file_size (f : File) : Z := Z.of_nat (length (file_bytes f)).

(** A form field holds a file or a string. *)
Inductive FormDataEntryValue : Type :=
  | FormFile (f : File)
  | FormString (s : string).

Record LoginRequest : Type := mkLoginRequest {
  email : option string;
  password : option string
}.

Record NextRequest : Type := mkRequest {
  pathname : string;
  headers : Headers.t;
  cookies : gmap string string;
  json : Completion LoginRequest;
  formData : Completion (gmap string FormDataEntryValue)
}.

Record CookieOptions : Type := mkCookie {
  cookie_value : string;
  httpOnly : bool;
  secure : bool;
  sameSite : string;
  maxAge : Z;
  cookie_path : string
}.

Record NextResponse : Type := mkResponse {
  status : Z;
  body : Json;
  res_headers : Headers.t;
  res_cookies : gmap string CookieOptions
}.

(** [NextResponse.json(body, { status })]. *)
Definition NextResponse_json (b : Json) (st : Z) : NextResponse :=
  {| status := st;
     body := b;
     res_headers := Headers.set ∅ "content-type" "application/json";
     res_cookies := ∅ |}.

(** [response.headers.set(name, value)]. *)
Definition set_header (response : NextResponse) (name value : string)
  : NextResponse :=
  {| status := status response;
     body := body response;
     res_headers := Headers.set (res_headers response) name value;
     res_cookies := res_cookies response |}.

(** [response.cookies.set(name, value, options)]. *)
Definition set_cookie (response : NextResponse) (name : string)
    (c : CookieOptions) : NextResponse :=
  {| status := status response;
     body := body response;
     res_headers := res_headers response;
     res_cookies := <[name := c]> (res_cookies response) |}.

(** ** Rate limiting middleware *)

Module RateLimit.

Record RateLimitConfig : Type := mkConfig {
  windowMs : Z;
  maxRequests : Z
}.

Record RateRecord : Type := mkRecord {
  count : Z;
  resetTime : Z
}.

(** The test [now > record.resetTime]. *)
Definition expired (now : Z) (record : RateRecord) : bool :=
  resetTime record <? now.

Definition getClientId (request : NextRequest) (userId : option string)
  : string :=
  if JS.truthy (default EmptyString userId) then
    "user:" +:+ default EmptyString userId
  else
    let forwarded := Headers.get (headers request) "x-forwarded-for" in
    let realIp := Headers.get (headers request) "x-real-ip" in
    let cfConnectingIp := Headers.get (headers request) "cf-connecting-ip" in
    JS.or_else
      (match forwarded with
       | Some f =>
           match JS.split_comma f with
           | a :: _ => Some (JS.trim a)
           | [] => None
           end
       | None => None
       end)
      (JS.or_else realIp (JS.or_else cfConnectingIp "unknown")).

Definition addRateLimitHeaders (response : NextResponse)
    (limit remaining resetTime : Z) : NextResponse :=
  let r1 := set_header response "X-RateLimit-Limit" (JS.String_ limit) in
  let r2 := set_header r1 "X-RateLimit-Remaining" (JS.String_ remaining) in
  set_header r2 "X-RateLimit-Reset"
    (JS.String_ (JS.Math_ceil_div resetTime 1000)).

(** Deletes every entry whose window is over at the sweep's own clock
    reading. *)
Definition cleanupExpiredEntries (now : Z)
    (rateLimitStore : gmap string RateRecord) : gmap string RateRecord :=
  filter (λ kv, expired now kv.2 = false) rateLimitStore.

(** The outcome of [Math.random() < 0.01] followed by the sweep:
    [None] when the draw is 0.01 or more, [Some t] when the sweep runs
    and its [Date.now()] reads [t]. *)
Definition maybe_cleanup (sweep : option Z)
    (rateLimitStore : gmap string RateRecord) : gmap string RateRecord :=
  match sweep with
  | Some t => cleanupExpiredEntries t rateLimitStore
  | None => rateLimitStore
  end.

Definition tooManyRequests (retryAfter : Z) : NextResponse :=
  NextResponse_json
    (JObject [("error", JString "Too many requests");
              ("message", JString "Rate limit exceeded. Please try again later.");
              ("retryAfter", JNumber retryAfter)])
    429.

(** The response of the branch that finds the limit exceeded. *)
Definition denyResponse (config : RateLimitConfig) (record : RateRecord)
    (now : Z) : NextResponse :=
  let retryAfter := JS.Math_ceil_div (resetTime record - now) 1000 in
  let response := tooManyRequests retryAfter in
  let response :=
    addRateLimitHeaders response (maxRequests config) 0 (resetTime record) in
  set_header response "Retry-After" (JS.String_ retryAfter).

(** [await handler(request)] followed by the decoration of its response;
    a rejection propagates. *)
Definition decorate (r : Completion NextResponse)
    (limit remaining resetTime : Z) : Completion NextResponse :=
  match r with
  | Returns response =>
      Returns (addRateLimitHeaders response limit remaining resetTime)
  | Throws => Throws
  end.

(** [getUserId ? await getUserId(request) : undefined]. *)
Definition resolveUserId
    (getUserId : option (NextRequest → Completion (option string)))
    (request : NextRequest) : Completion (option string) :=
  match getUserId with
  | Some f => f request
  | None => Returns None
  end.

Definition request_key (request : NextRequest) (userId : option string)
  : string :=
  pathname request +:+ ":" +:+ getClientId request userId.

(** The middleware. [now] is the reading of [Date.now()]; [record] is
    read before the sweep and, when the count goes up, written back
    after it. *)
Definition rateLimit (config : RateLimitConfig)
    (getUserId : option (NextRequest → Completion (option string)))
    (request : NextRequest)
    (handler : NextRequest → Completion NextResponse)
    (now : Z) (sweep : option Z)
    (rateLimitStore : gmap string RateRecord)
  : Completion NextResponse * gmap string RateRecord :=
  match resolveUserId getUserId request with
  | Throws => (Throws, rateLimitStore)
  | Returns userId =>
  let key := request_key request userId in
  let record := rateLimitStore !! key in
  let swept := maybe_cleanup sweep rateLimitStore in
  let fresh :=
    (decorate (handler request) (maxRequests config)
       (maxRequests config - 1) (now + windowMs config),
     <[key := mkRecord 1 (now + windowMs config)]> swept) in
  match record with
  | None => fresh
  | Some record =>
      if expired now record then fresh
      else if maxRequests config <=? count record then
        (Returns (denyResponse config record now), swept)
      else
        let record := mkRecord (count record + 1) (resetTime record) in
        (decorate (handler request) (maxRequests config)
           (maxRequests config - count record) (resetTime record),
         <[key := record]> swept)
  end
  end.

Inductive Preset : Type := auth | api | upload | deploy | admin.

Definition RateLimitPresets (p : Preset) : RateLimitConfig :=
  match p with
  | auth => mkConfig (15 * 60 * 1000) 5
  | api => mkConfig (15 * 60 * 1000) 100
  | upload => mkConfig (60 * 60 * 1000) 10
  | deploy => mkConfig (24 * 60 * 60 * 1000) 5
  | admin => mkConfig (60 * 60 * 1000) 50
  end.

Definition createRateLimiter (preset : Preset) :=
  rateLimit (RateLimitPresets preset).

(** *** Sequences of invocations

    The store is module-level state: successive requests run the
    middleware on the store the previous one left. *)
Record Call : Type := mkCall {
  call_config : RateLimitConfig;
  call_getUserId : option (NextRequest → Completion (option string));
  call_request : NextRequest;
  call_handler : NextRequest → Completion NextResponse;
  call_now : Z;
  call_sweep : option Z
}.

Definition invoke (c : Call) (rateLimitStore : gmap string RateRecord)
  : Completion NextResponse * gmap string RateRecord :=
  rateLimit (call_config c) (call_getUserId c) (call_request c)
    (call_handler c) (call_now c) (call_sweep c) rateLimitStore.

Fixpoint serve (calls : list Call) (rateLimitStore : gmap string RateRecord)
  : list (Completion NextResponse) * gmap string RateRecord :=
  match calls with
  | [] => ([], rateLimitStore)
  | c :: rest =>
      let (r, s1) := invoke c rateLimitStore in
      let (rs, s2) := serve rest s1 in
      (r :: rs, s2)
  end.

(** A call whose clock readings do not pass the end of the window of [r]. *)
Definition within_window (r : RateRecord) (c : Call) : Prop :=
  call_now c ≤ resetTime r ∧ ∀ t, call_sweep c = Some t → t ≤ resetTime r.

End RateLimit.

(** ** The throttle and the client key as the specification words them *)

Module ThrottleSpec.

Import RateLimit.

Inductive Decision : Type :=
  | Allow (remaining resetAt : Z)
  | Deny (retryAfterSeconds : Z).


(** The window of a record is [windowStart, windowResetAt): it is over
    once the clock has reached [windowResetAt]. *)
Definition window_expired (now : Z) (r : RateRecord) : Prop :=
  now >= resetTime r.

#[global] Instance window_expired_dec now r : base.Decision (window_expired now r).
Proof. unfold window_expired. apply Z_ge_dec. Defined.




(** The amended reading: the window is closed at its end,
    [windowStart, windowResetAt], and is over only once the clock has
    passed [windowResetAt]. *)
Definition window_passed (now : Z) (r : RateRecord) : Prop :=
  now > resetTime r.

#[global] Instance window_passed_dec now r : base.Decision (window_passed now r).
Proof. unfold window_passed. apply Z_gt_dec. Defined.



End ThrottleSpec.

Module ClientKeySpec.

(** The text before the first comma. *)
Fixpoint before_comma (s : string) : string :=
  match s with
  | EmptyString => EmptyString
  | String c s' => if JS.is_comma c then EmptyString else String c (before_comma s')
  end.

Definition first_address (forwarded : string) : string :=
  JS.trim (before_comma forwarded).

(** The client key read off the header that is present: forwarded-for,
    else real-IP, else the proxy header, else ["unknown"]; the user
    identity when there is one. *)
Definition clientKey_by_presence (request : NextRequest)
    (userId : option string) : string :=
  match userId with
  | Some u => "user:" +:+ u
  | None =>
      match Headers.get (headers request) "x-forwarded-for" with
      | Some f => first_address f
      | None =>
          match Headers.get (headers request) "x-real-ip" with
          | Some r => r
          | None =>
              match Headers.get (headers request) "cf-connecting-ip" with
              | Some c => c
              | None => "unknown"
              end
          end
      end
  end.

(** The first candidate that is present and not empty. *)
Fixpoint first_nonempty (candidates : list (option string))
    (fallback : string) : string :=
  match candidates with
  | [] => fallback
  | Some (String c s) :: _ => String c s
  | _ :: rest => first_nonempty rest fallback
  end.

Definition clientKey_by_content (request : NextRequest)
    (userId : option string) : string :=
  match userId with
  | Some (String c u) => "user:" +:+ String c u
  | _ =>
      first_nonempty
        [first_address <$> Headers.get (headers request) "x-forwarded-for";
         Headers.get (headers request) "x-real-ip";
         Headers.get (headers request) "cf-connecting-ip"]
        "unknown"
  end.

End ClientKeySpec.

(** ** Local file storage *)

Module Storage.

Inductive FileKind : Type := resume | photo.

(** The files on disk, by path. *)
Abbreviation Disk := (gmap string (list Byte.byte)).

Definition hex_digit (n : N) : Ascii.ascii :=
  if (n <? 10)%N then Ascii.ascii_of_N (48 + n) else Ascii.ascii_of_N (87 + n).

Definition hex_byte (b : Byte.byte) : string :=
  let n := Byte.to_N b in
  String (hex_digit (n / 16)) (String (hex_digit (n mod 16)) EmptyString).

(** [buffer.toString('hex')]. *)
Fixpoint toString_hex (buffer : list Byte.byte) : string :=
  match buffer with
  | [] => EmptyString
  | b :: rest => hex_byte b +:+ toString_hex rest
  end.

Section Local.

(** The [path] module of the platform and the behaviour of the file
    system are collaborators: [extname], [basename] and [join] are the
    functions of [path], [writable p] tells whether a write to [p]
    succeeds. *)
Variable extname : string → string.
Variable basename : string → string → string.
Variable join : list string → string.
Variable writable : string → bool.

(** [path.join(process.cwd(), 'public', 'uploads')]. *)
Variable cwd : string.
Definition UPLOAD_BASE_DIR : string := join [cwd; "public"; "uploads"].

Definition typeDir (type : FileKind) : string :=
  match type with
  | resume => "resumes"
  | photo => "photos"
  end.

(** The template literal of the unique file name. *)
Definition uniqueFileName (userId : string) (timestamp : Z)
    (randomId extension : string) : string :=
  userId +:+ "_" +:+ JS.String_ timestamp +:+ "_" +:+ randomId +:+ extension.

(** [fs.writeFile(filePath, data)]. *)
Definition writeFile (filePath : string) (data : list Byte.byte)
    (disk : Disk) : Completion unit * Disk :=
  if writable filePath then (Returns tt, <[filePath := data]> disk)
  else (Throws, disk).

(** [timestamp] is the reading of [Date.now()], [random] the result of
    [crypto.randomBytes(8)]. The directories made by [ensureUploadDirs]
    hold no file, so the files on disk are unchanged by it. *)
Definition uploadFileLocally (fileBuffer : list Byte.byte)
    (fileName userId : string) (type : FileKind)
    (timestamp : Z) (random : list Byte.byte) (disk : Disk)
  : Completion string * Disk :=
  let randomId := toString_hex random in
  let extension := extname fileName in
  let baseName := basename fileName extension in
  let name := uniqueFileName userId timestamp randomId extension in
  let filePath := join [UPLOAD_BASE_DIR; typeDir type; name] in
  match writeFile filePath fileBuffer disk with
  | (Returns _, disk') =>
      (Returns ("/uploads/" +:+ typeDir type +:+ "/" +:+ name), disk')
  | (Throws, disk') => (Throws, disk')
  end.

End Local.

End Storage.

(** ** Photo upload route *)

Module PhotoRoute.

Record PortfolioPhoto : Type := mkPhoto {
  photo_id : string;
  photoUrl : string;
  uploadedAt : string   (* [uploadedAt.toISOString()] *)
}.

Definition ALLOWED_TYPES : list string :=
  ["image/jpeg"; "image/png"; "image/webp"].

Definition MAX_FILE_SIZE : Z := 5 * 1024 * 1024.

Definition error_response (message : string) (st : Z) : NextResponse :=
  NextResponse_json (JObject [("error", JString message)]) st.

Section Route.

(** Collaborators that are not part of the route: the token verifier,
    the database services and the platform functions of the storage
    utility. *)
Variable verifyAccessToken : string → Completion (option string).
Variable canUploadMorePhotos : string → Completion bool.
Variable createPortfolioPhoto : string → string → Completion PortfolioPhoto.
Variable extname : string → string.
Variable basename : string → string → string.
Variable join : list string → string.
Variable writable : string → bool.
Variable cwd : string.

Definition internal_error : NextResponse :=
  error_response "Internal server error" 500.

(** The part of the handler that follows the validation of the file. *)
Definition store_photo (file : File) (userId : string)
    (timestamp : Z) (random : list Byte.byte) (disk : Storage.Disk)
  : NextResponse * Storage.Disk :=
  let fileBuffer := file_bytes file in
  match Storage.uploadFileLocally extname basename join writable cwd
          fileBuffer (file_name file) userId Storage.photo
          timestamp random disk with
  | (Throws, disk') => (internal_error, disk')
  | (Returns publicUrl, disk') =>
      match createPortfolioPhoto userId publicUrl with
      | Throws => (internal_error, disk')
      | Returns p =>
          (NextResponse_json
             (JObject
                [("message", JString "Photo uploaded successfully");
                 ("photo",
                  JObject [("id", JString (photo_id p));
                           ("fileName", JString (file_name file));
                           ("uploadedAt", JString (uploadedAt p));
                           ("publicUrl", JString (photoUrl p))])])
             201,
           disk')
      end
  end.

Definition POST (request : NextRequest)
    (timestamp : Z) (random : list Byte.byte) (disk : Storage.Disk)
  : NextResponse * Storage.Disk :=
  let accessToken := cookies request !! "accessToken" in
  if negb (JS.truthy (default EmptyString accessToken)) then
    (error_response "Authentication required" 401, disk)
  else
  match verifyAccessToken (default EmptyString accessToken) with
  | Throws => (internal_error, disk)
  | Returns userId =>
  if negb (JS.truthy (default EmptyString userId)) then
    (error_response "Invalid or expired token" 401, disk)
  else
  let userId := default EmptyString userId in
  match canUploadMorePhotos userId with
  | Throws => (internal_error, disk)
  | Returns canUpload =>
  if negb canUpload then
    (error_response
       "Maximum photo limit reached. Users can upload up to 3 photos." 403,
     disk)
  else
  match formData request with
  | Throws => (internal_error, disk)
  | Returns form =>
  match form !! "photo" with
  | None | Some (FormString EmptyString) =>
      (error_response "No file uploaded" 400, disk)
  | Some (FormString _) =>
      (* [file.type] is undefined for a string *)
      (error_response "Invalid file type. Allowed: JPEG, PNG, WebP" 400, disk)
  | Some (FormFile file) =>
  if negb (bool_decide (file_type file ∈ ALLOWED_TYPES)) then
    (error_response "Invalid file type. Allowed: JPEG, PNG, WebP" 400, disk)
  else if MAX_FILE_SIZE <? file_size file then
    (error_response "File too large. Maximum size: 5MB" 400, disk)
  else store_photo file userId timestamp random disk
  end end end end.

(** The request carries a token that the verifier maps to [userId]. *)
Definition authenticated (request : NextRequest) (userId : string) : Prop :=
  ∃ token, cookies request !! "accessToken" = Some token
           ∧ JS.truthy token = true
           ∧ verifyAccessToken token = Returns (Some userId)
           ∧ JS.truthy userId = true.

(** The request carries [file] in its [photo] field. *)
Definition uploads (request : NextRequest) (file : File) : Prop :=
  ∃ form, formData request = Returns form ∧ form !! "photo" = Some (FormFile file).

End Route.

End PhotoRoute.

(** ** Login route *)

Module LoginRoute.

Record User : Type := mkUser {
  user_id : string;
  user_email : string;
  user_name : option string;
  passwordHash : option string;
  role : string;
  isActive : bool;
  emailVerified : bool
}.

(** The environment variables the route reads. *)
Record Env : Type := mkEnv {
  JWT_SECRET : option string;
  NODE_ENV : option string
}.

Definition error_response (message : string) (st : Z) : NextResponse :=
  NextResponse_json (JObject [("error", JString message)]) st.

Definition internal_error : NextResponse :=
  error_response "Internal server error" 500.

Definition configuration_error : NextResponse :=
  error_response "Server configuration error. Please contact administrator." 500.

Definition json_of_option (o : option string) : Json :=
  match o with
  | Some s => JString s
  | None => JNull
  end.

Section Route.

(** Collaborators: the user-record store, the credential hasher and the
    token issuer. *)
Variable findUserByEmail : string → Completion (option User).
Variable verifyPassword : string → string → Completion bool.
Variable createAccessToken : string → string → string → Completion string.
Variable createRefreshToken : string → Completion string.
Variable updateUserLastLogin : string → Completion unit.

Definition session_cookie (env : Env) (value : string) (age : Z)
  : CookieOptions :=
  {| cookie_value := value;
     httpOnly := true;
     secure := bool_decide (NODE_ENV env = Some "production");
     sameSite := "lax";
     maxAge := age;
     cookie_path := "/" |}.

(** The handler from the generation of the tokens on. *)
Definition issue_session (env : Env) (user : User) : NextResponse :=
  match createAccessToken (user_id user) (user_email user) (role user) with
  | Throws => internal_error
  | Returns accessToken =>
  match createRefreshToken (user_id user) with
  | Throws => internal_error
  | Returns refreshToken =>
  match updateUserLastLogin (user_id user) with
  | Throws => internal_error
  | Returns _ =>
      let response :=
        NextResponse_json
          (JObject
             [("message", JString "Login successful");
              ("user",
               JObject [("id", JString (user_id user));
                        ("email", JString (user_email user));
                        ("name", json_of_option (user_name user));
                        ("emailVerified", JBool (emailVerified user))])])
          200 in
      let response :=
        set_cookie response "accessToken"
          (session_cookie env accessToken 3600) in
      set_cookie response "refreshToken"
        (session_cookie env refreshToken 604800)
  end end end.

(** The handler after the check of the secret. *)
Definition authenticate (env : Env) (email password : string)
  : NextResponse :=
  match findUserByEmail email with
  | Throws => internal_error
  | Returns None => error_response "Invalid credentials" 401
  | Returns (Some user) =>
  match passwordHash user with
  | None | Some EmptyString => error_response "Invalid credentials" 401
  | Some hash =>
  match verifyPassword password hash with
  | Throws => internal_error
  | Returns isValidPassword =>
  if negb isValidPassword then error_response "Invalid credentials" 401
  else if negb (isActive user) then
    error_response "Account is deactivated" 403
  else issue_session env user
  end end end.

Definition POST (env : Env) (request : NextRequest) : NextResponse :=
  match json request with
  | Throws => internal_error
  | Returns body =>
  if negb (JS.truthy (default EmptyString (email body)))
     || negb (JS.truthy (default EmptyString (password body))) then
    error_response "Email and password are required" 400
  else if negb (JS.truthy (default EmptyString (JWT_SECRET env))) then
    configuration_error
  else
    authenticate env (default EmptyString (email body))
                     (default EmptyString (password body))
  end.

End Route.

End LoginRoute.


(** ** The path functions of the platform, for POSIX paths

    These are the collaborators the storage utility is run with on
    concrete inputs. [extname] follows the right-to-left scan of the
    platform: the extension runs from the last dot of the last path
    component to its end, and is empty when there is no dot, when the dot
    opens the component, or when the component is [".."]. *)

Module Posix.

Record Scan : Type := mkScan {
  startDot : Z;
  startPart : Z;
  end_ : Z;
  matchedSlash : bool;
  preDotState : Z;
  stopped : bool
}.

Definition scan_step (st : Scan) (ic : Z * Ascii.ascii) : Scan :=
  let (i, code) := ic in
  if stopped st then st
  else if bool_decide (code = "/"%char) then
    if negb (matchedSlash st) then
      mkScan (startDot st) (i + 1) (end_ st) (matchedSlash st) (preDotState st) true
    else st
  else
    let st :=
      if end_ st =? -1 then
        mkScan (startDot st) (startPart st) (i + 1) false (preDotState st) false
      else st in
    if bool_decide (code = "."%char) then
      if startDot st =? -1 then
        mkScan i (startPart st) (end_ st) (matchedSlash st) (preDotState st) false
      else
        mkScan (startDot st) (startPart st) (end_ st) (matchedSlash st) 1 false
    else if negb (startDot st =? -1) then
      mkScan (startDot st) (startPart st) (end_ st) (matchedSlash st) (-1) false
    else st.

(** The characters of [s] with their indices, last first. *)
Definition indexed_rev (s : string) : list (Z * Ascii.ascii) :=
  rev (imap (λ i c, (Z.of_nat i, c)) (String.list_ascii_of_string s)).

Definition extname (path : string) : string :=
  let st := fold_left scan_step (indexed_rev path) (mkScan (-1) 0 (-1) true 0 false) in
  if (startDot st =? -1) || (end_ st =? -1) || (preDotState st =? 0)
     || ((preDotState st =? 1) && (startDot st =? end_ st - 1)
         && (startDot st =? startPart st + 1))
  then EmptyString
  else String.substring (Z.to_nat (startDot st))
         (Z.to_nat (end_ st - startDot st)) path.

(** [join] of segments that need no normalisation: the segments with a
    separator between them. *)
Fixpoint join (segments : list string) : string :=
  match segments with
  | [] => "."
  | [a] => a
  | a :: rest => a +:+ "/" +:+ join rest
  end.

(** [basename(path, ext)] of a path without separators: the path less the
    suffix [ext], unless [ext] is the whole path. *)
Definition basename (path ext : string) : string :=
  let n := String.length path in
  let k := String.length ext in
  if bool_decide (k < n)%nat
     && bool_decide (String.substring (n - k) k path = ext) then
    String.substring 0 (n - k) path
  else path.

End Posix.


(** ** Concrete requests and collaborators *)

Module Sample.

(** A forwarded-for header whose first entry is blank, and a real-IP
    header. *)
Definition blank_forwarded_request : NextRequest :=
  mkRequest "/api/auth/login"
    (Headers.set (Headers.set ∅ "x-forwarded-for" ",198.51.100.23")
       "x-real-ip" "203.0.113.7")
    ∅ Throws Throws.

Definition login_request : NextRequest :=
  mkRequest "/api/auth/login" ∅ ∅
    (Returns (mkLoginRequest (Some "ada@example.org") (Some "correct horse")))
    Throws.

Definition no_secret : LoginRoute.Env := LoginRoute.mkEnv None None.

Definition short_secret : LoginRoute.Env :=
  LoginRoute.mkEnv (Some "tiny") None.

Definition long_secret : LoginRoute.Env :=
  LoginRoute.mkEnv (Some "0123456789abcdef0123456789abcdef") None.

(** A user store without users, and a hasher and an issuer that always
    succeed. *)
Definition findUserByEmail (email : string) : Completion (option LoginRoute.User) :=
  Returns None.

Definition verifyPassword (password hash : string) : Completion bool :=
  Returns (bool_decide (password = hash)).

Definition createAccessToken (id email role : string) : Completion string :=
  Returns ("access." +:+ id).

Definition createRefreshToken (id : string) : Completion string :=
  Returns ("refresh." +:+ id).

Definition updateUserLastLogin (id : string) : Completion unit := Returns tt.

(** A verifier that knows one token, and a photo store that accepts. *)
Definition verifyAccessToken (token : string) : Completion (option string) :=
  Returns (if bool_decide (token = "valid-token") then Some "u1" else None).

Definition below_quota (userId : string) : Completion bool := Returns true.

Definition at_quota (userId : string) : Completion bool := Returns false.

Definition createPortfolioPhoto (userId url : string)
  : Completion PhotoRoute.PortfolioPhoto :=
  Returns (PhotoRoute.mkPhoto "p1" url "2025-01-01T00:00:00.000Z").

Definition always_writable (path : string) : bool := true.

Definition photo_request (file : File) : NextRequest :=
  mkRequest "/api/upload/photo" ∅ (<["accessToken" := "valid-token"]> ∅)
    Throws (Returns (<["photo" := FormFile file]> ∅)).

(** A small PNG: the first bytes of its signature. *)
Definition small_png : File :=
  mkFile "holiday.png" "image/png"
    [Byte.x89; Byte.x50; Byte.x4e; Byte.x47].


Definition random8 : list Byte.byte :=
  [Byte.x00; Byte.x11; Byte.x22; Byte.x33; Byte.x44; Byte.x55; Byte.x66; Byte.xff].

Definition ok_response : NextResponse := NextResponse_json (JObject []) 200.

Definition ok_handler (request : NextRequest) : Completion NextResponse :=
  Returns ok_response.

Definition anonymous_request : NextRequest :=
  mkRequest "/api/auth/login" (Headers.set ∅ "x-forwarded-for" "192.0.2.1")
    ∅ Throws Throws.

End Sample.

(** ** The rest of the storage utility *)

(** [path.join] of the platform: the non-empty arguments with a separator
    between them, then normalised; ["."] when nothing is left. The
    normalisation itself is a collaborator. *)
Module Path.

Section Join.

Variable normalize : string → string.

Definition join_step (joined : option string) (arg : string) : option string :=
  if JS.truthy arg then
    match joined with
    | None => Some arg
    | Some j => Some (j +:+ "/" +:+ arg)
    end
  else joined.

Definition join (args : list string) : string :=
  match fold_left join_step args None with
  | None => "."
  | Some joined => normalize joined
  end.

End Join.

End Path.

Module LocalFiles.

(** [s.startsWith(p)] as the rest of [s] after [p], if [p] opens [s]. *)
Fixpoint strip_prefix (p s : string) : option string :=
  match p with
  | EmptyString => Some s
  | String a p' =>
      match s with
      | EmptyString => None
      | String b s' => if bool_decide (a = b) then strip_prefix p' s' else None
      end
  end.

Definition startsWith (s p : string) : bool :=
  bool_decide (is_Some (strip_prefix p s)).

(** [publicUrl.replace(/^\/uploads\//, '')]. *)
Definition relativePath (publicUrl : string) : string :=
  default publicUrl (strip_prefix "/uploads/" publicUrl).

Section Ops.

(** [permitted p] tells whether the file system lets the process read,
    inspect and remove the file at [p]. *)
Variable normalize : string → string.
Variable permitted : string → bool.
Variable cwd : string.

Definition UPLOAD_BASE_DIR : string :=
  Storage.UPLOAD_BASE_DIR (Path.join normalize) cwd.

Definition filePath (publicUrl : string) : string :=
  Path.join normalize [UPLOAD_BASE_DIR; relativePath publicUrl].

(** [fs.unlink]. *)
Definition unlink (path : string) (disk : Storage.Disk)
  : Completion unit * Storage.Disk :=
  match disk !! path with
  | Some _ => if permitted path then (Returns tt, delete path disk) else (Throws, disk)
  | None => (Throws, disk)
  end.

(** [fs.readFile]. *)
Definition readFile (path : string) (disk : Storage.Disk)
  : Completion (list Byte.byte) :=
  match disk !! path with
  | Some data => if permitted path then Returns data else Throws
  | None => Throws
  end.

(** [fs.access]. *)
Definition access (path : string) (disk : Storage.Disk) : Completion unit :=
  match disk !! path with
  | Some _ => if permitted path then Returns tt else Throws
  | None => Throws
  end.

(** [(await fs.stat(path)).size]. *)
Definition stat_size (path : string) (disk : Storage.Disk) : Completion Z :=
  match disk !! path with
  | Some data => if permitted path then Returns (Z.of_nat (length data)) else Throws
  | None => Throws
  end.

(** The error of [unlink] is logged and dropped. *)
Definition deleteFileLocally (publicUrl : string) (disk : Storage.Disk)
  : Storage.Disk :=
  (unlink (filePath publicUrl) disk).2.

Definition readFileLocally (publicUrl : string) (disk : Storage.Disk)
  : Completion (list Byte.byte) :=
  readFile (filePath publicUrl) disk.

Definition fileExistsLocally (publicUrl : string) (disk : Storage.Disk) : bool :=
  match access (filePath publicUrl) disk with
  | Returns _ => true
  | Throws => false
  end.

Definition getFileSize (publicUrl : string) (disk : Storage.Disk) : Completion Z :=
  stat_size (filePath publicUrl) disk.

End Ops.

(** [files] is the outcome of [fs.readdir] on the directory of the kind. *)
Definition listUserFiles (userId : string) (type : Storage.FileKind)
    (files : Completion (list string)) : list string :=
  match files with
  | Returns files =>
      let userFiles := filter (λ file, startsWith file (userId +:+ "_") = true) files in
      map (λ file, "/uploads/" +:+ Storage.typeDir type +:+ "/" +:+ file) userFiles
  | Throws => []
  end.

End LocalFiles.

(** ** Listing the photos of a user *)

Module PhotoList.

Section Route.

Variable verifyAccessToken : string → Completion (option string).
Variable listUserPortfolioPhotos : string → Completion (list Json).

Definition GET (request : NextRequest) : NextResponse :=
  let accessToken := cookies request !! "accessToken" in
  if negb (JS.truthy (default EmptyString accessToken)) then
    PhotoRoute.error_response "Authentication required" 401
  else
  match verifyAccessToken (default EmptyString accessToken) with
  | Throws => PhotoRoute.error_response "Internal server error" 500
  | Returns userId =>
  if negb (JS.truthy (default EmptyString userId)) then
    PhotoRoute.error_response "Invalid or expired token" 401
  else
  match listUserPortfolioPhotos (default EmptyString userId) with
  | Throws => PhotoRoute.error_response "Internal server error" 500
  | Returns photos =>
      NextResponse_json (JObject [("photos", JArray photos)]) 200
  end
  end.

End Route.

End PhotoList.

(** ** Runs of the middleware for one client *)

Module Runs.

Import RateLimit.

(** The calls of one client on one path with one configuration, at the
    given clock readings and sweep outcomes. *)
Definition calls_at (config : RateLimitConfig)
    (getUserId : option (NextRequest → Completion (option string)))
    (request : NextRequest)
    (handler : NextRequest → Completion NextResponse)
    (readings : list (Z * option Z)) : list Call :=
  map (λ p, mkCall config getUserId request handler p.1 p.2) readings.

(** Two stores that hold the same records, except that the first may lack
    records of the second whose window was over at [t]. *)
Definition same_live_records (t : Z) (s1 s2 : gmap string RateRecord) : Prop :=
  ∀ k, s1 !! k = s2 !! k
       ∨ (s1 !! k = None ∧ ∃ r, s2 !! k = Some r ∧ resetTime r < t).




End Runs.

(** ** Text *)

Module Text.

(** [free_of c s]: the character [c] does not occur in [s]. *)
Fixpoint free_of (c : Ascii.ascii) (s : string) : Prop :=
  match s with
  | EmptyString => True
  | String a s' => a ≠ c ∧ free_of c s'
  end.

(** [every p s]: all characters of [s] are in the class [p]. *)
Definition every (p : Ascii.ascii → bool) (s : string) : Prop :=
  Forall (λ c, p c = true) (String.list_ascii_of_string s).

(** [blank s]: [s] holds white space only. *)
Definition blank (s : string) : Prop := every JS.is_space s.

(** [occurs_in m s]: the text [m] occurs in [s]. *)
Definition occurs_in (m s : string) : Prop :=
  ∃ before after, s = before +:+ m +:+ after.

End Text.

(** ** Regular expressions

    The fragment of the regular expressions of the language that the
    sources use: a class of characters, concatenation, the greedy
    optional [r?], and the greedy repetition of a class, [c+] and
    [c{m,n}]. [run] is the backtracking matcher: it tries the
    alternatives in the order of the language (more repetitions first,
    the optional part present first) and gives the first one that the
    rest of the pattern, the continuation [k], accepts. *)

Module Regex.

Inductive Re : Type :=
  | Eps
  | Chars (p : Ascii.ascii → bool)
  | Cat (r1 r2 : Re)
  | Opt (r : Re)
  | Many (p : Ascii.ascii → bool) (lo : nat) (hi : option nat).

Fixpoint many {A : Type} (p : Ascii.ascii → bool) (lo : nat) (hi : option nat)
    (s : list Ascii.ascii) (k : list Ascii.ascii → option A) : option A :=
  let stop := match lo with O => k s | S _ => None end in
  match s with
  | c :: s' =>
      if p c && negb (bool_decide (hi = Some O)) then
        match many p (Nat.pred lo) (Nat.pred <$> hi) s' k with
        | Some x => Some x
        | None => stop
        end
      else stop
  | [] => stop
  end.

Fixpoint run {A : Type} (r : Re) (s : list Ascii.ascii)
    (k : list Ascii.ascii → option A) : option A :=
  match r with
  | Eps => k s
  | Chars p =>
      match s with
      | c :: s' => if p c then k s' else None
      | [] => None
      end
  | Cat r1 r2 => run r1 s (λ s', run r2 s' k)
  | Opt r =>
      match run r s k with
      | Some x => Some x
      | None => k s
      end
  | Many p lo hi => many p lo hi s k
  end.

(** [/^r$/.test(s)]. *)
Definition test_whole (r : Re) (s : string) : bool :=
  bool_decide (is_Some (run r (String.list_ascii_of_string s)
                          (λ rest, match rest with [] => Some tt | _ => None end))).

(** The first match of [r] in [s], trying the start positions from the
    left. *)
Fixpoint search (r : Re) (s : list Ascii.ascii) : option (list Ascii.ascii) :=
  match run r s (λ rest, Some rest) with
  | Some rest => Some (take (length s - length rest) s)
  | None =>
      match s with
      | _ :: s' => search r s'
      | [] => None
      end
  end.

(** [s.match(/r/)]: the text of the first match, [match[0]]. *)
Definition match0 (r : Re) (s : string) : option string :=
  String.string_of_list_ascii <$> search r (String.list_ascii_of_string s).

(** The words of a pattern. *)
Fixpoint lang (r : Re) (w : list Ascii.ascii) : Prop :=
  match r with
  | Eps => w = []
  | Chars p => ∃ c, w = [c] ∧ p c = true
  | Cat r1 r2 => ∃ w1 w2, w = w1 ++ w2 ∧ lang r1 w1 ∧ lang r2 w2
  | Opt r => w = [] ∨ lang r w
  | Many p lo hi =>
      Forall (λ c, p c = true) w ∧ (lo ≤ length w)%nat
      ∧ ∀ h, hi = Some h → (length w ≤ h)%nat
  end.

(** *** The classes *)

Definition code (c : Ascii.ascii) : N := Ascii.N_of_ascii c.

Definition chr (x : Ascii.ascii) (c : Ascii.ascii) : bool := bool_decide (c = x).

(** A letter of the pattern under the flag [i]. *)
Definition is_ci (x : Ascii.ascii) (c : Ascii.ascii) : bool :=
  bool_decide (JS.lower_ascii c = JS.lower_ascii x).

(** [\d] *)
Definition digit (c : Ascii.ascii) : bool :=
  ((48 <=? code c) && (code c <=? 57))%N.

(** [\w] *)
Definition word (c : Ascii.ascii) : bool :=
  digit c
  || ((65 <=? code c) && (code c <=? 90))%N
  || ((97 <=? code c) && (code c <=? 122))%N
  || chr "_" c.

(** [[\w.-]] *)
Definition word_dot_dash (c : Ascii.ascii) : bool := word c || chr "." c || chr "-" c.

(** [[\w-]] *)
Definition word_dash (c : Ascii.ascii) : bool := word c || chr "-" c.

(** [[-.\s]] *)
Definition separator (c : Ascii.ascii) : bool :=
  chr "-" c || chr "." c || JS.is_space c.

(** [[^\s@]] *)
Definition not_space_at (c : Ascii.ascii) : bool :=
  negb (JS.is_space c) && negb (chr "@" c).

Definition plus (p : Ascii.ascii → bool) : Re := Many p 1 None.

Definition exactly (n : nat) (p : Ascii.ascii → bool) : Re := Many p n (Some n).

(** A literal text, under the flag [i]. *)
Fixpoint literal_ci (s : string) : Re :=
  match s with
  | EmptyString => Eps
  | String c s' => Cat (Chars (is_ci c)) (literal_ci s')
  end.

(** [/^[^\s@]+@[^\s@]+\.[^\s@]+$/] *)
Definition emailRegex : Re :=
  Cat (plus not_space_at)
    (Cat (Chars (chr "@"))
       (Cat (plus not_space_at) (Cat (Chars (chr ".")) (plus not_space_at)))).

(** [/[\w.-]+@[\w.-]+\.\w+/] *)
Definition emailPattern : Re :=
  Cat (plus word_dot_dash)
    (Cat (Chars (chr "@"))
       (Cat (plus word_dot_dash) (Cat (Chars (chr ".")) (plus word)))).

(** [/(\+?\d{1,3}[-.\s]?)?\(?\d{3}\)?[-.\s]?\d{3}[-.\s]?\d{4}/] *)
Definition phonePattern : Re :=
  Cat (Opt (Cat (Opt (Chars (chr "+")))
              (Cat (Many digit 1 (Some 3%nat)) (Opt (Chars separator)))))
    (Cat (Opt (Chars (chr "(")))
       (Cat (exactly 3 digit)
          (Cat (Opt (Chars (chr ")")))
             (Cat (Opt (Chars separator))
                (Cat (exactly 3 digit)
                   (Cat (Opt (Chars separator)) (exactly 4 digit))))))).

(** [/linkedin\.com\/in\/[\w-]+/i] *)
Definition linkedinPattern : Re :=
  Cat (literal_ci "linkedin.com/in/") (plus word_dash).

(** [/github\.com\/[\w-]+/i] *)
Definition githubPattern : Re :=
  Cat (literal_ci "github.com/") (plus word_dash).

End Regex.

(** ** Resume parser *)

Module ResumeParser.

Record Personal : Type := mkPersonal {
  name : string;
  email : string;
  phone : option string;
  linkedin : option string;
  github : option string
}.

(** The lists of the parsed resume hold what the parser puts in them. *)
Record ParsedResume : Type := mkParsed {
  personal : Personal;
  workExperience : list Json;
  education : list Json;
  skills : list string
}.

Definition is_newline (c : Ascii.ascii) : bool := bool_decide (c = "010"%char).

(** [text.split('\n')] *)
Fixpoint split_lines (s : string) : list string :=
  match s with
  | EmptyString => [EmptyString]
  | String c s' =>
      if is_newline c then EmptyString :: split_lines s'
      else match split_lines s' with
           | [] => [String c EmptyString]
           | w :: ws => String c w :: ws
           end
  end.

Definition parseResumeText (text fileType : string) : ParsedResume :=
  let emailMatch := Regex.match0 Regex.emailPattern text in
  let phoneMatch := Regex.match0 Regex.phonePattern text in
  let linkedinMatch := Regex.match0 Regex.linkedinPattern text in
  let githubMatch := Regex.match0 Regex.githubPattern text in
  let lines := filter (λ line, JS.truthy (JS.trim line) = true) (split_lines text) in
  {| personal :=
       {| name := match lines with
                  | line :: _ => JS.trim line
                  | [] => EmptyString
                  end;
          email := default EmptyString emailMatch;
          phone := phoneMatch;
          linkedin := (λ m, "https://" +:+ m) <$> linkedinMatch;
          github := (λ m, "https://" +:+ m) <$> githubMatch |};
     workExperience := [];
     education := [];
     skills := [] |}.

Definition parsePdfResume (buffer : list Byte.byte) : Completion ParsedResume :=
  Throws.

Definition parseDocxResume (buffer : list Byte.byte) : Completion ParsedResume :=
  Throws.

Section Decode.

(** [buffer.toString('utf-8')] is a function of the platform. *)
Variable toString_utf8 : list Byte.byte → string.

Definition parseTextResume (buffer : list Byte.byte) : Completion ParsedResume :=
  Returns (parseResumeText (toString_utf8 buffer) "txt").

Definition parseMarkdownResume (buffer : list Byte.byte)
  : Completion ParsedResume :=
  Returns (parseResumeText (toString_utf8 buffer) "md").

Definition parseResume (buffer : list Byte.byte) (fileType : string)
  : Completion ParsedResume :=
  let type := JS.toLowerCase fileType in
  if bool_decide (type = "pdf") then parsePdfResume buffer
  else if bool_decide (type = "docx") || bool_decide (type = "doc") then
    parseDocxResume buffer
  else if bool_decide (type = "txt") then parseTextResume buffer
  else if bool_decide (type = "md") || bool_decide (type = "markdown") then
    parseMarkdownResume buffer
  else Throws.

End Decode.

Definition validateParsedResume (resume : ParsedResume) : bool :=
  if negb (JS.truthy (name (personal resume)))
     || negb (JS.truthy (email (personal resume))) then false
  else if negb (Regex.test_whole Regex.emailRegex (email (personal resume))) then
    false
  else true.

Definition parseResumeWithAI (text : string) : Completion ParsedResume := Throws.

End ResumeParser.

(** ** Registration route *)

Module RegisterRoute.

Record RegisterRequest : Type := mkRegisterRequest {
  email : option string;
  password : option string;
  name : option string
}.

(** The argument of [createUser]. *)
Record NewUser : Type := mkNewUser {
  new_email : string;
  new_passwordHash : string;
  new_name : option string;
  new_role : string;
  new_emailVerified : bool;
  new_isActive : bool
}.

Section Route.

Variable findUserByEmail : string → Completion (option LoginRoute.User).
Variable hashPassword : string → Completion string.
Variable createUser : NewUser → Completion LoginRoute.User.
Variable createAccessToken : string → string → string → Completion string.
Variable createRefreshToken : string → Completion string.

(** The handler from the creation of the tokens on. *)
Definition welcome (env : LoginRoute.Env) (user : LoginRoute.User)
  : NextResponse :=
  match createAccessToken (LoginRoute.user_id user) (LoginRoute.user_email user)
          (LoginRoute.role user) with
  | Throws => LoginRoute.internal_error
  | Returns accessToken =>
  match createRefreshToken (LoginRoute.user_id user) with
  | Throws => LoginRoute.internal_error
  | Returns refreshToken =>
      let response :=
        NextResponse_json
          (JObject
             [("message", JString "User registered successfully.");
              ("user",
               JObject [("id", JString (LoginRoute.user_id user));
                        ("email", JString (LoginRoute.user_email user));
                        ("name", LoginRoute.json_of_option
                                   (LoginRoute.user_name user));
                        ("emailVerified",
                         JBool (LoginRoute.emailVerified user))])])
          201 in
      let response :=
        set_cookie response "accessToken"
          (LoginRoute.session_cookie env accessToken 3600) in
      set_cookie response "refreshToken"
        (LoginRoute.session_cookie env refreshToken 604800)
  end end.

(** The handler after the validation of the request. *)
Definition register (env : LoginRoute.Env) (body : RegisterRequest)
    (email password : string) : NextResponse :=
  match findUserByEmail email with
  | Throws => LoginRoute.internal_error
  | Returns (Some _) => LoginRoute.error_response "User already exists" 409
  | Returns None =>
  match hashPassword password with
  | Throws => LoginRoute.internal_error
  | Returns passwordHash =>
  match createUser (mkNewUser email passwordHash (name body) "user" false true) with
  | Throws => LoginRoute.internal_error
  | Returns user => welcome env user
  end end end.

(** [request.json()] is the parsed body with the fields of the interface;
    the check of the secret stands twice in the source. *)
Definition POST (env : LoginRoute.Env) (json : Completion RegisterRequest)
  : NextResponse :=
  match json with
  | Throws => LoginRoute.internal_error
  | Returns body =>
  let email := default EmptyString (email body) in
  let password := default EmptyString (password body) in
  if negb (JS.truthy email) || negb (JS.truthy password) then
    LoginRoute.error_response "Email and password are required" 400
  else if negb (JS.truthy (default EmptyString (LoginRoute.JWT_SECRET env))) then
    LoginRoute.configuration_error
  else if negb (JS.truthy (default EmptyString (LoginRoute.JWT_SECRET env))) then
    LoginRoute.configuration_error
  else if negb (Regex.test_whole Regex.emailRegex email) then
    LoginRoute.error_response "Invalid email format" 400
  else if (String.length password <? 5)%nat then
    LoginRoute.error_response "Password must be at least 5 characters" 400
  else register env body email password
  end.

End Route.

End RegisterRoute.

(** ** More concrete requests and collaborators *)

Module Fixture.

Import RateLimit.

(** Paths that are already normal are left as they are. *)
Definition normalize (path : string) : string := path.

Definition permit_all (path : string) : bool := true.

Definition failing_handler (request : NextRequest) : Completion NextResponse :=
  Throws.

Definition failing_record (userId url : string)
  : Completion PhotoRoute.PortfolioPhoto := Throws.

Definition no_photos (userId : string) : Completion (list Json) := Returns [].

Definition login_config : RateLimitConfig := mkConfig 900000 5.


Definition anonymous_key : string :=
  request_key Sample.anonymous_request None.

Definition full_store : gmap string RateRecord :=
  {[ anonymous_key := mkRecord 5 901000 ]}.

Definition other_client : NextRequest :=
  mkRequest "/api/auth/login" (Headers.set ∅ "x-forwarded-for" "192.0.2.99")
    ∅ Throws Throws.

Definition posing_request : NextRequest :=
  mkRequest "/api/upload/photo" (Headers.set ∅ "x-forwarded-for" "user:42, 10.0.0.1")
    ∅ Throws Throws.

Definition identified_request : NextRequest :=
  mkRequest "/api/upload/photo" ∅ ∅ Throws Throws.

Definition ada : LoginRoute.User :=
  LoginRoute.mkUser "u1" "ada@example.org" (Some "Ada") (Some "correct horse")
    "user" true true.

Definition find_ada (email : string) : Completion (option LoginRoute.User) :=
  Returns (if bool_decide (email = "ada@example.org") then Some ada else None).

Definition wrong_password_request : NextRequest :=
  mkRequest "/api/auth/login" ∅ ∅
    (Returns (mkLoginRequest (Some "ada@example.org") (Some "battery staple")))
    Throws.

Definition stored_name : string :=
  Storage.uniqueFileName "u1" 1700000000000
    (Storage.toString_hex Sample.random8) ".png".

Definition longer_id_name : string :=
  Storage.uniqueFileName "u1_b" 1700000000001
    (Storage.toString_hex Sample.random8) ".png".

(** A resume in plain text: a blank line, then the name with white space
    around it, then the contact details. *)
Definition newline : string := String "010"%char EmptyString.

Definition resume_text : string :=
  "  " +:+ newline +:+ "  Ada Lovelace " +:+ newline
  +:+ "ada@example.org, 555-123-4567" +:+ newline
  +:+ "LinkedIn.com/in/ada-l github.com/ada".

(** [buffer.toString('utf-8')] on the buffers that encode code points
    below 256, the texts that a string of this development holds: a byte
    below 128 is its own character, and a lead byte c2 or c3 followed by
    a continuation byte is the character from 128 to 255 that the two
    encode. Bytes outside such sequences, for which the platform gives a
    character that these strings do not have, are left out. *)
Definition is_continuation (n : N) : bool := ((128 <=? n) && (n <=? 191))%N.

Fixpoint decode_utf8 (buffer : list Byte.byte) : string :=
  match buffer with
  | [] => EmptyString
  | b :: rest =>
      let n := Byte.to_N b in
      if (n <? 128)%N then String (Ascii.ascii_of_N n) (decode_utf8 rest)
      else
        match rest with
        | b' :: rest' =>
            let n' := Byte.to_N b' in
            if ((194 <=? n) && (n <=? 195))%N && is_continuation n' then
              String (Ascii.ascii_of_N ((n - 192) * 64 + (n' - 128)))
                (decode_utf8 rest')
            else decode_utf8 rest
        | [] => EmptyString
        end
  end.

Definition resume_buffer : list Byte.byte := String.list_byte_of_string resume_text.

Definition hashPassword (password : string) : Completion string :=
  Returns ("hash:" +:+ password).

Definition createUser (u : RegisterRoute.NewUser) : Completion LoginRoute.User :=
  Returns
    (LoginRoute.mkUser "u2" (RegisterRoute.new_email u) (RegisterRoute.new_name u)
       (Some (RegisterRoute.new_passwordHash u)) (RegisterRoute.new_role u)
       (RegisterRoute.new_isActive u) (RegisterRoute.new_emailVerified u)).

Definition register_request : RegisterRoute.RegisterRequest :=
  RegisterRoute.mkRegisterRequest (Some "grace@example.org") (Some "hopper1")
    (Some "Grace").

Definition taken_request : RegisterRoute.RegisterRequest :=
  RegisterRoute.mkRegisterRequest (Some "ada@example.org") (Some "hopper1") None.

End Fixture.

(** * Properties *)

Import RateLimit.

(** ** Arithmetic of the retry delay *)

Lemma Math_ceil_div_bounds (x d : Z) :
  0 < d → d * (JS.Math_ceil_div x d - 1) < x ≤ d * JS.Math_ceil_div x d.
Proof.
  intros Hd. unfold JS.Math_ceil_div.
  pose proof (Z.div_mod (- x) d ltac:(lia)) as Hdm.
  pose proof (Z.mod_pos_bound (- x) d Hd) as Hm.
  nia.
Qed.

Lemma Math_ceil_div_least (x d n : Z) :
  0 < d → x ≤ d * n → JS.Math_ceil_div x d ≤ n.
Proof.
  intros Hd Hn. pose proof (Math_ceil_div_bounds x d Hd). nia.
Qed.


Lemma Math_ceil_div_nonpositive (x d : Z) :
  0 < d → x ≤ 0 → JS.Math_ceil_div x d ≤ 0.
Proof.
  intros Hd Hx. apply Math_ceil_div_least; lia.
Qed.


(** ** Headers *)

Lemma Headers_get_set_eq (h : Headers.t) (name value : string) :
  Headers.get (Headers.set h name value) name = Some value.
Proof. unfold Headers.get, Headers.set. apply lookup_insert_eq. Qed.

Lemma Headers_get_set_ne (h : Headers.t) (name other value : string) :
  JS.toLowerCase name ≠ JS.toLowerCase other →
  Headers.get (Headers.set h name value) other = Headers.get h other.
Proof. intros Hne. unfold Headers.get, Headers.set. by apply lookup_insert_ne. Qed.

Lemma header_set_eq (response : NextResponse) (name value : string) :
  Headers.get (res_headers (set_header response name value)) name = Some value.
Proof. apply Headers_get_set_eq. Qed.

Lemma header_set_ne (response : NextResponse) (name other value : string) :
  JS.toLowerCase name ≠ JS.toLowerCase other →
  Headers.get (res_headers (set_header response name value)) other
  = Headers.get (res_headers response) other.
Proof. apply Headers_get_set_ne. Qed.

Ltac header_lookup :=
  repeat first
    [ rewrite header_set_eq
    | rewrite header_set_ne by (vm_compute; discriminate) ];
  try reflexivity.

Lemma addRateLimitHeaders_limit response limit remaining reset :
  Headers.get (res_headers (addRateLimitHeaders response limit remaining reset))
    "X-RateLimit-Limit" = Some (JS.String_ limit).
Proof. unfold addRateLimitHeaders. header_lookup. Qed.

Lemma addRateLimitHeaders_remaining response limit remaining reset :
  Headers.get (res_headers (addRateLimitHeaders response limit remaining reset))
    "X-RateLimit-Remaining" = Some (JS.String_ remaining).
Proof. unfold addRateLimitHeaders. header_lookup. Qed.

Lemma addRateLimitHeaders_reset response limit remaining reset :
  Headers.get (res_headers (addRateLimitHeaders response limit remaining reset))
    "X-RateLimit-Reset" = Some (JS.String_ (JS.Math_ceil_div reset 1000)).
Proof. unfold addRateLimitHeaders. header_lookup. Qed.

Lemma addRateLimitHeaders_status response limit remaining reset :
  status (addRateLimitHeaders response limit remaining reset) = status response.
Proof. reflexivity. Qed.

Lemma addRateLimitHeaders_body response limit remaining reset :
  body (addRateLimitHeaders response limit remaining reset) = body response.
Proof. reflexivity. Qed.

(** ** The sweep *)

Lemma cleanup_lookup (t : Z) (store : gmap string RateRecord) (k : string) :
  cleanupExpiredEntries t store !! k
  = match store !! k with
    | Some r => if expired t r then None else Some r
    | None => None
    end.
Proof.
  unfold cleanupExpiredEntries. rewrite map_lookup_filter.
  destruct (store !! k) as [r|]; simpl; [|done].
  case_guard; simpl in *; destruct (expired t r); congruence.
Qed.

Lemma cleanup_keeps (t : Z) (store : gmap string RateRecord) (k : string) r :
  store !! k = Some r → resetTime r >= t →
  cleanupExpiredEntries t store !! k = Some r.
Proof.
  intros Hk Ht. rewrite cleanup_lookup, Hk. unfold expired.
  destruct (resetTime r <? t) eqn:E; [lia | done].
Qed.

Lemma maybe_cleanup_keeps sweep (store : gmap string RateRecord) k r :
  store !! k = Some r →
  (∀ t, sweep = Some t → t ≤ resetTime r) →
  maybe_cleanup sweep store !! k = Some r.
Proof.
  intros Hk Hs. destruct sweep as [t|]; simpl; [|done].
  apply cleanup_keeps; [done|]. specialize (Hs t eq_refl). lia.
Qed.

(** Each key is left as it was by the sweep, or held a record whose window
    was over at the sweep's clock reading and is gone. *)
Lemma maybe_cleanup_effect sweep (store : gmap string RateRecord) k :
  maybe_cleanup sweep store !! k = store !! k
  ∨ ∃ t r, sweep = Some t ∧ store !! k = Some r ∧ resetTime r < t
           ∧ maybe_cleanup sweep store !! k = None.
Proof.
  destruct sweep as [t|]; simpl; [|by left].
  rewrite cleanup_lookup. destruct (store !! k) as [r|] eqn:Hk; [|by left].
  unfold expired. destruct (resetTime r <? t) eqn:E; [|by left].
  right. exists t, r. repeat split; try done. lia.
Qed.

(** ** The three branches of the middleware *)

Section Branches.

Variable config : RateLimitConfig.
Variable getUserId : option (NextRequest → Completion (option string)).
Variable request : NextRequest.
Variable handler : NextRequest → Completion NextResponse.
Variable userId : option string.
Hypothesis resolved : resolveUserId getUserId request = Returns userId.

Let key := request_key request userId.

Lemma rateLimit_no_record now sweep (store : gmap string RateRecord) :
  store !! key = None →
  rateLimit config getUserId request handler now sweep store
  = (decorate (handler request) (maxRequests config)
       (maxRequests config - 1) (now + windowMs config),
     <[key := mkRecord 1 (now + windowMs config)]> (maybe_cleanup sweep store)).
Proof.
  intros Hk. unfold rateLimit. rewrite resolved. fold key. by rewrite Hk.
Qed.

Lemma rateLimit_expired now sweep (store : gmap string RateRecord) r :
  store !! key = Some r → resetTime r < now →
  rateLimit config getUserId request handler now sweep store
  = (decorate (handler request) (maxRequests config)
       (maxRequests config - 1) (now + windowMs config),
     <[key := mkRecord 1 (now + windowMs config)]> (maybe_cleanup sweep store)).
Proof.
  intros Hk Hr. unfold rateLimit. rewrite resolved. fold key. rewrite Hk.
  unfold expired. by rewrite (proj2 (Z.ltb_lt _ _) Hr).
Qed.

Lemma rateLimit_exceeded now sweep (store : gmap string RateRecord) r :
  store !! key = Some r → now ≤ resetTime r → maxRequests config ≤ count r →
  rateLimit config getUserId request handler now sweep store
  = (Returns (denyResponse config r now), maybe_cleanup sweep store).
Proof.
  intros Hk Hr Hc. unfold rateLimit. rewrite resolved. fold key. rewrite Hk.
  unfold expired. rewrite (proj2 (Z.ltb_ge _ _) Hr).
  by rewrite (proj2 (Z.leb_le _ _) Hc).
Qed.

Lemma rateLimit_counted now sweep (store : gmap string RateRecord) r :
  store !! key = Some r → now ≤ resetTime r → count r < maxRequests config →
  rateLimit config getUserId request handler now sweep store
  = (decorate (handler request) (maxRequests config)
       (maxRequests config - (count r + 1)) (resetTime r),
     <[key := mkRecord (count r + 1) (resetTime r)]> (maybe_cleanup sweep store)).
Proof.
  intros Hk Hr Hc. unfold rateLimit. rewrite resolved. fold key. rewrite Hk.
  unfold expired. rewrite (proj2 (Z.ltb_ge _ _) Hr).
  by rewrite (proj2 (Z.leb_gt _ _) Hc).
Qed.

End Branches.

Lemma rateLimit_unresolved config getUserId request handler now sweep
    (store : gmap string RateRecord) :
  resolveUserId getUserId request = Throws →
  rateLimit config getUserId request handler now sweep store = (Throws, store).
Proof. intros H. unfold rateLimit. by rewrite H. Qed.

(** The response of a denial. *)
Lemma denyResponse_status config r now :
  status (denyResponse config r now) = 429.
Proof. reflexivity. Qed.

Lemma denyResponse_body config r now :
  body (denyResponse config r now)
  = JObject [("error", JString "Too many requests");
             ("message", JString "Rate limit exceeded. Please try again later.");
             ("retryAfter", JNumber (JS.Math_ceil_div (resetTime r - now) 1000))].
Proof. reflexivity. Qed.

Lemma denyResponse_retry_after config r now :
  Headers.get (res_headers (denyResponse config r now)) "Retry-After"
  = Some (JS.String_ (JS.Math_ceil_div (resetTime r - now) 1000)).
Proof. unfold denyResponse. header_lookup. Qed.

Lemma denyResponse_limit config r now :
  Headers.get (res_headers (denyResponse config r now)) "X-RateLimit-Limit"
  = Some (JS.String_ (maxRequests config)).
Proof. unfold denyResponse, addRateLimitHeaders. header_lookup. Qed.

Lemma denyResponse_remaining config r now :
  Headers.get (res_headers (denyResponse config r now)) "X-RateLimit-Remaining"
  = Some "0".
Proof. unfold denyResponse, addRateLimitHeaders. header_lookup. Qed.

Lemma denyResponse_reset config r now :
  Headers.get (res_headers (denyResponse config r now)) "X-RateLimit-Reset"
  = Some (JS.String_ (JS.Math_ceil_div (resetTime r) 1000)).
Proof. unfold denyResponse, addRateLimitHeaders. header_lookup. Qed.

(** ** The middleware against the throttle of the specification *)





(** The values of the authentication preset. *)
Lemma auth_preset : RateLimitPresets auth = mkConfig 900000 5.
Proof. reflexivity. Qed.

(** Two different pairs of path and client id can share a key: the colon
    that joins them may also occur inside either. *)
Lemma request_key_shared :
  let r1 := mkRequest "/api/items/7" (Headers.set ∅ "x-real-ip" "a:b") ∅ Throws Throws in
  let r2 := mkRequest "/api/items/7:a" (Headers.set ∅ "x-real-ip" "b") ∅ Throws Throws in
  pathname r1 ≠ pathname r2
  ∧ getClientId r1 None ≠ getClientId r2 None
  ∧ request_key r1 None = request_key r2 None.
Proof. vm_compute. split_and!; [discriminate | discriminate | reflexivity]. Qed.

(** ** Windows *)

Lemma maybe_cleanup_Some sweep (store : gmap string RateRecord) k r :
  maybe_cleanup sweep store !! k = Some r → store !! k = Some r.
Proof.
  destruct sweep as [t|]; simpl; [|done].
  unfold cleanupExpiredEntries. by intros [? _]%map_lookup_filter_Some.
Qed.

(** A call that finds no live window for its key opens one. *)
Lemma rateLimit_opens config getUserId request handler userId now sweep
    (store : gmap string RateRecord) :
  resolveUserId getUserId request = Returns userId →
  (∀ r, store !! request_key request userId = Some r → resetTime r < now) →
  rateLimit config getUserId request handler now sweep store
  = (decorate (handler request) (maxRequests config)
       (maxRequests config - 1) (now + windowMs config),
     <[request_key request userId := mkRecord 1 (now + windowMs config)]>
       (maybe_cleanup sweep store)).
Proof.
  intros Hres Hopen.
  destruct (store !! request_key request userId) as [r|] eqn:Hk.
  - eapply rateLimit_expired; eauto.
  - by eapply rateLimit_no_record.
Qed.

(** The same two facts on a store whose record for the key was just
    written. *)
Lemma rateLimit_counted_written config getUserId request handler userId
    now sweep (m : gmap string RateRecord) c R :
  resolveUserId getUserId request = Returns userId →
  now ≤ R → c < maxRequests config →
  rateLimit config getUserId request handler now sweep
    (<[request_key request userId := mkRecord c R]> m)
  = (decorate (handler request) (maxRequests config)
       (maxRequests config - (c + 1)) R,
     <[request_key request userId := mkRecord (c + 1) R]>
       (maybe_cleanup sweep (<[request_key request userId := mkRecord c R]> m))).
Proof.
  intros Hres Hn Hc.
  by rewrite (rateLimit_counted config getUserId request handler userId Hres
                now sweep _ (mkRecord c R)) by (first [apply lookup_insert_eq | done]).
Qed.

Lemma rateLimit_exceeded_written config getUserId request handler userId
    now sweep (m : gmap string RateRecord) c R :
  resolveUserId getUserId request = Returns userId →
  now ≤ R → maxRequests config ≤ c →
  rateLimit config getUserId request handler now sweep
    (<[request_key request userId := mkRecord c R]> m)
  = (Returns (denyResponse config (mkRecord c R) now),
     maybe_cleanup sweep (<[request_key request userId := mkRecord c R]> m)).
Proof.
  intros Hres Hn Hc.
  by rewrite (rateLimit_exceeded config getUserId request handler userId Hres
                now sweep _ (mkRecord c R)) by (first [apply lookup_insert_eq | done]).
Qed.








(** ** The count inside a window *)

Lemma rateLimit_other_key config getUserId request handler userId now sweep
    (store : gmap string RateRecord) k :
  resolveUserId getUserId request = Returns userId →
  k ≠ request_key request userId →
  (rateLimit config getUserId request handler now sweep store).2 !! k
  = maybe_cleanup sweep store !! k.
Proof.
  intros Hres Hne. unfold rateLimit. rewrite Hres.
  destruct (store !! request_key request userId) as [r|]; simpl.
  - destruct (expired now r); simpl; [by rewrite lookup_insert_ne|].
    destruct (maxRequests config <=? count r); simpl; [done|].
    by rewrite lookup_insert_ne.
  - by rewrite lookup_insert_ne.
Qed.

(** One invocation, for whatever key, at clock readings inside the window
    of the record of [key]: the record stays, with its window and a count
    that is the same or one more. *)
Lemma invoke_within_window (c : Call) (store : gmap string RateRecord) key r :
  store !! key = Some r →
  call_now c ≤ resetTime r →
  (∀ t, call_sweep c = Some t → t ≤ resetTime r) →
  ∃ r', (invoke c store).2 !! key = Some r'
        ∧ resetTime r' = resetTime r
        ∧ count r ≤ count r' ≤ count r + 1.
Proof.
  intros Hk Hnow Hsweep. unfold invoke.
  destruct (resolveUserId (call_getUserId c) (call_request c))
    as [userId|] eqn:Hres.
  - destruct (decide (key = request_key (call_request c) userId)) as [->|Hne].
    + destruct (Z_lt_le_dec (count r) (maxRequests (call_config c))) as [Hc|Hc].
      * rewrite (rateLimit_counted _ _ _ _ userId Hres _ _ store r Hk Hnow Hc).
        simpl. rewrite lookup_insert_eq. eexists; split; [done|]. simpl. lia.
      * rewrite (rateLimit_exceeded _ _ _ _ userId Hres _ _ store r Hk Hnow Hc).
        simpl. exists r. rewrite (maybe_cleanup_keeps _ _ _ r Hk Hsweep).
        split_and!; first [done | lia].
    + rewrite (rateLimit_other_key _ _ _ _ userId _ _ store key Hres Hne).
      exists r. rewrite (maybe_cleanup_keeps _ _ _ r Hk Hsweep).
      split_and!; first [done | lia].
  - rewrite rateLimit_unresolved by done. exists r. simpl. rewrite Hk.
    split_and!; first [done | lia].
Qed.

Lemma serve_cons c calls (store : gmap string RateRecord) :
  (serve (c :: calls) store).2 = (serve calls (invoke c store).2).2.
Proof.
  simpl. destruct (invoke c store) as [r s1]. simpl.
  by destruct (serve calls s1).
Qed.

Lemma serve_app calls1 calls2 (store : gmap string RateRecord) :
  (serve (calls1 ++ calls2) store).2 = (serve calls2 (serve calls1 store).2).2.
Proof.
  revert store. induction calls1 as [|c calls1 IH]; intros store; [done|].
  rewrite <- app_comm_cons, !serve_cons. apply IH.
Qed.

Lemma serve_within_window calls (store : gmap string RateRecord) key r :
  store !! key = Some r →
  Forall (within_window r) calls →
  ∃ r', (serve calls store).2 !! key = Some r'
        ∧ resetTime r' = resetTime r
        ∧ count r ≤ count r'.
Proof.
  revert store r. induction calls as [|c calls IH]; intros store r Hk Hall.
  - exists r. simpl. rewrite Hk. split_and!; first [done | lia].
  - apply Forall_cons in Hall as [[Hnow Hsweep] Hall].
    destruct (invoke_within_window c store key r Hk Hnow Hsweep)
      as (r1 & Hk1 & Hr1 & Hc1).
    destruct (IH (invoke c store).2 r1 Hk1) as (r2 & Hk2 & Hr2 & Hc2).
    + eapply Forall_impl; [exact Hall|]. intros c' [? ?].
      unfold within_window. rewrite Hr1. done.
    + exists r2. rewrite serve_cons. split; [done|]. lia.
Qed.

(** C5, as amended. The window of a record is closed at its end:
    [windowStart, windowResetAt]. The count of a record never goes down
    while the calls, for any key and with or without the sweep, read the
    clock up to and including windowResetAt: after any prefix of such
    calls the record is still there with the same windowResetAt and a
    count at least as large as before, and after any further such calls
    at least as large again. A call for the record's key at windowResetAt
    itself still increments a record below the ceiling. A call for the
    record's key later than windowResetAt replaces the record by a fresh
    one with count 1, whatever the old count was. *)
Theorem count_monotone_within_window_replaced_after
    (calls1 calls2 : list Call) (store : gmap string RateRecord) key r :
  store !! key = Some r →
  Forall (within_window r) (calls1 ++ calls2) →
  (∃ r1 r2,
      (serve calls1 store).2 !! key = Some r1
      ∧ (serve (calls1 ++ calls2) store).2 !! key = Some r2
      ∧ resetTime r1 = resetTime r ∧ resetTime r2 = resetTime r
      ∧ count r ≤ count r1 ∧ count r1 ≤ count r2)
  ∧ (∀ config getUserId request handler userId sweep,
        resolveUserId getUserId request = Returns userId →
        key = request_key request userId →
        count r < maxRequests config →
        (rateLimit config getUserId request handler (resetTime r) sweep store).2
          !! key
        = Some (mkRecord (count r + 1) (resetTime r)))
  ∧ (∀ config getUserId request handler userId now sweep,
        resolveUserId getUserId request = Returns userId →
        key = request_key request userId →
        resetTime r < now →
        (rateLimit config getUserId request handler now sweep store).2 !! key
        = Some (mkRecord 1 (now + windowMs config))).
Proof.
  intros Hk Hall. apply Forall_app in Hall as [Hall1 Hall2]. split_and!.
  - destruct (serve_within_window calls1 store key r Hk Hall1)
      as (r1 & Hk1 & Hr1 & Hc1).
    destruct (serve_within_window calls2 (serve calls1 store).2 key r1 Hk1)
      as (r2 & Hk2 & Hr2 & Hc2).
    + eapply Forall_impl; [exact Hall2|]. intros c' [? ?].
      unfold within_window. rewrite Hr1. done.
    + exists r1, r2. rewrite serve_app. split_and!; try done. lia.
  - intros config getUserId request handler userId sweep Hres -> Hc.
    rewrite (rateLimit_counted config _ _ _ userId Hres (resetTime r) sweep
               store r Hk) by (first [lia | done]).
    apply lookup_insert_eq.
  - intros config getUserId request handler userId now sweep Hres -> Hnow.
    rewrite (rateLimit_expired config _ _ _ userId Hres now sweep store r Hk Hnow).
    apply lookup_insert_eq.
Qed.

(** C5, as stated, fails at the instant windowResetAt. The window
    [windowStart, windowResetAt) of a record that ends at 901000 has
    expired at 901000, yet a call at 901000 does not replace the record:
    its count goes from 2 to 3 and its window stays. *)
Lemma count_incremented_at_window_end :
  let key := request_key Sample.anonymous_request None in
  let store : gmap string RateRecord := {[ key := mkRecord 2 901000 ]} in
  let out :=
    rateLimit (mkConfig 900000 5) None Sample.anonymous_request
      Sample.ok_handler 901000 None store in
  ¬ (901000 < resetTime (mkRecord 2 901000))
  ∧ ThrottleSpec.window_expired 901000 (mkRecord 2 901000)
  ∧ out.2 !! key = Some (mkRecord 3 901000)
  ∧ out.2 !! key ≠ Some (mkRecord 1 (901000 + 900000)).
Proof.
  intros key store out.
  assert (Hk : store !! key = Some (mkRecord 2 901000))
    by apply lookup_singleton_eq.
  assert (Hout : out.2 !! key = Some (mkRecord 3 901000)).
  { subst out.
    rewrite (rateLimit_counted (mkConfig 900000 5) None Sample.anonymous_request
               Sample.ok_handler None eq_refl 901000 None store
               (mkRecord 2 901000) Hk) by (simpl; lia).
    cbn [snd]. by rewrite lookup_insert_eq. }
  split_and!.
  - simpl. lia.
  - unfold ThrottleSpec.window_expired. simpl. lia.
  - exact Hout.
  - rewrite Hout. discriminate.
Qed.

(** ** Denials *)

(** C10. A call that finds a live record at the ceiling is answered 429
    and writes nothing: without the sweep the store is the same; with the
    sweep, every key either holds what it held or held a record whose
    window was over at the sweep's clock reading and is now without a
    record. No key gains a record and no record changes. *)
Theorem deny_leaves_store
    config getUserId request handler userId now sweep
    (store : gmap string RateRecord) r :
  resolveUserId getUserId request = Returns userId →
  store !! request_key request userId = Some r →
  now ≤ resetTime r →
  maxRequests config ≤ count r →
  let out := rateLimit config getUserId request handler now sweep store in
  out.1 = Returns (denyResponse config r now)
  ∧ (sweep = None → out.2 = store)
  ∧ (∀ t, sweep = Some t → t ≤ resetTime r →
          out.2 !! request_key request userId = Some r)
  ∧ (∀ k, out.2 !! k = store !! k
          ∨ ∃ t old, sweep = Some t ∧ store !! k = Some old
                     ∧ resetTime old < t ∧ out.2 !! k = None).
Proof.
  intros Hres Hk Hnow Hc out. subst out.
  rewrite (rateLimit_exceeded config _ _ _ userId Hres now sweep store r Hk Hnow Hc).
  simpl. split_and!.
  - done.
  - by intros ->.
  - intros t -> Ht. simpl. apply cleanup_keeps; [done | lia].
  - intros k. apply maybe_cleanup_effect.
Qed.

(** ** Headers of the responses of the middleware *)

Lemma decorate_Returns r limit remaining reset response :
  decorate r limit remaining reset = Returns response →
  ∃ inner, r = Returns inner
           ∧ response = addRateLimitHeaders inner limit remaining reset.
Proof.
  destruct r as [inner|]; simpl; [|discriminate].
  intros [= <-]. by exists inner.
Qed.

Lemma decorate_headers r limit remaining reset response :
  decorate r limit remaining reset = Returns response →
  Headers.get (res_headers response) "X-RateLimit-Limit" = Some (JS.String_ limit)
  ∧ Headers.get (res_headers response) "X-RateLimit-Remaining"
    = Some (JS.String_ remaining)
  ∧ Headers.get (res_headers response) "X-RateLimit-Reset"
    = Some (JS.String_ (JS.Math_ceil_div reset 1000)).
Proof.
  intros (inner & _ & ->)%decorate_Returns.
  auto using addRateLimitHeaders_limit, addRateLimitHeaders_remaining,
    addRateLimitHeaders_reset.
Qed.

(** C8. Every response the middleware returns carries the headers
    X-RateLimit-Limit, X-RateLimit-Remaining and X-RateLimit-Reset; the
    response to a request that finds a live record at the ceiling has
    status 429, carries Retry-After, and its X-RateLimit-Remaining is 0. *)
Theorem rate_limit_headers
    config getUserId request handler now sweep
    (store : gmap string RateRecord) response :
  (rateLimit config getUserId request handler now sweep store).1
  = Returns response →
  Headers.get (res_headers response) "X-RateLimit-Limit"
  = Some (JS.String_ (maxRequests config))
  ∧ is_Some (Headers.get (res_headers response) "X-RateLimit-Remaining")
  ∧ is_Some (Headers.get (res_headers response) "X-RateLimit-Reset")
  ∧ (∀ userId r,
        resolveUserId getUserId request = Returns userId →
        store !! request_key request userId = Some r →
        now ≤ resetTime r →
        maxRequests config ≤ count r →
        status response = 429
        ∧ is_Some (Headers.get (res_headers response) "Retry-After")
        ∧ Headers.get (res_headers response) "X-RateLimit-Remaining" = Some "0").
Proof.
  intros Hout.
  assert (Hdeny : ∀ userId r,
            resolveUserId getUserId request = Returns userId →
            store !! request_key request userId = Some r →
            now ≤ resetTime r → maxRequests config ≤ count r →
            response = denyResponse config r now).
  { intros userId r Hres Hk Hnow Hc.
    rewrite (rateLimit_exceeded config _ _ _ userId Hres now sweep store r
               Hk Hnow Hc) in Hout.
    by injection Hout. }
  assert (Hthree :
    Headers.get (res_headers response) "X-RateLimit-Limit"
    = Some (JS.String_ (maxRequests config))
    ∧ is_Some (Headers.get (res_headers response) "X-RateLimit-Remaining")
    ∧ is_Some (Headers.get (res_headers response) "X-RateLimit-Reset")).
  { destruct (resolveUserId getUserId request) as [userId|] eqn:Hres;
      [|by rewrite rateLimit_unresolved in Hout].
    destruct (store !! request_key request userId) as [r|] eqn:Hk.
    - destruct (Z_lt_le_dec (resetTime r) now) as [Hr|Hr].
      + rewrite (rateLimit_expired config _ _ _ userId Hres now sweep store r
                   Hk Hr) in Hout.
        apply decorate_headers in Hout as (-> & -> & ->). eauto.
      + destruct (Z_lt_le_dec (count r) (maxRequests config)) as [Hc|Hc].
        * rewrite (rateLimit_counted config _ _ _ userId Hres now sweep store r
                     Hk Hr Hc) in Hout.
          apply decorate_headers in Hout as (-> & -> & ->). eauto.
        * rewrite (Hdeny userId r eq_refl Hk Hr Hc).
          rewrite denyResponse_limit, denyResponse_remaining, denyResponse_reset.
          eauto.
    - rewrite (rateLimit_no_record config _ _ _ userId Hres now sweep store Hk)
        in Hout.
      apply decorate_headers in Hout as (-> & -> & ->). eauto. }
  destruct Hthree as (H1 & H2 & H3). split_and!; try done.
  intros userId r Hres Hk Hnow Hc.
  rewrite (Hdeny userId r Hres Hk Hnow Hc).
  rewrite denyResponse_retry_after, denyResponse_remaining. eauto.
Qed.

(** ** The client key *)

Lemma split_comma_head (s : string) :
  ∃ rest, JS.split_comma s = ClientKeySpec.before_comma s :: rest.
Proof.
  induction s as [|c s [rest IH]]; simpl; [by exists []|].
  destruct (JS.is_comma c); [by eexists|].
  rewrite IH. by eexists.
Qed.

Lemma or_else_first_nonempty (a : option string) candidates fallback :
  JS.or_else a (ClientKeySpec.first_nonempty candidates fallback)
  = ClientKeySpec.first_nonempty (a :: candidates) fallback.
Proof. by destruct a as [[|c s]|]. Qed.

Lemma or_else_chain (a b c : option string) :
  JS.or_else a (JS.or_else b (JS.or_else c "unknown"))
  = ClientKeySpec.first_nonempty [a; b; c] "unknown".
Proof.
  change "unknown" with (ClientKeySpec.first_nonempty [] "unknown") at 1.
  by rewrite !or_else_first_nonempty.
Qed.

(** C7, as amended. A non-empty user id gives the key "user:" followed by
    the id. Otherwise the key is the first comma-separated entry of the
    forwarded-for header, trimmed, when the header is present and that
    entry is not empty after trimming; else the real-IP header value when
    present and not empty; else the proxy header value when present and
    not empty; else "unknown". *)
Theorem getClientId_first_nonempty (request : NextRequest) (userId : option string) :
  getClientId request userId = ClientKeySpec.clientKey_by_content request userId.
Proof.
  unfold getClientId, ClientKeySpec.clientKey_by_content.
  assert (Hfirst :
    match Headers.get (headers request) "x-forwarded-for" with
    | Some f => match JS.split_comma f with
                | a :: _ => Some (JS.trim a)
                | [] => None
                end
    | None => None
    end
    = ClientKeySpec.first_address <$> Headers.get (headers request) "x-forwarded-for").
  { destruct (Headers.get (headers request) "x-forwarded-for") as [f|];
      [|reflexivity].
    by destruct (split_comma_head f) as [rest ->]. }
  rewrite Hfirst, or_else_chain.
  by destruct userId as [[|c u]|].
Qed.

(** C7, as stated, fails: with a forwarded-for header whose first entry is
    blank the key is not taken from that header although it is present;
    here it is the real-IP value. *)
Lemma getClientId_blank_forwarded_entry :
  getClientId Sample.blank_forwarded_request None = "203.0.113.7"
  ∧ ClientKeySpec.clientKey_by_presence Sample.blank_forwarded_request None = ""
  ∧ getClientId Sample.blank_forwarded_request None
    ≠ ClientKeySpec.clientKey_by_presence Sample.blank_forwarded_request None.
Proof. vm_compute. repeat split; discriminate. Qed.

(** ** The storage utility *)

Section StorageProps.

Variable extname : string → string.
Variable basename : string → string → string.
Variable join : list string → string.
Variable writable : string → bool.
Variable cwd : string.

Local Abbreviation uploadFileLocally :=
  (Storage.uploadFileLocally extname basename join writable cwd).

Lemma uploadFileLocally_outcome fileBuffer fileName userId type timestamp random
    (disk : Storage.Disk) :
  let name :=
    userId +:+ "_" +:+ JS.String_ timestamp +:+ "_"
           +:+ Storage.toString_hex random +:+ extname fileName in
  let filePath :=
    join [Storage.UPLOAD_BASE_DIR join cwd; Storage.typeDir type; name] in
  uploadFileLocally fileBuffer fileName userId type timestamp random disk
  = if writable filePath then
      (Returns ("/uploads/" +:+ Storage.typeDir type +:+ "/" +:+ name),
       <[filePath := fileBuffer]> disk)
    else (Throws, disk).
Proof.
  intros name filePath. unfold Storage.uploadFileLocally, Storage.writeFile.
  fold name. unfold Storage.uniqueFileName. fold name. fold filePath.
  by destruct (writable filePath).
Qed.

(** C9. The name under which an upload is stored is the owner's id, the
    clock reading, the random suffix in hexadecimal and the extension of
    the uploaded file name, joined by underscores before the extension.
    When the file system takes the write, the upload returns the URL that
    ends in that name and the bytes are on the disk under that name in the
    directory of its kind, and nowhere else; when it does not, the upload
    fails and the disk is as before. Two uploaded file names with the same
    extension give the same stored name, path and disk: nothing of the
    file name but its extension reaches the stored name. *)
Theorem stored_name_owner_time_random_extension
    fileBuffer fileName userId type timestamp random (disk : Storage.Disk) :
  let name :=
    userId +:+ "_" +:+ JS.String_ timestamp +:+ "_"
           +:+ Storage.toString_hex random +:+ extname fileName in
  let filePath :=
    join [Storage.UPLOAD_BASE_DIR join cwd; Storage.typeDir type; name] in
  let out :=
    uploadFileLocally fileBuffer fileName userId type timestamp random disk in
  (writable filePath = true →
   out = (Returns ("/uploads/" +:+ Storage.typeDir type +:+ "/" +:+ name),
          <[filePath := fileBuffer]> disk))
  ∧ (writable filePath = false → out = (Throws, disk))
  ∧ (∀ otherName,
        extname otherName = extname fileName →
        uploadFileLocally fileBuffer otherName userId type timestamp random disk
        = out).
Proof.
  intros name filePath out. subst out. split_and!.
  - intros Hw. rewrite uploadFileLocally_outcome. fold name. fold filePath.
    by rewrite Hw.
  - intros Hw. rewrite uploadFileLocally_outcome. fold name. fold filePath.
    by rewrite Hw.
  - intros otherName Hext. rewrite !uploadFileLocally_outcome. by rewrite Hext.
Qed.

End StorageProps.

(** ** The photo upload route *)

Section PhotoProps.

Variable verifyAccessToken : string → Completion (option string).
Variable canUploadMorePhotos : string → Completion bool.
Variable createPortfolioPhoto :
  string → string → Completion PhotoRoute.PortfolioPhoto.
Variable extname : string → string.
Variable basename : string → string → string.
Variable join : list string → string.
Variable writable : string → bool.
Variable cwd : string.

Local Abbreviation POST :=
  (PhotoRoute.POST verifyAccessToken canUploadMorePhotos createPortfolioPhoto
     extname basename join writable cwd).
Local Abbreviation store_photo :=
  (PhotoRoute.store_photo createPortfolioPhoto extname basename join writable cwd).
Local Abbreviation authenticated := (PhotoRoute.authenticated verifyAccessToken).
Local Abbreviation uploads := PhotoRoute.uploads.


Lemma POST_checked request userId file timestamp random (disk : Storage.Disk) :
  authenticated request userId →
  canUploadMorePhotos userId = Returns true →
  uploads request file →
  file_type file ∈ PhotoRoute.ALLOWED_TYPES →
  POST request timestamp random disk
  = if PhotoRoute.MAX_FILE_SIZE <? file_size file then
      (PhotoRoute.error_response "File too large. Maximum size: 5MB" 400, disk)
    else store_photo file userId timestamp random disk.
Proof.
  intros (token & Hc & Ht & Hv & Hu) Hq (form & Hf & Hp) Hty.
  unfold PhotoRoute.POST.
  rewrite Hc. simpl. rewrite Ht. simpl. rewrite Hv. simpl. rewrite Hu. simpl.
  rewrite Hq. simpl. rewrite Hf, Hp.
  by rewrite (bool_decide_eq_true_2 _ Hty).
Qed.


(** What an accepted upload writes. *)
Lemma store_photo_disk file userId timestamp random (disk : Storage.Disk) :
  let name :=
    userId +:+ "_" +:+ JS.String_ timestamp +:+ "_"
           +:+ Storage.toString_hex random +:+ extname (file_name file) in
  let filePath := join [Storage.UPLOAD_BASE_DIR join cwd; "photos"; name] in
  writable filePath = true →
  (store_photo file userId timestamp random disk).2
  = <[filePath := file_bytes file]> disk.
Proof.
  intros name filePath Hw. unfold PhotoRoute.store_photo.
  rewrite uploadFileLocally_outcome. simpl Storage.typeDir.
  fold name. fold filePath. rewrite Hw.
  by destruct (createPortfolioPhoto _ _).
Qed.

(** An accepted upload puts the bytes of the file on disk as they are. *)
Lemma accepted_upload_written_verbatim
    request userId file timestamp random (disk : Storage.Disk) :
  let name :=
    userId +:+ "_" +:+ JS.String_ timestamp +:+ "_"
           +:+ Storage.toString_hex random +:+ extname (file_name file) in
  let filePath := join [Storage.UPLOAD_BASE_DIR join cwd; "photos"; name] in
  authenticated request userId →
  canUploadMorePhotos userId = Returns true →
  uploads request file →
  file_type file ∈ PhotoRoute.ALLOWED_TYPES →
  file_size file ≤ PhotoRoute.MAX_FILE_SIZE →
  writable filePath = true →
  (POST request timestamp random disk).2 !! filePath = Some (file_bytes file).
Proof.
  intros name filePath Ha Hq Hu Hty Hsize Hw.
  rewrite (POST_checked request userId file) by done.
  rewrite (proj2 (Z.ltb_ge _ _) Hsize).
  rewrite store_photo_disk by done. apply lookup_insert_eq.
Qed.


End PhotoProps.

(** The route on concrete requests, with the platform's path functions. *)


Lemma photo_request_authenticated file :
  PhotoRoute.authenticated Sample.verifyAccessToken (Sample.photo_request file) "u1".
Proof. exists "valid-token". repeat split. Qed.

Lemma photo_request_uploads file :
  PhotoRoute.uploads (Sample.photo_request file) file.
Proof. eexists. split; [reflexivity|]. apply lookup_insert_eq. Qed.

(** C1 is not met by the code: the upload of a small PNG by an authenticated
    owner below the quota is accepted with status 201, and the file on disk
    holds the very bytes that were uploaded. *)
Theorem photo_upload_writes_plaintext :
  let out :=
    PhotoRoute.POST Sample.verifyAccessToken Sample.below_quota
      Sample.createPortfolioPhoto Posix.extname Posix.basename Posix.join
      Sample.always_writable "/app"
      (Sample.photo_request Sample.small_png) 1700000000000 Sample.random8 ∅ in
  status out.1 = 201
  ∧ out.2 !! "/app/public/uploads/photos/u1_1700000000000_00112233445566ff.png"
    = Some (file_bytes Sample.small_png)
  ∧ out.2
    = {[ "/app/public/uploads/photos/u1_1700000000000_00112233445566ff.png"
         := [Byte.x89; Byte.x50; Byte.x4e; Byte.x47] ]}.
Proof.
  intros out. subst out.
  rewrite (POST_checked _ _ _ _ _ _ _ _ _ "u1" Sample.small_png)
    by first [ apply photo_request_authenticated | apply photo_request_uploads
             | reflexivity | (cbn; set_solver) ].
  change (PhotoRoute.MAX_FILE_SIZE <? file_size Sample.small_png) with false.
  cbv iota.
  assert (Hdisk :
    (PhotoRoute.store_photo Sample.createPortfolioPhoto Posix.extname
       Posix.basename Posix.join Sample.always_writable "/app"
       Sample.small_png "u1" 1700000000000 Sample.random8 ∅).2
    = {[ "/app/public/uploads/photos/u1_1700000000000_00112233445566ff.png"
         := file_bytes Sample.small_png ]}).
  { rewrite store_photo_disk by reflexivity. rewrite insert_empty.
    f_equal. }
  split_and!.
  - reflexivity.
  - rewrite Hdisk. apply lookup_singleton_eq.
  - exact Hdisk.
Qed.


(** ** The login route *)

Section LoginProps.

Variable findUserByEmail : string → Completion (option LoginRoute.User).
Variable verifyPassword : string → string → Completion bool.
Variable createAccessToken : string → string → string → Completion string.
Variable createRefreshToken : string → Completion string.
Variable updateUserLastLogin : string → Completion unit.

Local Abbreviation POST :=
  (LoginRoute.POST findUserByEmail verifyPassword createAccessToken
     createRefreshToken updateUserLastLogin).
Local Abbreviation authenticate :=
  (LoginRoute.authenticate findUserByEmail verifyPassword createAccessToken
     createRefreshToken updateUserLastLogin).

(** C2, as amended. The login route checks the signing secret on every
    request: a request that carries an email and a password is answered
    with the 500 response "Server configuration error" when the secret is
    unset or empty, before any collaborator is called; with any non-empty
    secret, of whatever length, the route goes on to authenticate. *)
Theorem login_checks_secret_per_request
    (env : LoginRoute.Env) (request : NextRequest) body e p :
  json request = Returns body →
  email body = Some e → JS.truthy e = true →
  password body = Some p → JS.truthy p = true →
  status LoginRoute.configuration_error = 500
  ∧ match LoginRoute.JWT_SECRET env with
    | None | Some EmptyString =>
        POST env request = LoginRoute.configuration_error
    | Some (String _ _) => POST env request = authenticate env e p
    end.
Proof.
  intros Hj He Hte Hp Htp. split; [reflexivity|].
  unfold LoginRoute.POST. rewrite Hj, He, Hp. simpl. rewrite Hte, Htp. simpl.
  by destruct (LoginRoute.JWT_SECRET env) as [[|c s]|].
Qed.

End LoginProps.

(** C2, as stated, fails: without a secret the route is up and answers a
    well-formed login request with a 500 response; the same request with a
    secret in place is answered by the authentication proper. *)
Lemma login_without_secret_answered :
  let post :=
    LoginRoute.POST Sample.findUserByEmail Sample.verifyPassword
      Sample.createAccessToken Sample.createRefreshToken
      Sample.updateUserLastLogin in
  post Sample.no_secret Sample.login_request = LoginRoute.configuration_error
  ∧ status (post Sample.no_secret Sample.login_request) = 500
  ∧ post Sample.short_secret Sample.login_request
    = LoginRoute.error_response "Invalid credentials" 401
  ∧ post Sample.long_secret Sample.login_request
    = LoginRoute.error_response "Invalid credentials" 401.
Proof. vm_compute. repeat split. Qed.

(** * The theorems at concrete inputs *)



(** Two calls inside a window that holds count 1, then two more, the last
    at the very end of the window; a call at the end of the window and a
    call after it. *)
Lemma count_monotone_within_window_replaced_after_witness :
  let key := request_key Sample.anonymous_request None in
  let store : gmap string RateRecord := {[ key := mkRecord 1 901000 ]} in
  let call t s :=
    mkCall (mkConfig 900000 5) None Sample.anonymous_request
      Sample.ok_handler t s in
  let calls1 := [call 2000 None; call 3000 (Some 3001)] in
  let calls2 := [call 4000 None; call 901000 None] in
  store !! key = Some (mkRecord 1 901000)
  ∧ Forall (within_window (mkRecord 1 901000)) (calls1 ++ calls2)
  ∧ (∃ r1 r2,
        (serve calls1 store).2 !! key = Some r1
        ∧ (serve (calls1 ++ calls2) store).2 !! key = Some r2
        ∧ 1 ≤ count r1 ∧ count r1 ≤ count r2)
  ∧ (rateLimit (mkConfig 900000 5) None Sample.anonymous_request
       Sample.ok_handler 901000 None store).2 !! key
    = Some (mkRecord (1 + 1) 901000)
  ∧ (rateLimit (mkConfig 900000 5) None Sample.anonymous_request
       Sample.ok_handler 901001 None store).2 !! key
    = Some (mkRecord 1 (901001 + 900000)).
Proof.
  intros key store call calls1 calls2.
  assert (Hk : store !! key = Some (mkRecord 1 901000))
    by apply lookup_singleton_eq.
  assert (Hall : Forall (within_window (mkRecord 1 901000)) (calls1 ++ calls2)).
  { repeat constructor; simpl; try lia; intros t [= <-]; lia. }
  destruct (count_monotone_within_window_replaced_after calls1 calls2 store key
              (mkRecord 1 901000) Hk Hall)
    as ((r1 & r2 & H1 & H2 & _ & _ & Hc1 & Hc2) & Hat & Hafter).
  split_and!; [exact Hk | exact Hall | | |].
  - exists r1, r2. split_and!; [exact H1 | exact H2 | exact Hc1 | exact Hc2].
  - exact (Hat (mkConfig 900000 5) None Sample.anonymous_request
             Sample.ok_handler None None eq_refl eq_refl ltac:(simpl; lia)).
  - exact (Hafter (mkConfig 900000 5) None Sample.anonymous_request
             Sample.ok_handler None 901001 None eq_refl eq_refl
             ltac:(simpl; lia)).
Defined.

(** The headers of the answer to a sixth login within the window. *)
Lemma rate_limit_headers_witness :
  let key := request_key Sample.anonymous_request None in
  let store : gmap string RateRecord := {[ key := mkRecord 5 901000 ]} in
  let out :=
    rateLimit (mkConfig 900000 5) None Sample.anonymous_request
      Sample.ok_handler 600000 None store in
  let response := denyResponse (mkConfig 900000 5) (mkRecord 5 901000) 600000 in
  out.1 = Returns response
  ∧ store !! key = Some (mkRecord 5 901000)
  ∧ Headers.get (res_headers response) "X-RateLimit-Limit" = Some "5"
  ∧ is_Some (Headers.get (res_headers response) "X-RateLimit-Reset")
  ∧ status response = 429
  ∧ is_Some (Headers.get (res_headers response) "Retry-After")
  ∧ Headers.get (res_headers response) "X-RateLimit-Remaining" = Some "0".
Proof.
  intros key store out response.
  assert (Hk : store !! key = Some (mkRecord 5 901000))
    by apply lookup_singleton_eq.
  assert (Hout : out.1 = Returns response).
  { subst out.
    by rewrite (rateLimit_exceeded (mkConfig 900000 5) None
                  Sample.anonymous_request Sample.ok_handler None eq_refl
                  600000 None store (mkRecord 5 901000) Hk)
      by (simpl; lia). }
  destruct (rate_limit_headers (mkConfig 900000 5) None
              Sample.anonymous_request Sample.ok_handler 600000 None store
              response Hout) as (Hl & _ & Ht & Hdeny).
  destruct (Hdeny None (mkRecord 5 901000) eq_refl Hk
              ltac:(simpl; lia) ltac:(simpl; lia)) as (Hs & Hra & Hrem).
  split_and!;
    [exact Hout | exact Hk | exact Hl | exact Ht | exact Hs | exact Hra | exact Hrem].
Defined.

(** A sixth login within the window leaves the store as it was. *)
Lemma deny_leaves_store_witness :
  let key := request_key Sample.anonymous_request None in
  let store : gmap string RateRecord := {[ key := mkRecord 5 901000 ]} in
  let out :=
    rateLimit (mkConfig 900000 5) None Sample.anonymous_request
      Sample.ok_handler 600000 None store in
  resolveUserId None Sample.anonymous_request = Returns None
  ∧ store !! key = Some (mkRecord 5 901000)
  ∧ 600000 ≤ 901000 ∧ 5 ≤ 5
  ∧ out.2 = store.
Proof.
  intros key store out.
  assert (Hk : store !! key = Some (mkRecord 5 901000))
    by apply lookup_singleton_eq.
  destruct (deny_leaves_store (mkConfig 900000 5) None Sample.anonymous_request
              Sample.ok_handler None 600000 None store (mkRecord 5 901000)
              eq_refl Hk ltac:(simpl; lia) ltac:(simpl; lia))
    as (_ & Hsame & _).
  split_and!; [reflexivity | exact Hk | lia | lia | exact (Hsame eq_refl)].
Defined.

(** A plain file name and a crafted one with the same extension: the
    stored name, and that the crafted name gives the same. *)
Lemma stored_name_owner_time_random_extension_witness :
  let upload name :=
    Storage.uploadFileLocally Posix.extname Posix.basename Posix.join
      Sample.always_writable "/app" (file_bytes Sample.small_png) name "u1"
      Storage.photo 1700000000000 Sample.random8 ∅ in
  Sample.always_writable
    "/app/public/uploads/photos/u1_1700000000000_00112233445566ff.png" = true
  ∧ Posix.extname "../../etc/cron.d/job.png" = Posix.extname "holiday.png"
  ∧ upload "holiday.png"
    = (Returns "/uploads/photos/u1_1700000000000_00112233445566ff.png",
       {[ "/app/public/uploads/photos/u1_1700000000000_00112233445566ff.png"
          := file_bytes Sample.small_png ]})
  ∧ upload "../../etc/cron.d/job.png" = upload "holiday.png".
Proof.
  intros upload.
  assert (Hext : Posix.extname "../../etc/cron.d/job.png"
                 = Posix.extname "holiday.png") by (vm_compute; reflexivity).
  pose proof (stored_name_owner_time_random_extension Posix.extname
                Posix.basename Posix.join Sample.always_writable "/app"
                (file_bytes Sample.small_png) "holiday.png" "u1"
                Storage.photo 1700000000000 Sample.random8 ∅)
    as (Hwritten & _ & Hsame).
  split_and!; [reflexivity | exact Hext | | exact (Hsame _ Hext)].
  unfold upload. rewrite (Hwritten eq_refl), insert_empty.
  f_equal.
Defined.


(** A login request on a server without a secret. *)
Lemma login_checks_secret_per_request_witness :
  json Sample.login_request
  = Returns (mkLoginRequest (Some "ada@example.org") (Some "correct horse"))
  ∧ JS.truthy "ada@example.org" = true
  ∧ JS.truthy "correct horse" = true
  ∧ LoginRoute.POST Sample.findUserByEmail Sample.verifyPassword
      Sample.createAccessToken Sample.createRefreshToken
      Sample.updateUserLastLogin Sample.no_secret Sample.login_request
    = LoginRoute.configuration_error.
Proof.
  split_and!; [reflexivity | reflexivity | reflexivity |].
  exact (proj2 (login_checks_secret_per_request Sample.findUserByEmail
                  Sample.verifyPassword Sample.createAccessToken
                  Sample.createRefreshToken Sample.updateUserLastLogin
                  Sample.no_secret Sample.login_request
                  (mkLoginRequest (Some "ada@example.org") (Some "correct horse"))
                  "ada@example.org" "correct horse"
                  eq_refl eq_refl eq_refl eq_refl eq_refl)).
Defined.

(** * Further properties of the middleware *)

(** ** The sweep *)

Lemma cleanup_lookup_Some t (store : gmap string RateRecord) k r :
  cleanupExpiredEntries t store !! k = Some r
  ↔ store !! k = Some r ∧ t ≤ resetTime r.
Proof.
  rewrite cleanup_lookup. unfold expired.
  destruct (store !! k) as [r'|]; [|split; [done | by intros [? _]]].
  destruct (resetTime r' <? t) eqn:E.
  - apply Z.ltb_lt in E. split; [done|]. intros [Heq ?].
    injection Heq as ->. lia.
  - apply Z.ltb_ge in E. split.
    + intros Heq. injection Heq as ->. done.
    + by intros [? _].
Qed.

(** X1. The sweep keeps exactly the records whose window is not over at
    its clock reading, unchanged, and adds none; two sweeps in a row are
    one sweep at the later of the two readings. *)
Theorem cleanup_keeps_live_and_composes t1 t2 (store : gmap string RateRecord) :
  (∀ k r, cleanupExpiredEntries t1 store !! k = Some r
          ↔ store !! k = Some r ∧ t1 ≤ resetTime r)
  ∧ cleanupExpiredEntries t1 (cleanupExpiredEntries t2 store)
    = cleanupExpiredEntries (Z.max t1 t2) store.
Proof.
  split; [intros k r; apply cleanup_lookup_Some|].
  apply map_eq. intros k. apply option_eq. intros r.
  rewrite !cleanup_lookup_Some. split.
  - intros [[? ?] ?]. split; [done | lia].
  - intros [? ?]. split_and!; [done | lia | lia].
Qed.

(** ** A sweep cannot be observed *)

Lemma same_live_cleanup t (store : gmap string RateRecord) :
  Runs.same_live_records t (cleanupExpiredEntries t store) store.
Proof.
  intros k. rewrite cleanup_lookup. unfold expired.
  destruct (store !! k) as [r|]; [|by left].
  destruct (resetTime r <? t) eqn:E; [|by left].
  right. split; [done|]. exists r. split; [done|]. by apply Z.ltb_lt.
Qed.

Lemma same_live_refl t (store : gmap string RateRecord) :
  Runs.same_live_records t store store.
Proof. intros k. by left. Qed.

Lemma same_live_insert t (s1 s2 : gmap string RateRecord) k x :
  Runs.same_live_records t s1 s2 →
  Runs.same_live_records t (<[k := x]> s1) (<[k := x]> s2).
Proof.
  intros H k'. destruct (decide (k = k')) as [->|Hne].
  - rewrite !lookup_insert_eq. by left.
  - rewrite !lookup_insert_ne by done. apply H.
Qed.

Lemma same_live_maybe_cleanup t sweep (s1 s2 : gmap string RateRecord) :
  Runs.same_live_records t s1 s2 →
  Runs.same_live_records t (maybe_cleanup sweep s1) (maybe_cleanup sweep s2).
Proof.
  intros H. destruct sweep as [t'|]; simpl; [|done].
  intros k. rewrite !cleanup_lookup.
  destruct (H k) as [->|(-> & r & -> & Hr)]; [by left|].
  destruct (expired t' r); [by left|].
  right. split; [done|]. by exists r.
Qed.

Lemma invoke_same_live t c (s1 s2 : gmap string RateRecord) :
  Runs.same_live_records t s1 s2 →
  t ≤ call_now c →
  (invoke c s1).1 = (invoke c s2).1
  ∧ Runs.same_live_records t (invoke c s1).2 (invoke c s2).2.
Proof.
  intros H Ht. unfold invoke, rateLimit.
  destruct (resolveUserId (call_getUserId c) (call_request c)) as [userId|];
    [|done].
  set (key := request_key (call_request c) userId).
  pose proof (same_live_maybe_cleanup t (call_sweep c) s1 s2 H) as Hswept.
  destruct (H key) as [->|(-> & r & -> & Hr)].
  - destruct (s2 !! key) as [r|]; simpl.
    + destruct (expired (call_now c) r); simpl;
        [split; [done | by apply same_live_insert]|].
      destruct (maxRequests (call_config c) <=? count r); simpl;
        [done | split; [done | by apply same_live_insert]].
    + split; [done | by apply same_live_insert].
  - unfold expired. rewrite (proj2 (Z.ltb_lt (resetTime r) (call_now c)))
      by lia.
    simpl. split; [done | by apply same_live_insert].
Qed.

Lemma serve_fst_cons c calls (store : gmap string RateRecord) :
  (serve (c :: calls) store).1
  = (invoke c store).1 :: (serve calls (invoke c store).2).1.
Proof.
  simpl. destruct (invoke c store) as [r s1]. simpl.
  by destruct (serve calls s1).
Qed.

Lemma serve_same_live t calls (s1 s2 : gmap string RateRecord) :
  Runs.same_live_records t s1 s2 →
  Forall (λ c, t ≤ call_now c) calls →
  (serve calls s1).1 = (serve calls s2).1
  ∧ Runs.same_live_records t (serve calls s1).2 (serve calls s2).2.
Proof.
  revert s1 s2. induction calls as [|c calls IH]; intros s1 s2 H Hall; [done|].
  apply Forall_cons in Hall as [Ht Hall].
  destruct (invoke_same_live t c s1 s2 H Ht) as [Hr Hs].
  destruct (IH _ _ Hs Hall) as [Hrs Hss].
  rewrite !serve_fst_cons, !serve_cons. rewrite Hr, Hrs. done.
Qed.

(** X2. Sweeping the store at a clock reading changes nothing that later
    requests can see: every sequence of calls whose clock readings are not
    before the sweep's gets the same responses on the swept store as on
    the unswept one, and the two stores still hold the same live records
    afterwards. *)
Theorem sweep_not_observable t calls (store : gmap string RateRecord) :
  Forall (λ c, t ≤ call_now c) calls →
  (serve calls (cleanupExpiredEntries t store)).1 = (serve calls store).1
  ∧ Runs.same_live_records t
      (serve calls (cleanupExpiredEntries t store)).2 (serve calls store).2.
Proof. intros Hall. apply serve_same_live; [apply same_live_cleanup | done]. Qed.

(** ** A whole window, for any ceiling *)

Section Window.

Variable config : RateLimitConfig.
Variable getUserId : option (NextRequest → Completion (option string)).
Variable request : NextRequest.
Variable handler : NextRequest → Completion NextResponse.
Variable userId : option string.
Hypothesis resolved : resolveUserId getUserId request = Returns userId.

Let key := request_key request userId.





End Window.

(** ** What a call costs, and when to come back *)

(** X4. The record that a call writes does not depend on what the handler
    does: a request whose handler fails is counted like one whose handler
    succeeds. A failure to identify the user, in contrast, is not counted:
    the call fails and the store is as it was. *)
Theorem failed_request_is_counted
    config getUserId request handler now sweep (store : gmap string RateRecord) :
  (rateLimit config getUserId request handler now sweep store).2
  = (rateLimit config getUserId request (λ _, Throws) now sweep store).2
  ∧ (resolveUserId getUserId request = Throws →
     rateLimit config getUserId request handler now sweep store = (Throws, store))
  ∧ (∀ userId r,
        resolveUserId getUserId request = Returns userId →
        store !! request_key request userId = Some r →
        now ≤ resetTime r → count r < maxRequests config →
        handler request = Throws →
        rateLimit config getUserId request handler now sweep store
        = (Throws,
           <[request_key request userId := mkRecord (count r + 1) (resetTime r)]>
             (maybe_cleanup sweep store))).
Proof.
  split_and!.
  - unfold rateLimit.
    destruct (resolveUserId getUserId request) as [userId|]; [|done].
    destruct (store !! request_key request userId) as [r|]; [|done].
    destruct (expired now r); [done|].
    by destruct (maxRequests config <=? count r).
  - apply rateLimit_unresolved.
  - intros userId r Hres Hk Hnow Hc Hthrow.
    rewrite (rateLimit_counted config _ _ _ userId Hres now sweep store r Hk Hnow Hc).
    by rewrite Hthrow.
Qed.

(** X5. The retry delay of a denial is the least whole number of seconds
    that reaches the end of the window, and a client that comes back
    later than that is let in: its call opens a fresh window. *)
Theorem retry_after_is_enough
    config getUserId request handler userId now sweep now' sweep'
    (store : gmap string RateRecord) r :
  let retryAfter := JS.Math_ceil_div (resetTime r - now) 1000 in
  resolveUserId getUserId request = Returns userId →
  store !! request_key request userId = Some r →
  now ≤ resetTime r →
  maxRequests config ≤ count r →
  now + 1000 * retryAfter < now' →
  let out :=
    serve (Runs.calls_at config getUserId request handler
             [(now, sweep); (now', sweep')]) store in
  out.1 = [Returns (denyResponse config r now);
           decorate (handler request) (maxRequests config)
             (maxRequests config - 1) (now' + windowMs config)]
  ∧ Headers.get (res_headers (denyResponse config r now)) "Retry-After"
    = Some (JS.String_ retryAfter)
  ∧ 0 ≤ retryAfter
  ∧ 1000 * (retryAfter - 1) < resetTime r - now ≤ 1000 * retryAfter
  ∧ out.2 !! request_key request userId
    = Some (mkRecord 1 (now' + windowMs config)).
Proof.
  intros retryAfter Hres Hk Hnow Hc Hlater out. subst out.
  pose proof (Math_ceil_div_bounds (resetTime r - now) 1000 ltac:(lia)) as Hb.
  fold retryAfter in Hb.
  unfold Runs.calls_at, serve, invoke. simpl.
  rewrite (rateLimit_exceeded config _ _ _ userId Hres now sweep store r Hk Hnow Hc).
  rewrite (rateLimit_opens config _ _ _ userId now' sweep' _ Hres).
  - simpl.
    split_and!;
      first [ apply denyResponse_retry_after | apply lookup_insert_eq
            | lia | done ].
  - intros r' Hr'. apply maybe_cleanup_Some in Hr'.
    rewrite Hk in Hr'. injection Hr' as <-. lia.
Qed.

(** ** Client keys *)

Lemma or_else_nonempty a b : b ≠ EmptyString → JS.or_else a b ≠ EmptyString.
Proof. intros Hb. by destruct a as [[|c s]|]. Qed.

(** X6. The client id is never empty, and the id of an identified user is
    "user:" followed by the user id whatever the headers say. *)
Theorem client_id_nonempty_user_first (request : NextRequest) userId :
  getClientId request userId ≠ EmptyString
  ∧ (∀ u, userId = Some u → u ≠ EmptyString →
          getClientId request userId = "user:" +:+ u).
Proof.
  split.
  - unfold getClientId.
    destruct (JS.truthy (default EmptyString userId)); [done|].
    by do 3 apply or_else_nonempty.
  - intros u -> Hu. unfold getClientId. by destruct u.
Qed.

(** X7. On one path, calls of clients with different ids never touch each
    other's records: apart from the sweep, the record of the other client
    is what it was. *)
Theorem other_client_untouched
    config getUserId request handler userId now sweep
    (store : gmap string RateRecord) (other : NextRequest) otherId :
  resolveUserId getUserId request = Returns userId →
  pathname other = pathname request →
  getClientId other otherId ≠ getClientId request userId →
  request_key other otherId ≠ request_key request userId
  ∧ (rateLimit config getUserId request handler now sweep store).2
      !! request_key other otherId
    = maybe_cleanup sweep store !! request_key other otherId.
Proof.
  intros Hres Hpath Hid.
  assert (Hne : request_key other otherId ≠ request_key request userId).
  { unfold request_key. rewrite Hpath. intros Heq.
    apply (inj (String.app (pathname request))) in Heq.
    apply (inj (String.app ":")) in Heq. done. }
  split; [done|]. by apply (rateLimit_other_key _ _ _ _ userId).
Qed.

(** X8. A request without user identity whose forwarded-for header opens
    with "user:" and a user id is keyed like that user: on the same path
    both share one record. *)
Theorem forwarded_for_can_name_a_user
    (request identified : NextRequest) f u :
  u ≠ EmptyString →
  Headers.get (headers request) "x-forwarded-for" = Some f →
  JS.trim (ClientKeySpec.before_comma f) = "user:" +:+ u →
  pathname request = pathname identified →
  request_key request None = request_key identified (Some u).
Proof.
  intros Hu Hf Htrim Hpath. unfold request_key. rewrite Hpath. do 2 f_equal.
  unfold getClientId. simpl. rewrite Hf.
  destruct (split_comma_head f) as [rest ->]. rewrite Htrim.
  by destruct u.
Qed.

(** X9. Decorating a response changes nothing but the three rate limit
    headers: status, body, cookies and every other header are the
    handler's. *)
Theorem decorate_keeps_response r limit remaining reset response :
  decorate r limit remaining reset = Returns response →
  ∃ inner,
    r = Returns inner
    ∧ status response = status inner
    ∧ body response = body inner
    ∧ res_cookies response = res_cookies inner
    ∧ ∀ name,
        JS.toLowerCase name ≠ "x-ratelimit-limit" →
        JS.toLowerCase name ≠ "x-ratelimit-remaining" →
        JS.toLowerCase name ≠ "x-ratelimit-reset" →
        Headers.get (res_headers response) name
        = Headers.get (res_headers inner) name.
Proof.
  intros (inner & -> & ->)%decorate_Returns. exists inner.
  split_and!; try done.
  intros name H1 H2 H3. unfold addRateLimitHeaders.
  rewrite !header_set_ne; [done|..]; intros Heq;
    first [ by apply H1; rewrite <- Heq | by apply H2; rewrite <- Heq
          | by apply H3; rewrite <- Heq ].
Qed.

(** * Further properties of the storage utility *)

(** ** Strings *)

Lemma append_cons a (s t : string) : String a s +:+ t = String a (s +:+ t).
Proof. reflexivity. Qed.

Lemma append_assoc (a b c : string) : (a +:+ b) +:+ c = a +:+ (b +:+ c).
Proof.
  induction a as [|x a IH]; [reflexivity|].
  rewrite !append_cons. by rewrite IH.
Qed.

Lemma append_nonempty_r (a b : string) : b ≠ EmptyString → a +:+ b ≠ EmptyString.
Proof. intros Hb. destruct a; [done|]. by rewrite append_cons. Qed.

Lemma append_nonempty_l (a b : string) : a ≠ EmptyString → a +:+ b ≠ EmptyString.
Proof. intros Ha. destruct a; [done|]. by rewrite append_cons. Qed.

Lemma truthy_true (s : string) : s ≠ EmptyString → JS.truthy s = true.
Proof. by destruct s. Qed.

Lemma append_length (a b : string) :
  String.length (a +:+ b) = (String.length a + String.length b)%nat.
Proof.
  induction a as [|x a IH]; [reflexivity|].
  rewrite append_cons. simpl. by rewrite IH.
Qed.

(** Two strings with prefixes of the same length. *)
Lemma append_inj_length (a1 a2 b1 b2 : string) :
  String.length a1 = String.length a2 →
  a1 +:+ b1 = a2 +:+ b2 → a1 = a2 ∧ b1 = b2.
Proof.
  revert a2. induction a1 as [|x a1 IH]; intros [|y a2] Hlen Heq;
    try discriminate.
  - done.
  - rewrite !append_cons in Heq. injection Heq as -> Heq.
    destruct (IH a2) as [-> ->]; [by injection Hlen | done | done].
Qed.

Lemma strip_prefix_append (p s : string) :
  LocalFiles.strip_prefix p (p +:+ s) = Some s.
Proof.
  induction p as [|a p IH]; [reflexivity|].
  rewrite append_cons. simpl. by rewrite bool_decide_eq_true_2.
Qed.

Lemma strip_prefix_Some (p s rest : string) :
  LocalFiles.strip_prefix p s = Some rest → s = p +:+ rest.
Proof.
  revert s. induction p as [|a p IH]; intros s; simpl.
  - by intros [= ->].
  - destruct s as [|b s]; [discriminate|].
    case_bool_decide as Hab; [|discriminate]. subst b.
    intros H%IH. by rewrite H.
Qed.

Lemma startsWith_append (p s : string) : LocalFiles.startsWith (p +:+ s) p = true.
Proof.
  unfold LocalFiles.startsWith. rewrite strip_prefix_append.
  by apply bool_decide_eq_true_2.
Qed.

Lemma startsWith_true (s p : string) :
  LocalFiles.startsWith s p = true ↔ ∃ rest, s = p +:+ rest.
Proof.
  unfold LocalFiles.startsWith. rewrite bool_decide_eq_true. split.
  - intros [rest H]. exists rest. by apply strip_prefix_Some.
  - intros [rest ->]. rewrite strip_prefix_append. by eexists.
Qed.

Lemma relativePath_uploads (rel : string) :
  LocalFiles.relativePath ("/uploads/" +:+ rel) = rel.
Proof. unfold LocalFiles.relativePath. by rewrite strip_prefix_append. Qed.

(** ** Joining paths *)

Lemma join_nested normalize (a b c : string) :
  b ≠ EmptyString → c ≠ EmptyString →
  Path.join normalize [a; b +:+ "/" +:+ c] = Path.join normalize [a; b; c].
Proof.
  intros Hb Hc. unfold Path.join, Path.join_step. simpl.
  rewrite (truthy_true (b +:+ "/" +:+ c)) by by apply append_nonempty_l.
  rewrite (truthy_true b), (truthy_true c) by done.
  destruct (JS.truthy a); [|done].
  by rewrite !append_assoc.
Qed.

Lemma typeDir_nonempty type : Storage.typeDir type ≠ EmptyString.
Proof. by destruct type. Qed.

Lemma uniqueFileName_nonempty userId timestamp randomId extension :
  Storage.uniqueFileName userId timestamp randomId extension ≠ EmptyString.
Proof.
  unfold Storage.uniqueFileName. apply append_nonempty_r.
  by apply append_nonempty_l.
Qed.

Section LocalFilesProps.

Variable normalize : string → string.
Variable extname : string → string.
Variable basename : string → string → string.
Variable writable : string → bool.
Variable permitted : string → bool.
Variable cwd : string.

Local Abbreviation uploadFileLocally :=
  (Storage.uploadFileLocally extname basename (Path.join normalize) writable cwd).
Local Abbreviation filePath := (LocalFiles.filePath normalize cwd).
Local Abbreviation readFileLocally :=
  (LocalFiles.readFileLocally normalize permitted cwd).
Local Abbreviation fileExistsLocally :=
  (LocalFiles.fileExistsLocally normalize permitted cwd).
Local Abbreviation getFileSize := (LocalFiles.getFileSize normalize permitted cwd).
Local Abbreviation deleteFileLocally :=
  (LocalFiles.deleteFileLocally normalize permitted cwd).

(** The URL that an upload returns leads back to the path it wrote. *)
Lemma upload_url_path fileBuffer fileName userId type timestamp random
    (disk disk' : Storage.Disk) url :
  uploadFileLocally fileBuffer fileName userId type timestamp random disk
  = (Returns url, disk') →
  url = "/uploads/" +:+ Storage.typeDir type +:+ "/"
        +:+ Storage.uniqueFileName userId timestamp
              (Storage.toString_hex random) (extname fileName)
  ∧ disk' = <[filePath url := fileBuffer]> disk.
Proof.
  rewrite uploadFileLocally_outcome.
  fold (Storage.uniqueFileName userId timestamp (Storage.toString_hex random)
          (extname fileName)).
  set (name := Storage.uniqueFileName _ _ _ _).
  destruct (writable _); [|discriminate].
  intros [= <- <-]. split; [done|]. f_equal.
  unfold LocalFiles.filePath. rewrite relativePath_uploads.
  rewrite join_nested;
    [done | apply typeDir_nonempty | apply uniqueFileName_nonempty].
Qed.

(** X10. What was uploaded can be read back: after an upload that
    returned a URL, and when the file system permits, reading that URL
    gives the uploaded bytes, the file is reported to exist, and its size
    is the number of bytes uploaded. *)
Theorem read_back_what_was_uploaded
    fileBuffer fileName userId type timestamp random
    (disk disk' : Storage.Disk) url :
  uploadFileLocally fileBuffer fileName userId type timestamp random disk
  = (Returns url, disk') →
  permitted (filePath url) = true →
  readFileLocally url disk' = Returns fileBuffer
  ∧ fileExistsLocally url disk' = true
  ∧ getFileSize url disk' = Returns (Z.of_nat (length fileBuffer)).
Proof.
  intros [_ ->]%upload_url_path Hperm.
  unfold LocalFiles.readFileLocally, LocalFiles.fileExistsLocally,
    LocalFiles.getFileSize, LocalFiles.readFile, LocalFiles.access,
    LocalFiles.stat_size.
  rewrite lookup_insert_eq, Hperm. done.
Qed.

(** X11. Deleting never fails and touches one path only. When the file
    system permits the removal, deleting the URL of an upload removes what
    the upload wrote: the disk is the one before the upload, less whatever
    file was at that path, and exactly the one before when the path was
    free. When the file system refuses the removal, the error is dropped
    and the uploaded file stays. *)
Theorem delete_undoes_upload
    fileBuffer fileName userId type timestamp random
    (disk disk' : Storage.Disk) url :
  uploadFileLocally fileBuffer fileName userId type timestamp random disk
  = (Returns url, disk') →
  (permitted (filePath url) = true →
   deleteFileLocally url disk' = delete (filePath url) disk
   ∧ (disk !! filePath url = None → deleteFileLocally url disk' = disk))
  ∧ (permitted (filePath url) = false →
     deleteFileLocally url disk' = disk'
     ∧ disk' !! filePath url = Some fileBuffer)
  ∧ (∀ anyUrl (anyDisk : Storage.Disk) p,
        p ≠ filePath anyUrl →
        deleteFileLocally anyUrl anyDisk !! p = anyDisk !! p).
Proof.
  intros [_ ->]%upload_url_path.
  split_and!.
  - intros Hperm.
    assert (Hdel : deleteFileLocally url (<[filePath url := fileBuffer]> disk)
                   = delete (filePath url) disk).
    { unfold LocalFiles.deleteFileLocally, LocalFiles.unlink.
      rewrite lookup_insert_eq, Hperm. simpl. apply delete_insert_eq. }
    split; [exact Hdel|].
    intros Hfree. rewrite Hdel. by apply delete_id.
  - intros Hperm. split; [|apply lookup_insert_eq].
    unfold LocalFiles.deleteFileLocally, LocalFiles.unlink.
    by rewrite lookup_insert_eq, Hperm.
  - intros anyUrl anyDisk p Hp.
    unfold LocalFiles.deleteFileLocally, LocalFiles.unlink.
    destruct (anyDisk !! LocalFiles.filePath normalize cwd anyUrl); [|done].
    destruct (permitted (LocalFiles.filePath normalize cwd anyUrl)); [|done].
    cbn [snd]. by rewrite lookup_delete_ne.
Qed.

End LocalFilesProps.

(** ** Stored names do not collide *)

Lemma split_at_first c (s1 s2 x1 x2 : string) :
  Text.free_of c s1 → Text.free_of c s2 →
  s1 +:+ String c x1 = s2 +:+ String c x2 → s1 = s2 ∧ x1 = x2.
Proof.
  revert s2. induction s1 as [|a s1 IH]; intros [|b s2] H1 H2 Heq.
  - by injection Heq.
  - rewrite append_cons in Heq. injection Heq as <- _. by destruct H2.
  - rewrite append_cons in Heq. injection Heq as -> _. by destruct H1.
  - rewrite !append_cons in Heq. injection Heq as -> Heq.
    destruct H1 as [_ H1], H2 as [_ H2].
    destruct (IH s2 H1 H2 Heq) as [-> ->]. done.
Qed.

Lemma pretty_N_char_not_underscore x : pretty_N_char x ≠ "_"%char.
Proof. unfold pretty_N_char. by repeat case_match. Qed.

Lemma pretty_N_go_free x s :
  Text.free_of "_" s → Text.free_of "_" (pretty_N_go x s).
Proof.
  revert s. induction (N.lt_wf_0 x) as [x _ IH]; intros s Hs.
  destruct (decide (x = 0%N)) as [->|Hx]; [by rewrite pretty_N_go_0|].
  rewrite pretty_N_go_step by lia. apply IH.
  - apply N.div_lt; lia.
  - split; [apply pretty_N_char_not_underscore | done].
Qed.

Lemma pretty_N_free (x : N) : Text.free_of "_" (pretty x).
Proof.
  unfold pretty, pretty_N. case_decide; [by split|].
  by apply pretty_N_go_free.
Qed.

Lemma String_free (z : Z) : Text.free_of "_" (JS.String_ z).
Proof.
  unfold JS.String_, pretty, pretty_Z. destruct z as [|p|p].
  - by split.
  - apply pretty_N_free.
  - rewrite append_cons. split; [done|]. apply pretty_N_free.
Qed.

Lemma hex_digit_code (n : N) :
  (n < 16)%N →
  Ascii.N_of_ascii (Storage.hex_digit n)
  = if (n <? 10)%N then (48 + n)%N else (87 + n)%N.
Proof.
  intros Hn. unfold Storage.hex_digit.
  destruct (n <? 10)%N; apply Ascii.N_ascii_embedding; lia.
Qed.

Lemma hex_digit_inj (n m : N) :
  (n < 16)%N → (m < 16)%N → Storage.hex_digit n = Storage.hex_digit m → n = m.
Proof.
  intros Hn Hm Heq. apply (f_equal Ascii.N_of_ascii) in Heq.
  rewrite !hex_digit_code in Heq by done.
  destruct (n <? 10)%N eqn:En, (m <? 10)%N eqn:Em;
    rewrite ?N.ltb_lt, ?N.ltb_ge in *; lia.
Qed.

Lemma byte_to_N_bound (b : Byte.byte) : (Byte.to_N b < 256)%N.
Proof. by destruct b. Qed.

Lemma byte_to_N_inj (b1 b2 : Byte.byte) : Byte.to_N b1 = Byte.to_N b2 → b1 = b2.
Proof.
  intros Heq. pose proof (Byte.of_to_N b1) as H1.
  rewrite Heq, Byte.of_to_N in H1. by injection H1.
Qed.

Lemma hex_byte_inj (b1 b2 : Byte.byte) :
  Storage.hex_byte b1 = Storage.hex_byte b2 → b1 = b2.
Proof.
  unfold Storage.hex_byte. intros [= Hhi Hlo].
  pose proof (byte_to_N_bound b1). pose proof (byte_to_N_bound b2).
  apply hex_digit_inj in Hhi;
    [|apply N.Div0.div_lt_upper_bound; lia..].
  apply hex_digit_inj in Hlo; [|apply N.mod_lt; lia..].
  apply byte_to_N_inj.
  rewrite (N.div_mod (Byte.to_N b1) 16), (N.div_mod (Byte.to_N b2) 16) by lia.
  lia.
Qed.

Lemma toString_hex_length (buffer : list Byte.byte) :
  String.length (Storage.toString_hex buffer) = (2 * length buffer)%nat.
Proof.
  induction buffer as [|b buffer IH]; [reflexivity|].
  cbn [Storage.toString_hex]. rewrite append_length, IH. simpl. lia.
Qed.

Lemma toString_hex_inj (b1 b2 : list Byte.byte) :
  Storage.toString_hex b1 = Storage.toString_hex b2 → b1 = b2.
Proof.
  revert b2. induction b1 as [|x b1 IH]; intros [|y b2] Heq; try done.
  cbn [Storage.toString_hex] in Heq.
  apply append_inj_length in Heq as [Hx Hrest]; [|reflexivity].
  apply hex_byte_inj in Hx as ->. by rewrite (IH b2 Hrest).
Qed.

Lemma uniqueFileName_inj userId t1 t2 (r1 r2 : list Byte.byte) (e1 e2 : string) :
  length r1 = length r2 →
  Storage.uniqueFileName userId t1 (Storage.toString_hex r1) e1
  = Storage.uniqueFileName userId t2 (Storage.toString_hex r2) e2 →
  t1 = t2 ∧ r1 = r2 ∧ e1 = e2.
Proof.
  intros Hlen Heq. unfold Storage.uniqueFileName in Heq.
  apply (inj (String.app userId)) in Heq.
  apply (inj (String.app "_")) in Heq.
  apply split_at_first in Heq as [Ht Heq]; [|apply String_free..].
  apply (inj JS.String_) in Ht as ->.
  apply append_inj_length in Heq as [Hr He];
    [|by rewrite !toString_hex_length, Hlen].
  apply toString_hex_inj in Hr. done.
Qed.

Section Collisions.

Variable extname : string → string.
Variable basename : string → string → string.
Variable join : list string → string.
Variable writable : string → bool.
Variable cwd : string.

Local Abbreviation uploadFileLocally :=
  (Storage.uploadFileLocally extname basename join writable cwd).

(** X12. Stored names of one owner do not collide by accident: when two
    uploads of the same owner, each with its eight random bytes, return
    the same URL, they were of the same kind, read the same clock value,
    drew the same random bytes and had the same extension. *)
Theorem same_url_same_draw
    userId buffer1 buffer2 name1 name2 type1 type2 t1 t2 random1 random2
    (disk1 disk2 disk1' disk2' : Storage.Disk) url :
  length random1 = 8%nat → length random2 = 8%nat →
  uploadFileLocally buffer1 name1 userId type1 t1 random1 disk1
  = (Returns url, disk1') →
  uploadFileLocally buffer2 name2 userId type2 t2 random2 disk2
  = (Returns url, disk2') →
  type1 = type2 ∧ t1 = t2 ∧ random1 = random2
  ∧ extname name1 = extname name2.
Proof.
  intros Hl1 Hl2. rewrite !uploadFileLocally_outcome.
  destruct (writable _); [|discriminate]. intros [= <- _].
  destruct (writable _); [|discriminate]. intros Heq.
  apply (f_equal fst) in Heq. cbn [fst] in Heq.
  assert (Hurl : ∀ a b : string, Returns a = Returns b → a = b)
    by (by intros a b [= ->]).
  apply Hurl in Heq. clear Hurl.
  apply (inj (String.app "/uploads/")) in Heq.
  assert (type2 = type1 ∧
          Storage.uniqueFileName userId t2 (Storage.toString_hex random2)
            (extname name2)
          = Storage.uniqueFileName userId t1 (Storage.toString_hex random1)
              (extname name1)) as [-> Hname].
  { unfold Storage.uniqueFileName.
    destruct type1, type2; try discriminate; split; try done;
      by apply (inj (String.app _)) in Heq; apply (inj (String.app "/")) in Heq. }
  apply uniqueFileName_inj in Hname as (-> & -> & ->); [done | congruence].
Qed.

End Collisions.

(** ** Listing the files of a user *)

Lemma listUserFiles_elem userId type files url :
  url ∈ LocalFiles.listUserFiles userId type (Returns files)
  ↔ ∃ file, file ∈ files
            ∧ LocalFiles.startsWith file (userId +:+ "_") = true
            ∧ url = "/uploads/" +:+ Storage.typeDir type +:+ "/" +:+ file.
Proof.
  unfold LocalFiles.listUserFiles. rewrite list_elem_of_In, in_map_iff.
  split.
  - intros (file & <- & Hin). apply list_elem_of_In, list_elem_of_filter in Hin.
    destruct Hin as [Hp Hin]. by exists file.
  - intros (file & Hin & Hp & ->). exists file. split; [done|].
    apply list_elem_of_In, list_elem_of_filter. done.
Qed.

(** X13. The listing of a user holds exactly the directory entries that
    start with the user id and an underscore, as URLs of the kind's
    directory, whatever the directory holds; a failing directory read
    gives the empty listing; and every URL that an upload returned for
    this user is listed once the directory holds the stored name. *)
Theorem listing_holds_own_uploads
    extname basename join writable cwd userId type files :
  (∀ listed,
      listed ∈ LocalFiles.listUserFiles userId type (Returns files)
      ↔ ∃ file, file ∈ files
                ∧ (∃ rest, file = userId +:+ "_" +:+ rest)
                ∧ listed = "/uploads/" +:+ Storage.typeDir type +:+ "/" +:+ file)
  ∧ LocalFiles.listUserFiles userId type Throws = []
  ∧ (∀ fileBuffer fileName timestamp random (disk disk' : Storage.Disk) url,
        Storage.uploadFileLocally extname basename join writable cwd
          fileBuffer fileName userId type timestamp random disk
        = (Returns url, disk') →
        Storage.uniqueFileName userId timestamp (Storage.toString_hex random)
          (extname fileName) ∈ files →
        url ∈ LocalFiles.listUserFiles userId type (Returns files)).
Proof.
  split_and!; [|done|].
  - intros listed. rewrite listUserFiles_elem.
    split; intros (file & Hf & Hp & ->); exists file; split_and!; try done.
    + apply startsWith_true in Hp as [rest ->]. exists rest.
      by rewrite append_assoc.
    + destruct Hp as [rest ->]. rewrite <- append_assoc. apply startsWith_append.
  - intros fileBuffer fileName timestamp random disk disk' url.
    rewrite uploadFileLocally_outcome.
    destruct (writable _); [|discriminate]. intros [= <- _] Hin.
    apply listUserFiles_elem. eexists. split; [exact Hin|]. split; [|done].
    unfold Storage.uniqueFileName. rewrite <- append_assoc.
    apply startsWith_append.
Qed.

(** X14. The listing goes by prefix: the files of a user whose id is this
    user's id, an underscore and more are listed for this user too. *)
Theorem listing_includes_longer_ids
    userId suffix type files timestamp randomId extension :
  Storage.uniqueFileName (userId +:+ "_" +:+ suffix) timestamp randomId extension
    ∈ files →
  "/uploads/" +:+ Storage.typeDir type +:+ "/"
    +:+ Storage.uniqueFileName (userId +:+ "_" +:+ suffix) timestamp
          randomId extension
  ∈ LocalFiles.listUserFiles userId type (Returns files).
Proof.
  intros Hin. apply listUserFiles_elem. eexists. split; [exact Hin|].
  split; [|done]. unfold Storage.uniqueFileName.
  rewrite !append_assoc. rewrite <- (append_assoc userId "_").
  apply startsWith_append.
Qed.

(** * Further properties of the routes *)

Section PhotoMore.

Variable verifyAccessToken : string → Completion (option string).
Variable canUploadMorePhotos : string → Completion bool.
Variable createPortfolioPhoto :
  string → string → Completion PhotoRoute.PortfolioPhoto.
Variable listUserPortfolioPhotos : string → Completion (list Json).
Variable extname : string → string.
Variable basename : string → string → string.
Variable join : list string → string.
Variable writable : string → bool.
Variable cwd : string.

Local Abbreviation POST :=
  (PhotoRoute.POST verifyAccessToken canUploadMorePhotos createPortfolioPhoto
     extname basename join writable cwd).
Local Abbreviation store_photo :=
  (PhotoRoute.store_photo createPortfolioPhoto extname basename join writable cwd).
Local Abbreviation GET := (PhotoList.GET verifyAccessToken listUserPortfolioPhotos).

Lemma store_photo_outcomes file userId timestamp random (disk : Storage.Disk) :
  let out := store_photo file userId timestamp random disk in
  (status out.1 = 201 ∨ status out.1 = 500)
  ∧ (out.2 = disk ∨ ∃ path, out.2 = <[path := file_bytes file]> disk).
Proof.
  intros out. subst out. unfold PhotoRoute.store_photo.
  rewrite uploadFileLocally_outcome.
  destruct (writable _); [|by split; [right | left]].
  destruct (createPortfolioPhoto _ _);
    (split; [by (left + right) | right; by eexists]).
Qed.

(** X15. The upload route answers with one of the statuses 201, 400, 401,
    403 and 500. With 400, 401 and 403 the disk is as it was; in every
    case the disk is as it was or has gained, at one path, the bytes of
    the uploaded file and nothing else. *)
Theorem upload_statuses_and_disk request timestamp random (disk : Storage.Disk) :
  let out := POST request timestamp random disk in
  status out.1 ∈ [201; 400; 401; 403; 500]
  ∧ (status out.1 ≠ 201 → status out.1 ≠ 500 → out.2 = disk)
  ∧ (out.2 = disk
     ∨ ∃ file path, PhotoRoute.uploads request file
                    ∧ out.2 = <[path := file_bytes file]> disk).
Proof.
  clear listUserPortfolioPhotos.
  intros out. subst out. unfold PhotoRoute.POST.
  destruct (negb (JS.truthy (default EmptyString (cookies request !! "accessToken"))));
    [by split_and!; [set_solver | | left]|].
  destruct (verifyAccessToken _) as [userId|];
    [|by split_and!; [set_solver | | left]].
  destruct (negb (JS.truthy (default EmptyString userId)));
    [by split_and!; [set_solver | | left]|].
  destruct (canUploadMorePhotos _) as [canUpload|];
    [|by split_and!; [set_solver | | left]].
  destruct (negb canUpload); [by split_and!; [set_solver | | left]|].
  destruct (formData request) as [form|] eqn:Hform;
    [|by split_and!; [set_solver | | left]].
  destruct (form !! "photo") as [[file|[|c s]]|] eqn:Hphoto;
    try (by split_and!; [set_solver | | left]).
  destruct (negb (bool_decide (file_type file ∈ PhotoRoute.ALLOWED_TYPES)));
    [by split_and!; [set_solver | | left]|].
  destruct (PhotoRoute.MAX_FILE_SIZE <? file_size file);
    [by split_and!; [set_solver | | left]|].
  destruct (store_photo_outcomes file (default EmptyString userId) timestamp
              random disk) as [Hstatus Hdisk].
  split_and!.
  - destruct Hstatus as [-> | ->]; apply list_elem_of_In; cbn; tauto.
  - intros H1 H2. by destruct Hstatus.
  - destruct Hdisk as [->|[path ->]]; [by left|].
    right. exists file, path. split; [|done]. by exists form.
Qed.

(** X16. The file is written before the photo is recorded, and nothing
    takes it back: when the upload is accepted and written but recording
    the photo fails, the answer is 500 and the uploaded bytes stay on
    disk. *)
Theorem failed_record_leaves_file
    request userId file timestamp random (disk : Storage.Disk) :
  let name :=
    Storage.uniqueFileName userId timestamp (Storage.toString_hex random)
      (extname (file_name file)) in
  let filePath := join [Storage.UPLOAD_BASE_DIR join cwd; "photos"; name] in
  PhotoRoute.authenticated verifyAccessToken request userId →
  canUploadMorePhotos userId = Returns true →
  PhotoRoute.uploads request file →
  file_type file ∈ PhotoRoute.ALLOWED_TYPES →
  file_size file ≤ PhotoRoute.MAX_FILE_SIZE →
  writable filePath = true →
  createPortfolioPhoto userId ("/uploads/photos/" +:+ name) = Throws →
  let out := POST request timestamp random disk in
  out.1 = PhotoRoute.error_response "Internal server error" 500
  ∧ out.2 = <[filePath := file_bytes file]> disk.
Proof.
  intros name filePath Ha Hq Hu Hty Hsize Hw Hdb out. subst out.
  rewrite (POST_checked _ _ _ _ _ _ _ _ request userId file) by done.
  rewrite (proj2 (Z.ltb_ge _ _) Hsize).
  unfold PhotoRoute.store_photo. rewrite uploadFileLocally_outcome.
  simpl Storage.typeDir.
  fold (Storage.uniqueFileName userId timestamp (Storage.toString_hex random)
          (extname (file_name file))).
  fold name. fold filePath. rewrite Hw.
  change ("/uploads/" +:+ "photos" +:+ "/" +:+ name)
    with ("/uploads/photos/" +:+ name).
  by rewrite Hdb.
Qed.

Lemma POST_gate_passed request userId timestamp random (disk : Storage.Disk) :
  PhotoRoute.authenticated verifyAccessToken request userId →
  status (POST request timestamp random disk).1 ≠ 401.
Proof.
  intros (token & Hc & Ht & Hv & Hu). unfold PhotoRoute.POST.
  rewrite Hc. simpl. rewrite Ht. simpl. rewrite Hv. simpl. rewrite Hu. simpl.
  destruct (canUploadMorePhotos _) as [canUpload|]; [|done].
  destruct (negb canUpload); [done|].
  destruct (formData request) as [form|]; [|done].
  destruct (form !! "photo") as [[file|[|c s]]|]; try done.
  destruct (negb (bool_decide (file_type file ∈ PhotoRoute.ALLOWED_TYPES)));
    [done|].
  destruct (PhotoRoute.MAX_FILE_SIZE <? file_size file); [done|].
  destruct (store_photo_outcomes file userId timestamp random disk)
    as [[H|H] _]; rewrite H; done.
Qed.

Lemma GET_gate_passed request userId :
  PhotoRoute.authenticated verifyAccessToken request userId →
  status (GET request) ≠ 401.
Proof.
  intros (token & Hc & Ht & Hv & Hu). unfold PhotoList.GET.
  rewrite Hc. simpl. rewrite Ht. simpl. rewrite Hv. simpl. rewrite Hu. simpl.
  by destruct (listUserPortfolioPhotos _).
Qed.

(** X17. Listing and uploading sit behind the same gate: a request is
    turned away with 401 by the one exactly when it is by the other, and
    with the same response. *)
Theorem list_and_upload_same_gate request timestamp random (disk : Storage.Disk) :
  (status (GET request) = 401
   ↔ status (POST request timestamp random disk).1 = 401)
  ∧ (status (GET request) = 401 →
     GET request = (POST request timestamp random disk).1).
Proof.
  destruct (cookies request !! "accessToken") as [token|] eqn:Hc;
    [|by unfold PhotoList.GET, PhotoRoute.POST; rewrite Hc].
  destruct (JS.truthy token) eqn:Ht;
    [|by unfold PhotoList.GET, PhotoRoute.POST; rewrite Hc; simpl; rewrite Ht].
  destruct (verifyAccessToken token) as [[userId|]|] eqn:Hv;
    [|by unfold PhotoList.GET, PhotoRoute.POST; rewrite Hc; simpl; rewrite Ht;
         simpl; rewrite Hv..].
  destruct (JS.truthy userId) eqn:Hu;
    [|by unfold PhotoList.GET, PhotoRoute.POST; rewrite Hc; simpl; rewrite Ht;
         simpl; rewrite Hv; simpl; rewrite Hu].
  assert (Ha : PhotoRoute.authenticated verifyAccessToken request userId)
    by (by exists token).
  pose proof (GET_gate_passed request userId Ha) as Hget.
  pose proof (POST_gate_passed request userId timestamp random disk Ha) as Hpost.
  split; [split|]; intros H; first [by apply Hget in H | by apply Hpost in H].
Qed.

End PhotoMore.

Section LoginMore.

Variable findUserByEmail : string → Completion (option LoginRoute.User).
Variable verifyPassword : string → string → Completion bool.
Variable createAccessToken : string → string → string → Completion string.
Variable createRefreshToken : string → Completion string.
Variable updateUserLastLogin : string → Completion unit.

Local Abbreviation POST :=
  (LoginRoute.POST findUserByEmail verifyPassword createAccessToken
     createRefreshToken updateUserLastLogin).
Local Abbreviation authenticate :=
  (LoginRoute.authenticate findUserByEmail verifyPassword createAccessToken
     createRefreshToken updateUserLastLogin).
Local Abbreviation issue_session :=
  (LoginRoute.issue_session createAccessToken createRefreshToken
     updateUserLastLogin).

Lemma issue_session_outcomes env user :
  issue_session env user = LoginRoute.internal_error
  ∨ ∃ a r,
      createAccessToken (LoginRoute.user_id user) (LoginRoute.user_email user)
        (LoginRoute.role user) = Returns a
      ∧ createRefreshToken (LoginRoute.user_id user) = Returns r
      ∧ status (issue_session env user) = 200
      ∧ res_cookies (issue_session env user)
        = <["refreshToken" := LoginRoute.session_cookie env r 604800]>
            (<["accessToken" := LoginRoute.session_cookie env a 3600]> ∅).
Proof.
  unfold LoginRoute.issue_session.
  destruct (createAccessToken _ _ _) as [a|]; [|by left].
  destruct (createRefreshToken _) as [r|]; [|by left].
  destruct (updateUserLastLogin _); [|by left].
  right. by exists a, r.
Qed.

(** The answers of the route other than the session itself: none has
    status 200 and none sets a cookie. *)
Lemma login_outcomes env request :
  (status (POST env request) ≠ 200 ∧ status (POST env request) ≠ 403
   ∧ res_cookies (POST env request) = ∅)
  ∨ ∃ body e p user h,
      json request = Returns body
      ∧ email body = Some e ∧ password body = Some p
      ∧ JS.truthy (default EmptyString (LoginRoute.JWT_SECRET env)) = true
      ∧ findUserByEmail e = Returns (Some user)
      ∧ LoginRoute.passwordHash user = Some h
      ∧ verifyPassword p h = Returns true
      ∧ ((LoginRoute.isActive user = false
          ∧ POST env request
            = LoginRoute.error_response "Account is deactivated" 403)
         ∨ (LoginRoute.isActive user = true
            ∧ POST env request = issue_session env user)).
Proof.
  unfold LoginRoute.POST.
  destruct (json request) as [body|] eqn:Hj; [|by left].
  destruct (email body) as [e|] eqn:He; [|by left].
  destruct (password body) as [p|] eqn:Hp;
    [|by left; simpl; rewrite orb_true_r].
  simpl.
  destruct (JS.truthy e); [|by left].
  destruct (JS.truthy p); [|by left].
  simpl.
  destruct (JS.truthy (default EmptyString (LoginRoute.JWT_SECRET env))) eqn:Hs;
    [|by left].
  simpl. unfold LoginRoute.authenticate.
  destruct (findUserByEmail e) as [[user|]|] eqn:Hf; [|by left..].
  destruct (LoginRoute.passwordHash user) as [[|c h]|] eqn:Hh; [by left| |by left].
  destruct (verifyPassword p (String c h)) as [[|]|] eqn:Hv; [|by left..].
  simpl. right. exists body, e, p, user, (String c h).
  split_and!; try done.
  destruct (LoginRoute.isActive user); [by right | by left].
Qed.

(** X18. Session cookies are set only by a successful login: a response
    with a status other than 200 sets no cookie, and every cookie the
    route sets is HTTP-only, same-site lax, for the path "/", marked
    secure exactly in production, and is the access token with a life of
    one hour or the refresh token with a life of seven days. *)
Theorem cookies_only_on_success env request :
  let response := POST env request in
  (status response ≠ 200 → res_cookies response = ∅)
  ∧ (∀ name c,
        res_cookies response !! name = Some c →
        status response = 200
        ∧ httpOnly c = true ∧ sameSite c = "lax" ∧ cookie_path c = "/"
        ∧ (secure c = true ↔ LoginRoute.NODE_ENV env = Some "production")
        ∧ ((name = "accessToken" ∧ maxAge c = 3600)
           ∨ (name = "refreshToken" ∧ maxAge c = 604800))).
Proof.
  intros response. subst response.
  destruct (login_outcomes env request)
    as [(H200 & _ & Hnone)
       |(body & e & p & user & h & _ & _ & _ & _ & _ & _ & _ & Hout)].
  { split; [done|]. intros name c. by rewrite Hnone, lookup_empty. }
  destruct Hout as [[_ ->]|[_ ->]].
  { split; [done|]. intros name c. simpl. by rewrite lookup_empty. }
  destruct (issue_session_outcomes env user)
    as [->|(a & r & _ & _ & Hstatus & Hcookies)].
  { split; [done|]. intros name c. simpl. by rewrite lookup_empty. }
  split; [by rewrite Hstatus|].
  intros name c. rewrite Hcookies, Hstatus.
  destruct (decide (name = "refreshToken")) as [->|Hr].
  - rewrite lookup_insert_eq. intros [= <-]. simpl.
    split_and!; try done; [by rewrite bool_decide_eq_true | by right].
  - rewrite lookup_insert_ne by done.
    destruct (decide (name = "accessToken")) as [->|Ha].
    + rewrite lookup_insert_eq. intros [= <-]. simpl.
      split_and!; try done; [by rewrite bool_decide_eq_true | by left].
    + rewrite lookup_insert_ne by done. by rewrite lookup_empty.
Qed.

(** X19. A session is issued, and the state of an account disclosed, only
    to a caller whose password verified: a 200 response means the user
    was found, the password matched the stored hash, the account is
    active, the secret is set, and the cookies hold the tokens issued for
    that user; a 403 response means the password matched and the account
    is not active. *)
Theorem session_only_after_password env request :
  let response := POST env request in
  status response = 200 ∨ status response = 403 →
  ∃ body e p user h,
    json request = Returns body
    ∧ email body = Some e ∧ password body = Some p
    ∧ JS.truthy (default EmptyString (LoginRoute.JWT_SECRET env)) = true
    ∧ findUserByEmail e = Returns (Some user)
    ∧ LoginRoute.passwordHash user = Some h
    ∧ verifyPassword p h = Returns true
    ∧ (status response = 403 → LoginRoute.isActive user = false)
    ∧ (status response = 200 →
       LoginRoute.isActive user = true
       ∧ ∃ a r,
           createAccessToken (LoginRoute.user_id user)
             (LoginRoute.user_email user) (LoginRoute.role user) = Returns a
           ∧ createRefreshToken (LoginRoute.user_id user) = Returns r
           ∧ cookie_value <$> res_cookies response !! "accessToken" = Some a
           ∧ cookie_value <$> res_cookies response !! "refreshToken" = Some r).
Proof.
  intros response Hstatus. subst response.
  destruct (login_outcomes env request)
    as [(H200 & H403 & _)
       |(body & e & p & user & h & Hj & He & Hp & Hs & Hf & Hh & Hv & Hout)];
    [by destruct Hstatus|].
  exists body, e, p, user, h. split_and!; try done.
  - destruct Hout as [[Hi _]|[_ Heq]]; [done|].
    rewrite Heq. intros H403.
    destruct (issue_session_outcomes env user) as [Herr|(a & r & _ & _ & H200 & _)].
    + by rewrite Herr in H403.
    + by rewrite H200 in H403.
  - destruct Hout as [[_ Heq]|[Hi Heq]]; rewrite Heq; [done|].
    intros H200. split; [done|].
    destruct (issue_session_outcomes env user)
      as [Herr|(a & r & Ha & Hr & _ & Hcookies)].
    + by rewrite Herr in H200.
    + exists a, r. rewrite Hcookies. split_and!; done.
Qed.

(** X20. The route does not tell an unknown email from a wrong password:
    for a request with email, password and a configured secret, the
    answer is the same 401 "Invalid credentials" when no user has the
    email, when the user has no password hash, and when the password does
    not match, whether or not the account is active. *)
Theorem unknown_email_like_wrong_password env request body e p :
  json request = Returns body →
  email body = Some e → JS.truthy e = true →
  password body = Some p → JS.truthy p = true →
  JS.truthy (default EmptyString (LoginRoute.JWT_SECRET env)) = true →
  findUserByEmail e = Returns None
  ∨ (∃ user, findUserByEmail e = Returns (Some user)
             ∧ (JS.truthy (default EmptyString (LoginRoute.passwordHash user))
                = false
                ∨ ∃ h, LoginRoute.passwordHash user = Some h
                       ∧ verifyPassword p h = Returns false)) →
  POST env request = LoginRoute.error_response "Invalid credentials" 401.
Proof.
  intros Hj He Hte Hp Htp Hs Hcase.
  unfold LoginRoute.POST. rewrite Hj, He, Hp. simpl. rewrite Hte, Htp. simpl.
  rewrite Hs. simpl. unfold LoginRoute.authenticate.
  destruct Hcase as [->|(user & -> & Hcase)]; [done|].
  destruct Hcase as [Hh|(h & Hh & Hv)].
  - by destruct (LoginRoute.passwordHash user) as [[|c h]|].
  - rewrite Hh. destruct h as [|c h]; [done|]. by rewrite Hv.
Qed.

End LoginMore.

(** * The further properties at concrete inputs *)

Lemma cleanup_keeps_live_and_composes_witness :
  let store : gmap string RateRecord := {[ "k" := mkRecord 1 6 ]} in
  cleanupExpiredEntries 5 store !! "k" = Some (mkRecord 1 6)
  ∧ cleanupExpiredEntries 5 (cleanupExpiredEntries 7 store)
    = cleanupExpiredEntries (Z.max 5 7) store.
Proof.
  intros store.
  destruct (cleanup_keeps_live_and_composes 5 7 store) as [Hkeep Hcomp].
  split; [|exact Hcomp].
  apply Hkeep. split; [apply lookup_singleton_eq | simpl; lia].
Defined.

Lemma sweep_not_observable_witness :
  let calls :=
    Runs.calls_at Fixture.login_config None Sample.anonymous_request
      Sample.ok_handler [(950000, None); (950001, Some 950002)] in
  Forall (λ c, 901001 ≤ call_now c) calls
  ∧ (serve calls (cleanupExpiredEntries 901001 Fixture.full_store)).1
    = (serve calls Fixture.full_store).1.
Proof.
  intros calls.
  assert (Hall : Forall (λ c, 901001 ≤ call_now c) calls)
    by (repeat constructor; simpl; lia).
  split; [exact Hall|].
  exact (proj1 (sweep_not_observable 901001 calls Fixture.full_store Hall)).
Defined.


Lemma failed_request_is_counted_witness :
  let store : gmap string RateRecord :=
    {[ Fixture.anonymous_key := mkRecord 1 901000 ]} in
  Fixture.failing_handler Sample.anonymous_request = Throws
  ∧ rateLimit Fixture.login_config None Sample.anonymous_request
      Fixture.failing_handler 2000 None store
    = (Throws, <[Fixture.anonymous_key := mkRecord (1 + 1) 901000]> store).
Proof.
  intros store. split; [reflexivity|].
  exact (proj2 (proj2 (failed_request_is_counted Fixture.login_config None
                         Sample.anonymous_request Fixture.failing_handler
                         2000 None store))
           None (mkRecord 1 901000) eq_refl (lookup_singleton_eq _ _)
           ltac:(simpl; lia) ltac:(simpl; lia) eq_refl).
Defined.

Lemma retry_after_is_enough_witness :
  let out :=
    serve (Runs.calls_at Fixture.login_config None Sample.anonymous_request
             Sample.ok_handler [(600000, None); (901001, None)])
      Fixture.full_store in
  Fixture.full_store !! Fixture.anonymous_key = Some (mkRecord 5 901000)
  ∧ 600000 + 1000 * JS.Math_ceil_div (901000 - 600000) 1000 < 901001
  ∧ out.2 !! Fixture.anonymous_key = Some (mkRecord 1 (901001 + 900000)).
Proof.
  intros out.
  assert (Hk : Fixture.full_store !! Fixture.anonymous_key
               = Some (mkRecord 5 901000)) by apply lookup_singleton_eq.
  assert (Hlater : 600000 + 1000 * JS.Math_ceil_div (901000 - 600000) 1000
                   < 901001) by (vm_compute; reflexivity).
  split_and!; [exact Hk | exact Hlater |].
  exact (proj2 (proj2 (proj2 (proj2
           (retry_after_is_enough Fixture.login_config None
              Sample.anonymous_request Sample.ok_handler None 600000 None
              901001 None Fixture.full_store (mkRecord 5 901000)
              eq_refl Hk ltac:(simpl; lia) ltac:(simpl; lia) Hlater))))).
Defined.

Lemma client_id_nonempty_user_first_witness :
  getClientId Sample.anonymous_request (Some "u1") = "user:u1".
Proof.
  exact (proj2 (client_id_nonempty_user_first Sample.anonymous_request (Some "u1"))
           "u1" eq_refl ltac:(discriminate)).
Defined.

Lemma other_client_untouched_witness :
  pathname Fixture.other_client = pathname Sample.anonymous_request
  ∧ getClientId Fixture.other_client None
    ≠ getClientId Sample.anonymous_request None
  ∧ (rateLimit Fixture.login_config None Sample.anonymous_request
       Sample.ok_handler 2000 None Fixture.full_store).2
      !! request_key Fixture.other_client None
    = Fixture.full_store !! request_key Fixture.other_client None.
Proof.
  assert (Hid : getClientId Fixture.other_client None
                ≠ getClientId Sample.anonymous_request None)
    by (vm_compute; discriminate).
  split_and!; [reflexivity | exact Hid |].
  exact (proj2 (other_client_untouched Fixture.login_config None
                  Sample.anonymous_request Sample.ok_handler None 2000 None
                  Fixture.full_store Fixture.other_client None
                  eq_refl eq_refl Hid)).
Defined.

Lemma forwarded_for_can_name_a_user_witness :
  Headers.get (headers Fixture.posing_request) "x-forwarded-for"
  = Some "user:42, 10.0.0.1"
  ∧ JS.trim (ClientKeySpec.before_comma "user:42, 10.0.0.1") = "user:" +:+ "42"
  ∧ request_key Fixture.posing_request None
    = request_key Fixture.identified_request (Some "42").
Proof.
  split_and!; [reflexivity | reflexivity |].
  exact (forwarded_for_can_name_a_user Fixture.posing_request
           Fixture.identified_request "user:42, 10.0.0.1" "42"
           ltac:(discriminate) eq_refl eq_refl eq_refl).
Defined.

Lemma decorate_keeps_response_witness :
  ∃ inner,
    Returns Sample.ok_response = Returns inner
    ∧ Headers.get
        (res_headers (addRateLimitHeaders Sample.ok_response 5 4 901000))
        "Content-Type"
      = Headers.get (res_headers inner) "Content-Type".
Proof.
  destruct (decorate_keeps_response (Returns Sample.ok_response) 5 4 901000
              (addRateLimitHeaders Sample.ok_response 5 4 901000) eq_refl)
    as (inner & Hinner & _ & _ & _ & Hheaders).
  exists inner. split; [exact Hinner|].
  apply Hheaders; vm_compute; discriminate.
Defined.

Lemma sample_upload :
  Storage.uploadFileLocally Posix.extname Posix.basename
    (Path.join Fixture.normalize) Sample.always_writable "/app"
    (file_bytes Sample.small_png) "holiday.png" "u1" Storage.photo
    1700000000000 Sample.random8 ∅
  = (Returns "/uploads/photos/u1_1700000000000_00112233445566ff.png",
     {[ "/app/public/uploads/photos/u1_1700000000000_00112233445566ff.png"
        := file_bytes Sample.small_png ]}).
Proof.
  rewrite uploadFileLocally_outcome. cbn [Sample.always_writable].
  rewrite insert_empty. f_equal.
Qed.

Lemma read_back_what_was_uploaded_witness :
  let url := "/uploads/photos/u1_1700000000000_00112233445566ff.png" in
  let disk : Storage.Disk :=
    {[ "/app/public/uploads/photos/u1_1700000000000_00112233445566ff.png"
       := file_bytes Sample.small_png ]} in
  Fixture.permit_all (LocalFiles.filePath Fixture.normalize "/app" url) = true
  ∧ LocalFiles.readFileLocally Fixture.normalize Fixture.permit_all "/app" url disk
    = Returns (file_bytes Sample.small_png)
  ∧ LocalFiles.fileExistsLocally Fixture.normalize Fixture.permit_all "/app"
      url disk = true
  ∧ LocalFiles.getFileSize Fixture.normalize Fixture.permit_all "/app" url disk
    = Returns 4.
Proof.
  intros url disk. split; [reflexivity|].
  exact (read_back_what_was_uploaded Fixture.normalize Posix.extname
           Posix.basename Sample.always_writable Fixture.permit_all "/app"
           (file_bytes Sample.small_png) "holiday.png" "u1" Storage.photo
           1700000000000 Sample.random8 ∅ disk url sample_upload eq_refl).
Defined.

Lemma delete_undoes_upload_witness :
  let url := "/uploads/photos/u1_1700000000000_00112233445566ff.png" in
  let disk : Storage.Disk :=
    {[ "/app/public/uploads/photos/u1_1700000000000_00112233445566ff.png"
       := file_bytes Sample.small_png ]} in
  (∅ : Storage.Disk) !! LocalFiles.filePath Fixture.normalize "/app" url = None
  ∧ LocalFiles.deleteFileLocally Fixture.normalize Fixture.permit_all "/app"
      url disk = ∅.
Proof.
  intros url disk. split; [apply lookup_empty|].
  exact (proj2
           (proj1
              (delete_undoes_upload Fixture.normalize Posix.extname
                 Posix.basename Sample.always_writable Fixture.permit_all "/app"
                 (file_bytes Sample.small_png) "holiday.png" "u1" Storage.photo
                 1700000000000 Sample.random8 ∅ disk url sample_upload)
              eq_refl)
           (lookup_empty _)).
Defined.

Lemma same_url_same_draw_witness :
  length Sample.random8 = 8%nat
  ∧ Posix.extname "holiday.png" = Posix.extname "other.png".
Proof.
  split; [reflexivity|].
  assert (Hother :
    Storage.uploadFileLocally Posix.extname Posix.basename
      (Path.join Fixture.normalize) Sample.always_writable "/app"
      [] "other.png" "u1" Storage.photo 1700000000000 Sample.random8 ∅
    = (Returns "/uploads/photos/u1_1700000000000_00112233445566ff.png",
       {[ "/app/public/uploads/photos/u1_1700000000000_00112233445566ff.png"
          := [] ]})).
  { rewrite uploadFileLocally_outcome. cbn [Sample.always_writable].
    rewrite insert_empty. f_equal. }
  exact (proj2 (proj2 (proj2
           (same_url_same_draw Posix.extname Posix.basename
              (Path.join Fixture.normalize) Sample.always_writable "/app" "u1"
              (file_bytes Sample.small_png) [] "holiday.png" "other.png"
              Storage.photo Storage.photo 1700000000000 1700000000000
              Sample.random8 Sample.random8 ∅ ∅ _ _ _
              eq_refl eq_refl sample_upload Hother)))).
Defined.

Lemma listing_holds_own_uploads_witness :
  let files := ["u2_1_aa.png"; Fixture.stored_name; Fixture.longer_id_name] in
  Fixture.stored_name ∈ files
  ∧ "/uploads/photos/u1_1700000000000_00112233445566ff.png"
    ∈ LocalFiles.listUserFiles "u1" Storage.photo (Returns files).
Proof.
  intros files.
  assert (Hin : Fixture.stored_name ∈ files) by (apply list_elem_of_In; cbn; tauto).
  split; [exact Hin|].
  exact (proj2 (proj2 (listing_holds_own_uploads Posix.extname Posix.basename
                         (Path.join Fixture.normalize) Sample.always_writable
                         "/app" "u1" Storage.photo files))
           (file_bytes Sample.small_png) "holiday.png" 1700000000000
           Sample.random8 ∅ _ _ sample_upload Hin).
Defined.

Lemma listing_includes_longer_ids_witness :
  let files := ["u2_1_aa.png"; Fixture.stored_name; Fixture.longer_id_name] in
  Fixture.longer_id_name ∈ files
  ∧ "/uploads/" +:+ Storage.typeDir Storage.photo +:+ "/"
      +:+ Fixture.longer_id_name
    ∈ LocalFiles.listUserFiles "u1" Storage.photo (Returns files).
Proof.
  intros files.
  assert (Hin : Fixture.longer_id_name ∈ files)
    by (apply list_elem_of_In; cbn; tauto).
  split; [exact Hin|].
  exact (listing_includes_longer_ids "u1" "b" Storage.photo files
           1700000000001 (Storage.toString_hex Sample.random8) ".png" Hin).
Defined.

Lemma upload_statuses_and_disk_witness :
  let out :=
    PhotoRoute.POST Sample.verifyAccessToken Sample.at_quota
      Sample.createPortfolioPhoto Posix.extname Posix.basename Posix.join
      Sample.always_writable "/app"
      (Sample.photo_request Sample.small_png) 1700000000000 Sample.random8 ∅ in
  status out.1 = 403 ∧ out.2 = ∅.
Proof.
  intros out.
  assert (Hs : status out.1 = 403) by reflexivity.
  split; [exact Hs|].
  apply (proj1 (proj2 (upload_statuses_and_disk Sample.verifyAccessToken
                         Sample.at_quota Sample.createPortfolioPhoto
                         Posix.extname Posix.basename Posix.join
                         Sample.always_writable "/app"
                         (Sample.photo_request Sample.small_png)
                         1700000000000 Sample.random8 ∅)));
    fold out; rewrite Hs; discriminate.
Defined.

Lemma failed_record_leaves_file_witness :
  let out :=
    PhotoRoute.POST Sample.verifyAccessToken Sample.below_quota
      Fixture.failing_record Posix.extname Posix.basename Posix.join
      Sample.always_writable "/app"
      (Sample.photo_request Sample.small_png) 1700000000000 Sample.random8 ∅ in
  file_type Sample.small_png ∈ PhotoRoute.ALLOWED_TYPES
  ∧ file_size Sample.small_png ≤ PhotoRoute.MAX_FILE_SIZE
  ∧ status out.1 = 500
  ∧ out.2 !! "/app/public/uploads/photos/u1_1700000000000_00112233445566ff.png"
    = Some (file_bytes Sample.small_png).
Proof.
  intros out.
  assert (Hty : file_type Sample.small_png ∈ PhotoRoute.ALLOWED_TYPES)
    by (apply list_elem_of_In; cbn; tauto).
  assert (Hsize : file_size Sample.small_png ≤ PhotoRoute.MAX_FILE_SIZE)
    by (vm_compute; discriminate).
  destruct (failed_record_leaves_file Sample.verifyAccessToken
              Sample.below_quota Fixture.failing_record Posix.extname
              Posix.basename Posix.join Sample.always_writable "/app"
              (Sample.photo_request Sample.small_png) "u1" Sample.small_png
              1700000000000 Sample.random8 ∅
              (photo_request_authenticated Sample.small_png) eq_refl
              (photo_request_uploads Sample.small_png) Hty Hsize eq_refl eq_refl)
    as [Hanswer Hdisk].
  split_and!; [exact Hty | exact Hsize | |].
  - fold out in Hanswer. by rewrite Hanswer.
  - fold out in Hdisk. rewrite Hdisk.
    change (Posix.join [Storage.UPLOAD_BASE_DIR Posix.join "/app"; "photos";
              Storage.uniqueFileName "u1" 1700000000000
                (Storage.toString_hex Sample.random8)
                (Posix.extname (file_name Sample.small_png))])
      with "/app/public/uploads/photos/u1_1700000000000_00112233445566ff.png".
    apply lookup_insert_eq.
Defined.

Lemma list_and_upload_same_gate_witness :
  let anonymous := mkRequest "/api/upload/photo" ∅ ∅ Throws Throws in
  status (PhotoList.GET Sample.verifyAccessToken Fixture.no_photos anonymous) = 401
  ∧ status (PhotoRoute.POST Sample.verifyAccessToken Sample.below_quota
              Sample.createPortfolioPhoto Posix.extname Posix.basename
              Posix.join Sample.always_writable "/app" anonymous
              1700000000000 Sample.random8 ∅).1 = 401.
Proof.
  intros anonymous.
  assert (Hget : status (PhotoList.GET Sample.verifyAccessToken
                           Fixture.no_photos anonymous) = 401) by reflexivity.
  split; [exact Hget|].
  exact (proj1 (proj1 (list_and_upload_same_gate Sample.verifyAccessToken
                         Sample.below_quota Sample.createPortfolioPhoto
                         Fixture.no_photos Posix.extname Posix.basename
                         Posix.join Sample.always_writable "/app" anonymous
                         1700000000000 Sample.random8 ∅)) Hget).
Defined.

Lemma cookies_only_on_success_witness :
  let response :=
    LoginRoute.POST Fixture.find_ada Sample.verifyPassword
      Sample.createAccessToken Sample.createRefreshToken
      Sample.updateUserLastLogin Sample.long_secret
      Fixture.wrong_password_request in
  status response ≠ 200 ∧ res_cookies response = ∅.
Proof.
  intros response.
  assert (Hs : status response ≠ 200) by (vm_compute; discriminate).
  split; [exact Hs|].
  exact (proj1 (cookies_only_on_success Fixture.find_ada Sample.verifyPassword
                  Sample.createAccessToken Sample.createRefreshToken
                  Sample.updateUserLastLogin Sample.long_secret
                  Fixture.wrong_password_request) Hs).
Defined.

Lemma session_only_after_password_witness :
  let response :=
    LoginRoute.POST Fixture.find_ada Sample.verifyPassword
      Sample.createAccessToken Sample.createRefreshToken
      Sample.updateUserLastLogin Sample.long_secret Sample.login_request in
  status response = 200
  ∧ ∃ user h,
      Fixture.find_ada "ada@example.org" = Returns (Some user)
      ∧ LoginRoute.passwordHash user = Some h
      ∧ Sample.verifyPassword "correct horse" h = Returns true.
Proof.
  intros response.
  assert (Hs : status response = 200) by (vm_compute; reflexivity).
  split; [exact Hs|].
  destruct (session_only_after_password Fixture.find_ada Sample.verifyPassword
              Sample.createAccessToken Sample.createRefreshToken
              Sample.updateUserLastLogin Sample.long_secret
              Sample.login_request (or_introl Hs))
    as (body & e & p & user & h & Hj & He & Hp & _ & Hf & Hh & Hv & _).
  injection Hj as <-. injection He as <-. injection Hp as <-.
  exists user, h. split_and!; [exact Hf | exact Hh | exact Hv].
Defined.

Lemma unknown_email_like_wrong_password_witness :
  Fixture.find_ada "ada@example.org" = Returns (Some Fixture.ada)
  ∧ Sample.verifyPassword "battery staple" "correct horse" = Returns false
  ∧ LoginRoute.POST Fixture.find_ada Sample.verifyPassword
      Sample.createAccessToken Sample.createRefreshToken
      Sample.updateUserLastLogin Sample.long_secret
      Fixture.wrong_password_request
    = LoginRoute.error_response "Invalid credentials" 401.
Proof.
  split_and!; [reflexivity | reflexivity |].
  apply (unknown_email_like_wrong_password Fixture.find_ada
           Sample.verifyPassword Sample.createAccessToken
           Sample.createRefreshToken Sample.updateUserLastLogin
           Sample.long_secret Fixture.wrong_password_request
           (mkLoginRequest (Some "ada@example.org") (Some "battery staple"))
           "ada@example.org" "battery staple");
    try reflexivity.
  right. exists Fixture.ada. split; [reflexivity|]. right.
  exists "correct horse". split; reflexivity.
Defined.


(** * Regular expressions: the matcher against the words of a pattern *)

Lemma lang_many_nil p hi : Regex.lang (Regex.Many p 0 hi) [].
Proof.
  split_and!; [constructor | simpl; lia | intros h _; simpl; lia].
Qed.

Section Matcher.

Context {A : Type}.

Lemma many_sound p lo hi s (k : list Ascii.ascii → option A) x :
  Regex.many p lo hi s k = Some x →
  ∃ w rest, s = w ++ rest ∧ Regex.lang (Regex.Many p lo hi) w ∧ k rest = Some x.
Proof.
  revert lo hi. induction s as [|c s IH]; intros lo hi; simpl.
  - destruct lo; [|discriminate]. intros Hk. exists [], [].
    split; [done|]. split; [apply lang_many_nil | done].
  - assert (Hstop : match lo with O => k (c :: s) | S _ => None end = Some x →
              ∃ w rest, c :: s = w ++ rest
                        ∧ Regex.lang (Regex.Many p lo hi) w ∧ k rest = Some x).
    { destruct lo; [|discriminate]. intros Hk. exists [], (c :: s).
      split; [done|]. split; [apply lang_many_nil | done]. }
    destruct (p c) eqn:Hp; simpl; [|exact Hstop].
    case_bool_decide as Hhi; simpl; [exact Hstop|].
    destruct (Regex.many p (Nat.pred lo) (Nat.pred <$> hi) s k) as [y|] eqn:Hrec;
      [|exact Hstop].
    intros [= ->].
    destruct (IH _ _ Hrec) as (w & rest & -> & (Hall & Hlo & Hbound) & Hk).
    exists (c :: w), rest. split; [done|]. split; [|done].
    split_and!.
    + by constructor.
    + simpl. lia.
    + intros h ->. simpl.
      destruct h as [|h]; [done|]. specialize (Hbound h eq_refl). lia.
Qed.

Lemma many_complete p lo hi w rest (k : list Ascii.ascii → option A) :
  Regex.lang (Regex.Many p lo hi) w →
  is_Some (k rest) →
  is_Some (Regex.many p lo hi (w ++ rest) k).
Proof.
  intros (Hall & Hlo & Hbound) Hk. revert lo hi Hlo Hbound.
  induction Hall as [|c w Hc Hall IH]; intros lo hi Hlo Hbound.
  - simpl in Hlo. assert (lo = O) as -> by lia. simpl.
    destruct rest as [|c rest]; simpl; [done|].
    destruct (p c && negb (bool_decide (hi = Some O))); [|done].
    by destruct (Regex.many p _ _ rest k).
  - simpl. rewrite Hc. simpl.
    rewrite bool_decide_eq_false_2; simpl.
    + destruct (IH (Nat.pred lo) (Nat.pred <$> hi)) as [y ->]; [| |done].
      * simpl in Hlo. lia.
      * intros h Hh. destruct hi as [h'|]; [|done]. injection Hh as <-.
        specialize (Hbound h' eq_refl). simpl in Hbound. lia.
    + intros ->. specialize (Hbound O eq_refl). simpl in Hbound. lia.
Qed.

End Matcher.

Lemma run_sound {A : Type} r s (k : list Ascii.ascii → option A) x :
  Regex.run r s k = Some x →
  ∃ w rest, s = w ++ rest ∧ Regex.lang r w ∧ k rest = Some x.
Proof.
  revert A s k x. induction r as [|p|r1 IH1 r2 IH2|r IH|p lo hi];
    intros A s k x; simpl.
  - intros Hk. by exists [], s.
  - destruct s as [|c s]; [discriminate|].
    destruct (p c) eqn:Hp; [|discriminate]. intros Hk.
    exists [c], s. split_and!; try done. by exists c.
  - intros H1. apply IH1 in H1 as (w1 & rest1 & -> & Hw1 & H2).
    apply IH2 in H2 as (w2 & rest & -> & Hw2 & Hk).
    exists (w1 ++ w2), rest. rewrite <- app_assoc. split_and!; try done.
    by exists w1, w2.
  - destruct (Regex.run r s k) as [y|] eqn:Hr.
    + intros [= ->]. apply IH in Hr as (w & rest & -> & Hw & Hk).
      exists w, rest. split_and!; try done. by right.
    + intros Hk. exists [], s. split_and!; try done. by left.
  - apply many_sound.
Qed.

Lemma run_complete {A : Type} r w rest (k : list Ascii.ascii → option A) :
  Regex.lang r w → is_Some (k rest) → is_Some (Regex.run r (w ++ rest) k).
Proof.
  revert A w rest k. induction r as [|p|r1 IH1 r2 IH2|r IH|p lo hi];
    intros A w rest k; simpl.
  - by intros ->.
  - intros (c & -> & Hp) Hk. simpl. by rewrite Hp.
  - intros (w1 & w2 & -> & Hw1 & Hw2) Hk. rewrite <- app_assoc.
    apply IH1; [done|]. by apply IH2.
  - intros [->|Hw] Hk; simpl.
    + by destruct (Regex.run r rest k).
    + destruct (IH _ w rest k Hw Hk) as [y ->]. done.
  - apply many_complete.
Qed.

(** The anchored test accepts exactly the words of the pattern. *)
Lemma test_whole_lang r s :
  Regex.test_whole r s = true ↔ Regex.lang r (String.list_ascii_of_string s).
Proof.
  unfold Regex.test_whole. rewrite bool_decide_eq_true. split.
  - intros [[] Hrun]. apply run_sound in Hrun as (w & rest & Hs & Hw & Hk).
    destruct rest; [|discriminate]. rewrite app_nil_r in Hs. by rewrite Hs.
  - intros Hw. rewrite <- (app_nil_r (String.list_ascii_of_string s)).
    by apply run_complete.
Qed.

Lemma search_unfold r s :
  Regex.search r s
  = match Regex.run r s (λ rest, Some rest) with
    | Some rest => Some (take (length s - length rest) s)
    | None =>
        match s with
        | _ :: s' => Regex.search r s'
        | [] => None
        end
    end.
Proof. by destruct s. Qed.

(** The search returns a word of the pattern that occurs in the text, and
    finds one whenever one occurs. *)
Lemma search_sound r s m :
  Regex.search r s = Some m →
  Regex.lang r m ∧ ∃ before after, s = before ++ m ++ after.
Proof.
  induction s as [|c s IH]; rewrite search_unfold;
    destruct (Regex.run r _ (λ rest, Some rest)) as [rest|] eqn:Hrun.
  - intros [= <-]. apply run_sound in Hrun as (w & rest' & Hs & Hw & [= ->]).
    symmetry in Hs. apply app_eq_nil in Hs as [-> ->]. simpl.
    split; [done|]. by exists [], [].
  - discriminate.
  - apply run_sound in Hrun as (w & rest' & Hs & Hw & [= ->]).
    rewrite Hs, length_app.
    replace (length w + length rest - length rest)%nat with (length w) by lia.
    rewrite take_app_length. intros [= <-]. split; [done|]. by exists [], rest.
  - intros (Hm & before & after & ->)%IH. split; [done|].
    by exists (c :: before), after.
Qed.

Lemma search_complete r before m after :
  Regex.lang r m → is_Some (Regex.search r (before ++ m ++ after)).
Proof.
  intros Hm. induction before as [|c before IH]; rewrite search_unfold.
  - destruct (run_complete r m after (λ rest, Some rest) Hm) as [rest Hrest];
      [done|].
    simpl. by rewrite Hrest.
  - by destruct (Regex.run r _ (λ rest, Some rest)).
Qed.

(** ** Strings and their characters *)

Lemma list_of_append (a b : string) :
  String.list_ascii_of_string (a +:+ b)
  = String.list_ascii_of_string a ++ String.list_ascii_of_string b.
Proof.
  induction a as [|c a IH]; [reflexivity|].
  rewrite append_cons. simpl. by rewrite IH.
Qed.

Lemma string_of_app (l1 l2 : list Ascii.ascii) :
  String.string_of_list_ascii (l1 ++ l2)
  = String.string_of_list_ascii l1 +:+ String.string_of_list_ascii l2.
Proof.
  induction l1 as [|c l1 IH]; [reflexivity|].
  simpl. by rewrite IH, append_cons.
Qed.

Lemma list_of_string_nil (s : string) :
  String.list_ascii_of_string s = [] ↔ s = EmptyString.
Proof. by destruct s. Qed.

Lemma occurs_in_lists (m s : string) :
  (∃ before after,
      String.list_ascii_of_string s
      = before ++ String.list_ascii_of_string m ++ after)
  ↔ Text.occurs_in m s.
Proof.
  split.
  - intros (before & after & Hs).
    exists (String.string_of_list_ascii before),
           (String.string_of_list_ascii after).
    rewrite <- (String.string_of_list_ascii_of_string s), Hs.
    by rewrite !string_of_app, String.string_of_list_ascii_of_string.
  - intros (before & after & ->).
    exists (String.list_ascii_of_string before),
           (String.list_ascii_of_string after).
    by rewrite !list_of_append.
Qed.

Lemma lang_plus p w :
  Regex.lang (Regex.plus p) w ↔ Forall (λ c, p c = true) w ∧ w ≠ [].
Proof.
  unfold Regex.plus. simpl. split.
  - intros (Hall & Hlen & _). split; [done|]. intros ->. simpl in Hlen. lia.
  - intros [Hall Hne]. split_and!; [done | | done].
    destruct w; [done|]. simpl. lia.
Qed.

Lemma lang_chr x w : Regex.lang (Regex.Chars (Regex.chr x)) w ↔ w = [x].
Proof.
  simpl. unfold Regex.chr. split.
  - intros (c & -> & Hc). by apply bool_decide_eq_true in Hc as ->.
  - intros ->. exists x. split; [done|]. by apply bool_decide_eq_true.
Qed.

(** The words of the two patterns for an email address. *)
Lemma lang_address p q w :
  Regex.lang
    (Regex.Cat (Regex.plus p)
       (Regex.Cat (Regex.Chars (Regex.chr "@"))
          (Regex.Cat (Regex.plus p)
             (Regex.Cat (Regex.Chars (Regex.chr ".")) (Regex.plus q))))) w
  ↔ ∃ a b c,
      w = a ++ "@"%char :: b ++ "."%char :: c
      ∧ (Forall (λ x, p x = true) a ∧ a ≠ [])
      ∧ (Forall (λ x, p x = true) b ∧ b ≠ [])
      ∧ (Forall (λ x, q x = true) c ∧ c ≠ []).
Proof.
  cbn [Regex.lang]. split.
  - intros (a & w1 & -> & Ha & at_ & w2 & -> & Hat & b & w3 & -> & Hb
            & dot & c & -> & Hdot & Hc).
    apply (lang_chr "@") in Hat as ->. apply (lang_chr ".") in Hdot as ->.
    apply lang_plus in Ha, Hb, Hc. by exists a, b, c.
  - intros (a & b & c & -> & Ha & Hb & Hc).
    apply lang_plus in Ha, Hb, Hc.
    exists a, ("@"%char :: b ++ "."%char :: c). split_and!; [done | done |].
    exists ["@"%char], (b ++ "."%char :: c). split_and!; [done | by apply lang_chr |].
    exists b, ("."%char :: c). split_and!; [done | done |].
    exists ["."%char], c. split_and!; [done | by apply lang_chr | done].
Qed.

(** X21. The email test of the registration route and of the resume
    validator accepts exactly the texts of the form [a@b.c] where [a],
    [b] and [c] are not empty and hold neither white space nor [@]. *)
Theorem email_test_shape (s : string) :
  Regex.test_whole Regex.emailRegex s = true
  ↔ ∃ a b c,
      s = a +:+ "@" +:+ b +:+ "." +:+ c
      ∧ a ≠ EmptyString ∧ b ≠ EmptyString ∧ c ≠ EmptyString
      ∧ Text.every Regex.not_space_at a
      ∧ Text.every Regex.not_space_at b
      ∧ Text.every Regex.not_space_at c.
Proof.
  rewrite test_whole_lang. unfold Regex.emailRegex. rewrite lang_address.
  unfold Text.every. split.
  - intros (a & b & c & Hs & [Ha Hane] & [Hb Hbne] & [Hc Hcne]).
    exists (String.string_of_list_ascii a), (String.string_of_list_ascii b),
           (String.string_of_list_ascii c).
    rewrite !String.list_ascii_of_string_of_list_ascii.
    split_and!; try done.
    + rewrite <- (String.string_of_list_ascii_of_string s), Hs.
      rewrite string_of_app. simpl. rewrite string_of_app. done.
    + intros H. apply Hane. by destruct a.
    + intros H. apply Hbne. by destruct b.
    + intros H. apply Hcne. by destruct c.
  - intros (a & b & c & -> & Hane & Hbne & Hcne & Ha & Hb & Hc).
    exists (String.list_ascii_of_string a), (String.list_ascii_of_string b),
           (String.list_ascii_of_string c).
    split_and!; try done.
    + rewrite !list_of_append. reflexivity.
    + by rewrite list_of_string_nil.
    + by rewrite list_of_string_nil.
    + by rewrite list_of_string_nil.
Qed.

(** * Further properties of the resume parser *)

Lemma word_dot_dash_not_space_at c :
  Regex.word_dot_dash c = true → Regex.not_space_at c = true.
Proof. destruct c as [[] [] [] [] [] [] [] []]; vm_compute; congruence. Qed.

Lemma word_not_space_at c : Regex.word c = true → Regex.not_space_at c = true.
Proof. destruct c as [[] [] [] [] [] [] [] []]; vm_compute; congruence. Qed.

Lemma emailPattern_emailRegex w :
  Regex.lang Regex.emailPattern w → Regex.lang Regex.emailRegex w.
Proof.
  unfold Regex.emailPattern, Regex.emailRegex. rewrite !lang_address.
  intros (a & b & c & -> & [Ha ?] & [Hb ?] & [Hc ?]). exists a, b, c.
  split_and!; try done.
  - eapply Forall_impl; [exact Ha|]. apply word_dot_dash_not_space_at.
  - eapply Forall_impl; [exact Hb|]. apply word_dot_dash_not_space_at.
  - eapply Forall_impl; [exact Hc|]. apply word_not_space_at.
Qed.

Lemma emailPattern_has_at w :
  Regex.lang Regex.emailPattern w → "@"%char ∈ w.
Proof.
  unfold Regex.emailPattern. rewrite lang_address.
  intros (a & b & c & -> & _). apply elem_of_app. right. by left.
Qed.

Lemma match0_sound r text m :
  Regex.match0 r text = Some m →
  Regex.lang r (String.list_ascii_of_string m) ∧ Text.occurs_in m text.
Proof.
  unfold Regex.match0.
  destruct (Regex.search r _) as [w|] eqn:Hs; [|discriminate].
  intros [= <-]. apply search_sound in Hs as [Hw (before & after & Ht)].
  rewrite String.list_ascii_of_string_of_list_ascii. split; [done|].
  apply occurs_in_lists. exists before, after.
  by rewrite String.list_ascii_of_string_of_list_ascii.
Qed.

Lemma match0_complete r text m :
  Regex.lang r (String.list_ascii_of_string m) → Text.occurs_in m text →
  is_Some (Regex.match0 r text).
Proof.
  intros Hm (before & after & Ht)%occurs_in_lists. unfold Regex.match0.
  rewrite Ht. by destruct (search_complete r before _ after Hm) as [w ->].
Qed.

(** ** White space, trimming and lines *)

Lemma trimEnd_cons a (w : string) :
  JS.trimEnd (String a w)
  = match JS.trimEnd w with
    | EmptyString => if JS.is_space a then EmptyString else String a EmptyString
    | t => String a t
    end.
Proof. reflexivity. Qed.

Lemma trimEnd_empty_iff (s : string) :
  JS.trimEnd s = EmptyString ↔ Text.blank s.
Proof.
  unfold Text.blank, Text.every. induction s as [|a s IH].
  - split; [constructor | done].
  - rewrite trimEnd_cons. simpl. rewrite Forall_cons. rewrite <- IH.
    destruct (JS.trimEnd s); destruct (JS.is_space a);
      intuition (discriminate || congruence).
Qed.

Lemma trimStart_blank_iff (s : string) :
  Text.blank (JS.trimStart s) ↔ Text.blank s.
Proof.
  unfold Text.blank, Text.every. induction s as [|a s IH]; [done|].
  simpl. destruct (JS.is_space a) eqn:Ha.
  - rewrite IH, Forall_cons. tauto.
  - simpl. rewrite !Forall_cons. tauto.
Qed.

Lemma trim_empty_iff (s : string) : JS.trim s = EmptyString ↔ Text.blank s.
Proof. unfold JS.trim. by rewrite trimEnd_empty_iff, trimStart_blank_iff. Qed.

Lemma truthy_trim_iff (s : string) :
  JS.truthy (JS.trim s) = true ↔ ¬ Text.blank s.
Proof.
  rewrite <- trim_empty_iff. destruct (JS.trim s); simpl; [|done].
  split; [discriminate | by intros []].
Qed.

Lemma newline_is_space c : ResumeParser.is_newline c = true → JS.is_space c = true.
Proof.
  unfold ResumeParser.is_newline. by intros ->%bool_decide_eq_true.
Qed.

Lemma split_lines_nonempty (s : string) : ResumeParser.split_lines s ≠ [].
Proof.
  destruct s as [|c s]; simpl; [done|].
  destruct (ResumeParser.is_newline c); [done|].
  by destruct (ResumeParser.split_lines s).
Qed.

(** A text is blank exactly when all its lines are. *)
Lemma split_lines_blank (s : string) :
  Text.blank s ↔ Forall Text.blank (ResumeParser.split_lines s).
Proof.
  unfold Text.blank, Text.every. induction s as [|c s IH]; simpl.
  - split; [by repeat constructor | constructor].
  - rewrite Forall_cons, IH.
    destruct (ResumeParser.is_newline c) eqn:Hc.
    + apply newline_is_space in Hc. rewrite Forall_cons. simpl.
      split; [intros [_ ?]; split; [constructor | done] | tauto].
    + pose proof (split_lines_nonempty s) as Hne.
      destruct (ResumeParser.split_lines s) as [|w ws]; [done|].
      rewrite !Forall_cons. simpl. rewrite Forall_cons. tauto.
Qed.

Lemma first_kept_line text :
  let lines :=
    filter (λ line, JS.truthy (JS.trim line) = true)
      (ResumeParser.split_lines text) in
  match lines with
  | line :: _ => JS.trim line
  | [] => EmptyString
  end = EmptyString ↔ Text.blank text.
Proof.
  intros lines. rewrite split_lines_blank. subst lines.
  induction (ResumeParser.split_lines text) as [|l ls IH]; [done|].
  rewrite filter_cons, Forall_cons. case_decide as Hl.
  - pose proof (proj1 (truthy_trim_iff l) Hl) as Hnb.
    split; [|tauto]. intros Hempty. by rewrite Hempty in Hl.
  - assert (Text.blank l) as Hb.
    { destruct (decide (JS.trim l = EmptyString)) as [He|He];
        [by apply trim_empty_iff|].
      destruct Hl. by destruct (JS.trim l). }
    rewrite IH. tauto.
Qed.

(** X22. What the parser extracts comes from the text: the email and the
    phone number are pieces of the text, the two profile links are
    "https://" followed by a piece of the text; and an email, when one is
    extracted, passes the email test of the validator. *)
Theorem extracted_fields_come_from_text text fileType :
  let p := ResumeParser.personal (ResumeParser.parseResumeText text fileType) in
  (ResumeParser.email p = EmptyString
   ∨ (Text.occurs_in (ResumeParser.email p) text
      ∧ Regex.test_whole Regex.emailRegex (ResumeParser.email p) = true))
  ∧ (∀ m, ResumeParser.phone p = Some m → Text.occurs_in m text)
  ∧ (∀ u, ResumeParser.linkedin p = Some u →
          ∃ m, u = "https://" +:+ m ∧ Text.occurs_in m text)
  ∧ (∀ u, ResumeParser.github p = Some u →
          ∃ m, u = "https://" +:+ m ∧ Text.occurs_in m text).
Proof.
  intros p. subst p. cbn [ResumeParser.parseResumeText ResumeParser.personal
    ResumeParser.email ResumeParser.phone ResumeParser.linkedin
    ResumeParser.github].
  split_and!.
  - destruct (Regex.match0 Regex.emailPattern text) as [m|] eqn:Hm; [|by left].
    right. apply match0_sound in Hm as [Hw Hocc]. split; [done|].
    by apply test_whole_lang, emailPattern_emailRegex.
  - intros m Hm. by apply match0_sound in Hm as [_ ?].
  - intros u. destruct (Regex.match0 Regex.linkedinPattern text) as [m|] eqn:Hm;
      [|discriminate].
    intros [= <-]. exists m. split; [done|]. by apply match0_sound in Hm as [_ ?].
  - intros u. destruct (Regex.match0 Regex.githubPattern text) as [m|] eqn:Hm;
      [|discriminate].
    intros [= <-]. exists m. split; [done|]. by apply match0_sound in Hm as [_ ?].
Qed.

(** ** The name *)

Lemma occurs_in_refl (s : string) : Text.occurs_in s s.
Proof.
  apply occurs_in_lists. exists [], []. by rewrite app_nil_r.
Qed.

Lemma occurs_in_trans (a b c : string) :
  Text.occurs_in a b → Text.occurs_in b c → Text.occurs_in a c.
Proof.
  intros (p1 & q1 & ->) (p2 & q2 & ->). exists (p2 +:+ p1), (q1 +:+ q2).
  by rewrite !append_assoc.
Qed.

Lemma trimStart_suffix (s : string) : ∃ pre, s = pre +:+ JS.trimStart s.
Proof.
  induction s as [|c s [pre IH]]; [by exists EmptyString|].
  simpl. destruct (JS.is_space c).
  - exists (String c pre). by rewrite append_cons, <- IH.
  - by exists EmptyString.
Qed.

Lemma trimEnd_prefix (s : string) : ∃ post, s = JS.trimEnd s +:+ post.
Proof.
  induction s as [|c s [post IH]]; [by exists EmptyString|].
  rewrite trimEnd_cons. destruct (JS.trimEnd s) as [|d t] eqn:Ht.
  - destruct (JS.is_space c).
    + by exists (String c s).
    + exists s. reflexivity.
  - exists post. by rewrite append_cons, <- IH.
Qed.

Lemma trim_occurs (s : string) : Text.occurs_in (JS.trim s) s.
Proof.
  destruct (trimStart_suffix s) as [pre Hpre].
  destruct (trimEnd_prefix (JS.trimStart s)) as [post Hpost].
  exists pre, post. unfold JS.trim. by rewrite <- Hpost.
Qed.

Lemma trimEnd_idemp (s : string) : JS.trimEnd (JS.trimEnd s) = JS.trimEnd s.
Proof.
  induction s as [|c s IH]; [done|].
  rewrite trimEnd_cons. destruct (JS.trimEnd s) as [|d t] eqn:Ht.
  - destruct (JS.is_space c) eqn:Hc; [done|]. rewrite trimEnd_cons. simpl.
    by rewrite Hc.
  - rewrite trimEnd_cons, IH. reflexivity.
Qed.

Lemma trimStart_trimEnd (s : string) :
  JS.trimStart (JS.trimEnd (JS.trimStart s)) = JS.trimEnd (JS.trimStart s).
Proof.
  induction s as [|c s IH]; [done|].
  cbn [JS.trimStart]. destruct (JS.is_space c) eqn:Hc; [done|].
  rewrite trimEnd_cons.
  destruct (JS.trimEnd s); rewrite ?Hc; cbn [JS.trimStart]; by rewrite Hc.
Qed.

Lemma trim_idemp (s : string) : JS.trim (JS.trim s) = JS.trim s.
Proof.
  unfold JS.trim. by rewrite trimStart_trimEnd, trimEnd_idemp.
Qed.

Lemma split_lines_head (text : string) :
  ∃ w ws after, ResumeParser.split_lines text = w :: ws ∧ text = w +:+ after.
Proof.
  induction text as [|c text (w & ws & after & Hs & Ht)]; simpl.
  - by exists EmptyString, [], EmptyString.
  - destruct (ResumeParser.is_newline c).
    + by exists EmptyString, (ResumeParser.split_lines text), (String c text).
    + rewrite Hs. exists (String c w), ws, after. by rewrite append_cons, <- Ht.
Qed.

Lemma line_occurs (text line : string) :
  line ∈ ResumeParser.split_lines text → Text.occurs_in line text.
Proof.
  revert line. induction text as [|c text IH]; intros line; simpl.
  - intros ->%list_elem_of_singleton. apply occurs_in_refl.
  - destruct (ResumeParser.is_newline c).
    + intros [->|Hin]%elem_of_cons.
      * by exists EmptyString, (String c text).
      * destruct (IH _ Hin) as (before & after & Ht).
        exists (String c before), after. by rewrite append_cons, <- Ht.
    + destruct (split_lines_head text) as (w & ws & rest & Hs & Ht).
      rewrite Hs in IH |- *.
      intros [->|Hin]%elem_of_cons.
      * exists EmptyString, rest. by rewrite Ht at 1.
      * destruct (IH line) as (before & after & Hl); [by right|].
        exists (String c before), after. by rewrite append_cons, <- Hl.
Qed.

Lemma name_of_lines (text : string) :
  let lines :=
    filter (λ line, JS.truthy (JS.trim line) = true)
      (ResumeParser.split_lines text) in
  let name := match lines with
              | line :: _ => JS.trim line
              | [] => EmptyString
              end in
  Text.occurs_in name text ∧ JS.trim name = name.
Proof.
  intros lines name. subst name.
  destruct lines as [|line rest] eqn:Hl.
  - split; [by exists EmptyString, text | done].
  - assert (line ∈ lines) as Hin by (rewrite Hl; by left).
    apply list_elem_of_filter in Hin as [_ Hin].
    split; [|apply trim_idemp].
    eapply occurs_in_trans; [apply trim_occurs | by apply line_occurs].
Qed.

(** X23. The name the parser extracts is a piece of the text with no white
    space at either end, and it is empty exactly when the whole text is
    white space. *)
Theorem extracted_name_trimmed_piece text fileType :
  let name :=
    ResumeParser.name
      (ResumeParser.personal (ResumeParser.parseResumeText text fileType)) in
  Text.occurs_in name text
  ∧ JS.trim name = name
  ∧ (name = EmptyString ↔ Text.blank text).
Proof.
  intros name. subst name.
  cbn [ResumeParser.parseResumeText ResumeParser.personal ResumeParser.name].
  destruct (name_of_lines text) as [Hocc Htrim].
  split_and!; [exact Hocc | exact Htrim | apply first_kept_line].
Qed.

(** ** Validation after parsing *)

Lemma address_words p q (s : string) :
  Regex.lang
    (Regex.Cat (Regex.plus p)
       (Regex.Cat (Regex.Chars (Regex.chr "@"))
          (Regex.Cat (Regex.plus p)
             (Regex.Cat (Regex.Chars (Regex.chr ".")) (Regex.plus q)))))
    (String.list_ascii_of_string s)
  ↔ ∃ a b c,
      s = a +:+ "@" +:+ b +:+ "." +:+ c
      ∧ a ≠ EmptyString ∧ b ≠ EmptyString ∧ c ≠ EmptyString
      ∧ Text.every p a ∧ Text.every p b ∧ Text.every q c.
Proof.
  rewrite lang_address. unfold Text.every. split.
  - intros (a & b & c & Hs & [Ha Hane] & [Hb Hbne] & [Hc Hcne]).
    exists (String.string_of_list_ascii a), (String.string_of_list_ascii b),
           (String.string_of_list_ascii c).
    rewrite !String.list_ascii_of_string_of_list_ascii.
    split_and!; try done.
    + rewrite <- (String.string_of_list_ascii_of_string s), Hs.
      rewrite string_of_app. simpl. rewrite string_of_app. done.
    + intros H. apply Hane. by destruct a.
    + intros H. apply Hbne. by destruct b.
    + intros H. apply Hcne. by destruct c.
  - intros (a & b & c & -> & Hane & Hbne & Hcne & Ha & Hb & Hc).
    exists (String.list_ascii_of_string a), (String.list_ascii_of_string b),
           (String.list_ascii_of_string c).
    split_and!; try done.
    + rewrite !list_of_append. reflexivity.
    + by rewrite list_of_string_nil.
    + by rewrite list_of_string_nil.
    + by rewrite list_of_string_nil.
Qed.

Lemma at_sign_not_blank (m text : string) :
  "@"%char ∈ String.list_ascii_of_string m → Text.occurs_in m text →
  ¬ Text.blank text.
Proof.
  intros Hat (before & after & ->) Hblank.
  unfold Text.blank, Text.every in Hblank. rewrite !list_of_append in Hblank.
  apply Forall_app in Hblank as [_ Hblank].
  apply Forall_app in Hblank as [Hblank _].
  rewrite Forall_forall in Hblank. by specialize (Hblank _ Hat).
Qed.

Lemma validate_parse_match text fileType :
  ResumeParser.validateParsedResume (ResumeParser.parseResumeText text fileType)
  = true
  ↔ ∃ m, Regex.lang Regex.emailPattern (String.list_ascii_of_string m)
         ∧ Text.occurs_in m text.
Proof.
  unfold ResumeParser.validateParsedResume.
  cbn [ResumeParser.parseResumeText ResumeParser.personal ResumeParser.name
       ResumeParser.email].
  split.
  - destruct (Regex.match0 Regex.emailPattern text) as [m|] eqn:Hm.
    + intros _. exists m. by apply match0_sound.
    + simpl. by rewrite orb_true_r.
  - intros (m' & Hlang & Hocc).
    destruct (match0_complete _ _ _ Hlang Hocc) as [m Hm]. rewrite Hm. simpl.
    apply match0_sound in Hm as [Hw Hin].
    pose proof (emailPattern_has_at _ Hw) as Hat.
    pose proof (at_sign_not_blank _ _ Hat Hin) as Hnb.
    assert (m ≠ EmptyString) as Hne by (intros ->; by apply elem_of_nil in Hat).
    rewrite (truthy_true m Hne).
    rewrite (proj2 (test_whole_lang _ _) (emailPattern_emailRegex _ Hw)).
    rewrite <- first_kept_line in Hnb. cbv zeta in Hnb.
    rewrite (truthy_true _ Hnb). reflexivity.
Qed.

(** X24. A parsed text passes the validator exactly when an address
    [a@b.c] occurs in it, with [a] and [b] not empty and made of letters,
    digits, [_], [.] and [-], and [c] not empty and made of letters, digits
    and [_]: nothing else about the resume is checked, and the name is
    never the reason for a rejection. *)
Theorem parsed_resume_valid_iff_address text fileType :
  ResumeParser.validateParsedResume (ResumeParser.parseResumeText text fileType)
  = true
  ↔ ∃ a b c,
      Text.occurs_in (a +:+ "@" +:+ b +:+ "." +:+ c) text
      ∧ a ≠ EmptyString ∧ b ≠ EmptyString ∧ c ≠ EmptyString
      ∧ Text.every Regex.word_dot_dash a
      ∧ Text.every Regex.word_dot_dash b
      ∧ Text.every Regex.word c.
Proof.
  rewrite validate_parse_match. unfold Regex.emailPattern. split.
  - intros (m & (a & b & c & -> & H)%address_words & Hocc). by exists a, b, c.
  - intros (a & b & c & Hocc & H). exists (a +:+ "@" +:+ b +:+ "." +:+ c).
    split; [|done]. apply address_words. by exists a, b, c.
Qed.

(** ** The dispatch on the file type *)

Section Dispatch.

Variable toString_utf8 : list Byte.byte → string.

Local Abbreviation parseResume := (ResumeParser.parseResume toString_utf8).

(** X25. Of the file types the parser names, only text and markdown are
    parsed: for "txt", "md" and "markdown" in any letter case the result is
    the parse of the decoded bytes, the same for the three; for every
    other type, "pdf", "docx" and "doc" included, the call throws. *)
Theorem only_text_types_parsed (buffer : list Byte.byte) (fileType : string) :
  let type := JS.toLowerCase fileType in
  (type ∈ ["txt"; "md"; "markdown"] →
   ∀ anyType,
     parseResume buffer fileType
     = Returns (ResumeParser.parseResumeText (toString_utf8 buffer) anyType))
  ∧ (type ∉ ["txt"; "md"; "markdown"] → parseResume buffer fileType = Throws).
Proof.
  intros type. subst type. unfold ResumeParser.parseResume.
  split.
  - intros Hin anyType. apply list_elem_of_In in Hin.
    destruct Hin as [<-|[<-|[<-|[]]]]; reflexivity.
  - intros Hout.
    repeat case_bool_decide; simpl; try reflexivity;
      destruct Hout; apply list_elem_of_In; cbn; intuition congruence.
Qed.

End Dispatch.

(** * Further properties of the registration route *)

Section Register.

Variable findUserByEmail : string → Completion (option LoginRoute.User).
Variable hashPassword : string → Completion string.
Variable createUser : RegisterRoute.NewUser → Completion LoginRoute.User.
Variable createAccessToken : string → string → string → Completion string.
Variable createRefreshToken : string → Completion string.

Local Abbreviation welcome :=
  (RegisterRoute.welcome createAccessToken createRefreshToken).
Local Abbreviation register_POST :=
  (RegisterRoute.POST findUserByEmail hashPassword createUser createAccessToken
     createRefreshToken).

Lemma welcome_outcomes env user :
  welcome env user = LoginRoute.internal_error
  ∨ ∃ a r,
      createAccessToken (LoginRoute.user_id user) (LoginRoute.user_email user)
        (LoginRoute.role user) = Returns a
      ∧ createRefreshToken (LoginRoute.user_id user) = Returns r
      ∧ status (welcome env user) = 201
      ∧ res_cookies (welcome env user)
        = <["refreshToken" := LoginRoute.session_cookie env r 604800]>
            (<["accessToken" := LoginRoute.session_cookie env a 3600]> ∅).
Proof.
  unfold RegisterRoute.welcome.
  destruct (createAccessToken _ _ _) as [a|]; [|by left].
  destruct (createRefreshToken _) as [r|]; [|by left].
  right. by exists a, r.
Qed.

(** The answers of the route: a refusal, which has a status other than
    201 and sets no cookie, or the welcome of a user just created. *)
Lemma register_outcomes env json :
  (status (register_POST env json) ∈ [400; 409; 500]
   ∧ res_cookies (register_POST env json) = ∅)
  ∨ ∃ body e p h user,
      json = Returns body
      ∧ RegisterRoute.email body = Some e ∧ RegisterRoute.password body = Some p
      ∧ JS.truthy (default EmptyString (LoginRoute.JWT_SECRET env)) = true
      ∧ Regex.test_whole Regex.emailRegex e = true
      ∧ (5 ≤ String.length p)%nat
      ∧ findUserByEmail e = Returns None
      ∧ hashPassword p = Returns h
      ∧ createUser
          (RegisterRoute.mkNewUser e h (RegisterRoute.name body) "user" false true)
        = Returns user
      ∧ register_POST env json = welcome env user.
Proof.
  assert (∀ st : Z, st ∈ [400; 409; 500] ↔ st = 400 ∨ st = 409 ∨ st = 500)
    as Hin.
  { intros st. rewrite list_elem_of_In. cbn. intuition congruence. }
  unfold RegisterRoute.POST.
  destruct json as [body|]; [|left; rewrite Hin; auto].
  destruct (RegisterRoute.email body) as [e|] eqn:He;
    [|left; rewrite Hin; auto].
  destruct (RegisterRoute.password body) as [p|] eqn:Hp;
    [|left; simpl; rewrite orb_true_r, Hin; auto].
  simpl.
  destruct (JS.truthy e); [|left; rewrite Hin; auto].
  destruct (JS.truthy p); [|left; rewrite Hin; auto].
  simpl.
  destruct (JS.truthy (default EmptyString (LoginRoute.JWT_SECRET env))) eqn:Hs;
    [|left; rewrite Hin; auto].
  simpl.
  destruct (Regex.test_whole Regex.emailRegex e) eqn:Ht;
    [|left; rewrite Hin; auto].
  simpl.
  destruct (String.length p <? 5)%nat eqn:Hlen; [left; rewrite Hin; auto|].
  apply Nat.ltb_ge in Hlen.
  unfold RegisterRoute.register.
  destruct (findUserByEmail e) as [[existing|]|] eqn:Hf;
    [left; rewrite Hin; auto| |left; rewrite Hin; auto].
  destruct (hashPassword p) as [h|] eqn:Hh; [|left; rewrite Hin; auto].
  destruct (createUser _) as [user|] eqn:Hc; [|left; rewrite Hin; auto].
  right. by exists body, e, p, h, user.
Qed.

(** X26. An account is created only for a valid request: a 201 response
    means that the body has an email that passes the email test and a
    password of at least five characters, that the secret is set, that no
    user has this email, that the record handed to the user store holds
    the output of the hasher for this password, the role "user", not
    verified, active, and that the cookies hold the tokens issued for the
    created user. *)
Theorem account_created_only_for_valid_request env json :
  status (register_POST env json) = 201 →
  ∃ body e p h user a r,
    json = Returns body
    ∧ RegisterRoute.email body = Some e ∧ RegisterRoute.password body = Some p
    ∧ LoginRoute.JWT_SECRET env ≠ None ∧ LoginRoute.JWT_SECRET env ≠ Some EmptyString
    ∧ Regex.test_whole Regex.emailRegex e = true
    ∧ (5 ≤ String.length p)%nat
    ∧ findUserByEmail e = Returns None
    ∧ hashPassword p = Returns h
    ∧ createUser
        (RegisterRoute.mkNewUser e h (RegisterRoute.name body) "user" false true)
      = Returns user
    ∧ createAccessToken (LoginRoute.user_id user) (LoginRoute.user_email user)
        (LoginRoute.role user) = Returns a
    ∧ createRefreshToken (LoginRoute.user_id user) = Returns r
    ∧ res_cookies (register_POST env json)
      = <["refreshToken" := LoginRoute.session_cookie env r 604800]>
          (<["accessToken" := LoginRoute.session_cookie env a 3600]> ∅).
Proof.
  intros H201.
  destruct (register_outcomes env json)
    as [[Hst _]|(body & e & p & h & user & Hj & He & Hp & Hs & Ht & Hlen & Hf
                 & Hh & Hc & Hout)].
  { rewrite H201 in Hst. apply list_elem_of_In in Hst. cbn in Hst.
    intuition discriminate. }
  rewrite Hout in H201 |- *.
  destruct (welcome_outcomes env user) as [Herr|(a & r & Ha & Hr & _ & Hcookies)].
  { by rewrite Herr in H201. }
  exists body, e, p, h, user, a, r.
  split_and!; try done.
  - intros Hnone. by rewrite Hnone in Hs.
  - intros Hempty. by rewrite Hempty in Hs.
Qed.

(** X27. The route answers with one of the statuses 201, 400, 409 and
    500; an email that is already registered is answered with 409 once
    the request is valid and the secret set; and no answer other than 201
    sets a cookie. *)
Theorem registration_statuses env json :
  let response := register_POST env json in
  status response ∈ [201; 400; 409; 500]
  ∧ (status response ≠ 201 → res_cookies response = ∅)
  ∧ (∀ body e p existing,
       json = Returns body →
       RegisterRoute.email body = Some e → RegisterRoute.password body = Some p →
       LoginRoute.JWT_SECRET env ≠ None →
       LoginRoute.JWT_SECRET env ≠ Some EmptyString →
       Regex.test_whole Regex.emailRegex e = true →
       (5 ≤ String.length p)%nat →
       findUserByEmail e = Returns (Some existing) →
       response = LoginRoute.error_response "User already exists" 409).
Proof.
  intros response. subst response. split_and!.
  - destruct (register_outcomes env json)
      as [[Hst _]|(body & e & p & h & user & _ & _ & _ & _ & _ & _ & _ & _ & _
                   & Hout)].
    + apply list_elem_of_In in Hst. apply list_elem_of_In. cbn in *. tauto.
    + rewrite Hout.
      destruct (welcome_outcomes env user) as [->|(a & r & _ & _ & -> & _)];
        apply list_elem_of_In; cbn; tauto.
  - intros Hne.
    destruct (register_outcomes env json)
      as [[_ Hnone]|(body & e & p & h & user & _ & _ & _ & _ & _ & _ & _ & _ & _
                     & Hout)]; [done|].
    rewrite Hout in Hne |- *.
    by destruct (welcome_outcomes env user) as [->|(a & r & _ & _ & Hst & _)].
  - intros body e p existing -> He Hp Hs1 Hs2 Ht Hlen Hf.
    unfold RegisterRoute.POST. rewrite He, Hp. simpl.
    assert (e ≠ EmptyString) as Hene by (intros ->; by vm_compute in Ht).
    assert (p ≠ EmptyString) as Hpne by (intros ->; simpl in Hlen; lia).
    rewrite (truthy_true e Hene), (truthy_true p Hpne). simpl.
    destruct (LoginRoute.JWT_SECRET env) as [[|c secret]|]; [done| |done].
    simpl. rewrite Ht. simpl.
    apply Nat.ltb_ge in Hlen. rewrite Hlen.
    unfold RegisterRoute.register. by rewrite Hf.
Qed.

End Register.

(** ** The further properties on concrete inputs *)

Lemma email_test_shape_witness :
  Regex.test_whole Regex.emailRegex "ada@example.org" = true
  ∧ ∃ a b c,
      "ada@example.org" = a +:+ "@" +:+ b +:+ "." +:+ c
      ∧ a ≠ EmptyString ∧ b ≠ EmptyString ∧ c ≠ EmptyString
      ∧ Text.every Regex.not_space_at a
      ∧ Text.every Regex.not_space_at b
      ∧ Text.every Regex.not_space_at c.
Proof.
  assert (Ht : Regex.test_whole Regex.emailRegex "ada@example.org" = true)
    by (vm_compute; reflexivity).
  split; [exact Ht|].
  exact (proj1 (email_test_shape "ada@example.org") Ht).
Defined.

Lemma extracted_fields_come_from_text_witness :
  ResumeParser.phone
    (ResumeParser.personal (ResumeParser.parseResumeText Fixture.resume_text "txt"))
  = Some "555-123-4567"
  ∧ Text.occurs_in "555-123-4567" Fixture.resume_text.
Proof.
  assert (Hp : ResumeParser.phone
                 (ResumeParser.personal
                    (ResumeParser.parseResumeText Fixture.resume_text "txt"))
               = Some "555-123-4567") by (vm_compute; reflexivity).
  split; [exact Hp|].
  exact (proj1 (proj2 (extracted_fields_come_from_text Fixture.resume_text "txt"))
           "555-123-4567" Hp).
Defined.

Lemma extracted_name_trimmed_piece_witness :
  ResumeParser.name
    (ResumeParser.personal (ResumeParser.parseResumeText Fixture.resume_text "txt"))
  = "Ada Lovelace"
  ∧ Text.occurs_in "Ada Lovelace" Fixture.resume_text
  ∧ ¬ Text.blank Fixture.resume_text.
Proof.
  assert (Hn : ResumeParser.name
                 (ResumeParser.personal
                    (ResumeParser.parseResumeText Fixture.resume_text "txt"))
               = "Ada Lovelace") by (vm_compute; reflexivity).
  split; [exact Hn|].
  pose proof (extracted_name_trimmed_piece Fixture.resume_text "txt") as H.
  cbv zeta in H. rewrite Hn in H. destruct H as (Hocc & _ & Hiff).
  split; [exact Hocc|]. intros Hb. apply Hiff in Hb. discriminate Hb.
Defined.

Lemma parsed_resume_valid_iff_address_witness :
  ResumeParser.validateParsedResume
    (ResumeParser.parseResumeText Fixture.resume_text "txt") = true
  ∧ ∃ a b c,
      Text.occurs_in (a +:+ "@" +:+ b +:+ "." +:+ c) Fixture.resume_text
      ∧ a ≠ EmptyString ∧ b ≠ EmptyString ∧ c ≠ EmptyString
      ∧ Text.every Regex.word_dot_dash a
      ∧ Text.every Regex.word_dot_dash b
      ∧ Text.every Regex.word c.
Proof.
  assert (Hv : ResumeParser.validateParsedResume
                 (ResumeParser.parseResumeText Fixture.resume_text "txt") = true)
    by (vm_compute; reflexivity).
  split; [exact Hv|].
  exact (proj1 (parsed_resume_valid_iff_address Fixture.resume_text "txt") Hv).
Defined.

Lemma only_text_types_parsed_witness :
  ResumeParser.parseResume Fixture.decode_utf8 Fixture.resume_buffer "TXT"
  = Returns
      (ResumeParser.parseResumeText
         (Fixture.decode_utf8 Fixture.resume_buffer) "md")
  ∧ ResumeParser.parseResume Fixture.decode_utf8 Fixture.resume_buffer "PDF"
    = Throws.
Proof.
  assert (Htxt : JS.toLowerCase "TXT" = "txt") by (vm_compute; reflexivity).
  assert (Hpdf : JS.toLowerCase "PDF" = "pdf") by (vm_compute; reflexivity).
  split.
  - apply (proj1 (only_text_types_parsed Fixture.decode_utf8
                    Fixture.resume_buffer "TXT")).
    rewrite Htxt. apply list_elem_of_In. cbn. tauto.
  - apply (proj2 (only_text_types_parsed Fixture.decode_utf8
                    Fixture.resume_buffer "PDF")).
    rewrite Hpdf. intros Hin%list_elem_of_In. cbn in Hin.
    intuition discriminate.
Defined.

Lemma account_created_only_for_valid_request_witness :
  let response :=
    RegisterRoute.POST Sample.findUserByEmail Fixture.hashPassword
      Fixture.createUser Sample.createAccessToken Sample.createRefreshToken
      Sample.long_secret (Returns Fixture.register_request) in
  status response = 201
  ∧ ∃ h user,
      Fixture.hashPassword "hopper1" = Returns h
      ∧ Fixture.createUser
          (RegisterRoute.mkNewUser "grace@example.org" h (Some "Grace") "user"
             false true)
        = Returns user.
Proof.
  intros response.
  assert (Hs : status response = 201) by (vm_compute; reflexivity).
  split; [exact Hs|].
  destruct (account_created_only_for_valid_request Sample.findUserByEmail
              Fixture.hashPassword Fixture.createUser Sample.createAccessToken
              Sample.createRefreshToken Sample.long_secret
              (Returns Fixture.register_request) Hs)
    as (body & e & p & h & user & a & r & Hj & He & Hp & _ & _ & _ & _ & _ & Hh
        & Hc & _).
  assert (body = Fixture.register_request) as -> by congruence.
  assert (e = "grace@example.org") as -> by (simpl in He; congruence).
  assert (p = "hopper1") as -> by (simpl in Hp; congruence).
  exists h, user. split; [exact Hh | exact Hc].
Defined.

Lemma registration_statuses_witness :
  RegisterRoute.POST Fixture.find_ada Fixture.hashPassword Fixture.createUser
    Sample.createAccessToken Sample.createRefreshToken Sample.long_secret
    (Returns Fixture.taken_request)
  = LoginRoute.error_response "User already exists" 409.
Proof.
  apply (proj2 (proj2 (registration_statuses Fixture.find_ada
                         Fixture.hashPassword Fixture.createUser
                         Sample.createAccessToken Sample.createRefreshToken
                         Sample.long_secret (Returns Fixture.taken_request)))
           Fixture.taken_request "ada@example.org" "hopper1" Fixture.ada);
    first [ reflexivity | discriminate | (simpl; lia) | (vm_compute; reflexivity) ].
Defined.
